(** * The Spreedly slash-command bot: response formatter and card update

    A shallow embedding of [lib/app/botkit.js] (the attachment formatter
    of the Slack bot) and of [PaymentMethods.updateCreditCard] from
    [node-spreedly/lib/modules/payment-methods.js], together with the
    properties the specification states about them.

    JavaScript objects are modelled as association lists in property
    creation order; the enumeration order of [for ... in] is computed
    from them ([own_property_order]).  Code that can raise a [TypeError]
    returns in the [result] monad.

    The formatter is embedded twice: as a function on values ([Bot]),
    and as a computation on a store of cells ([Heap]), where its
    arrays and objects are allocated and updated in place.  The second
    refines the first ([formatter_refines]) on the stores that hold a
    record of JSON data.  Statements about what a returned payload
    contains are made on the first; statements about the store, and
    about when the formatter returns or throws, on the second, where
    an array that contains itself or a BigInt can be written down. *)

From Stdlib Require Import List String Ascii Bool ZArith NArith Arith Lia.
From Stdlib Require Import Permutation Sorted DecimalString.
From Stdlib Require DecimalNat DecimalFacts.
Import ListNotations.

Local Open Scope string_scope.
Local Open Scope list_scope.
Set Warnings "-register-all".

(** String concatenation, JavaScript's [+] on strings. *)
Infix "^^" := String.append (at level 60, right associativity).

(** ** Exceptions *)

Inductive js_error : Type :=
| TypeError.

Inductive result (A : Type) : Type :=
| Ok (a : A)
| Throw (e : js_error).

Arguments Ok {A} a.
Arguments Throw {A} e.

Definition bind {A B : Type} (r : result A) (k : A -> result B) : result B :=
  match r with
  | Ok a => k a
  | Throw e => Throw e
  end.

Notation "x <- c1 ;; c2" := (bind c1 (fun x => c2))
  (at level 61, c1 at next level, right associativity).

(** A [for] loop whose body may throw: the body runs on each key in turn,
    and the first exception leaves the loop. *)
Fixpoint for_each {K S : Type} (body : S -> K -> result S) (keys : list K) (s : S)
  : result S :=
  match keys with
  | [] => Ok s
  | k :: rest => s' <- body s k ;; for_each body rest s'
  end.

(** ** Values *)

(** JSON data: what an array of a decoded response holds.  It is a
    finite tree; an array that contains itself, or a BigInt, is a value
    of the store ([Heap]) only. *)
Inductive json : Type :=
| JNull
| JBool (b : bool)
| JNum (n : Z)
| JStr (s : string)
| JArr (elems : list json)
| JObj (props : list (string * json)).

(** The values a property of a record can hold.  [VFunc] is a function
    object written by the user (never one of the built-in constructors);
    numbers are the integral ones. *)
Inductive Value : Type :=
| VUndefined
| VNull
| VBool (b : bool)
| VNum (n : Z)
| VStr (s : string)
| VFunc (name : string)
| VArr (elems : list json)
| VObj (props : list (string * Value)).

(** A plain object, as the list of its own properties in creation order. *)
Definition Record : Type := list (string * Value).

(** ** Property keys and their enumeration order *)

Definition digit_of (c : ascii) : option N :=
  let n := N_of_ascii c in
  if ((48 <=? n) && (n <=? 57))%N then Some (n - 48)%N else None.

Fixpoint parse_digits (acc : N) (s : string) : option N :=
  match s with
  | EmptyString => Some acc
  | String c rest =>
      match digit_of c with
      | Some d => parse_digits (10 * acc + d)%N rest
      | None => None
      end
  end.

(** An array index is the canonical decimal form of an integer between
    0 and 2^32 - 2. *)
Definition array_index (s : string) : option N :=
  match s with
  | EmptyString => None
  | String c rest =>
      if (Ascii.eqb c "0"%char && negb (String.eqb rest EmptyString))%bool then None
      else match parse_digits 0 s with
           | Some n => if (n <=? 4294967294)%N then Some n else None
           | None => None
           end
  end.

Definition is_index (s : string) : bool :=
  match array_index s with Some _ => true | None => false end.

Fixpoint insert_by_index {A : Type} (n : N) (p : string * A)
  (l : list (N * (string * A))) : list (N * (string * A)) :=
  match l with
  | [] => [(n, p)]
  | (m, q) :: rest =>
      if (n <=? m)%N then (n, p) :: l else (m, q) :: insert_by_index n p rest
  end.

(** The properties whose key is an array index, sorted by that index. *)
Fixpoint index_props {A : Type} (o : list (string * A)) : list (N * (string * A)) :=
  match o with
  | [] => []
  | p :: rest =>
      match array_index (fst p) with
      | Some n => insert_by_index n p (index_props rest)
      | None => index_props rest
      end
  end.

Definition named_props {A : Type} (o : list (string * A)) : list (string * A) :=
  filter (fun p => negb (is_index (fst p))) o.

(** OrdinaryOwnPropertyKeys: array indices in ascending numeric order,
    then the other keys in the order they were created. *)
Definition own_property_order {A : Type} (o : list (string * A)) : list (string * A) :=
  map snd (index_props o) ++ named_props o.

Definition own_property_keys {A : Type} (o : list (string * A)) : list string :=
  map fst (own_property_order o).

Fixpoint lookup {A : Type} (key : string) (o : list (string * A)) : option A :=
  match o with
  | [] => None
  | (k, v) :: rest => if String.eqb k key then Some v else lookup key rest
  end.

(** [o[key] = v]: an existing property keeps its place, a new one is
    created last. *)
Fixpoint set_prop {A : Type} (o : list (string * A)) (key : string) (v : A)
  : list (string * A) :=
  match o with
  | [] => [(key, v)]
  | (k, w) :: rest =>
      if String.eqb k key then (k, v) :: rest else (k, w) :: set_prop rest key v
  end.

(** [delete o[key]] *)
Definition delete_prop {A : Type} (o : list (string * A)) (key : string)
  : list (string * A) :=
  filter (fun p => negb (String.eqb (fst p) key)) o.

(** [o[key]] on a plain object of the response. *)
Definition prop_get (o : Record) (key : string) : Value :=
  match lookup key o with
  | Some v => v
  | None => VUndefined
  end.

(** ** JSON.stringify *)

Definition dquote : ascii := ascii_of_N 34.
Definition backslash : ascii := ascii_of_N 92.

Definition hex_digit (n : N) : ascii :=
  ascii_of_N (if (n <? 10)%N then 48 + n else 87 + n)%N.

Definition escape (c : ascii) : string := String backslash (String c EmptyString).

(** QuoteJSONString, one character at a time. *)
Definition quote_char (c : ascii) : string :=
  let n := N_of_ascii c in
  if (n =? 34)%N then escape dquote
  else if (n =? 92)%N then escape backslash
  else if (n =? 8)%N then escape "b"%char
  else if (n =? 12)%N then escape "f"%char
  else if (n =? 10)%N then escape "n"%char
  else if (n =? 13)%N then escape "r"%char
  else if (n =? 9)%N then escape "t"%char
  else if (n <? 32)%N
       then escape "u"%char ^^ "00"
            ^^ String (hex_digit (n / 16)) (String (hex_digit (n mod 16)) EmptyString)
       else String c EmptyString.

Fixpoint quote_chars (s : string) : string :=
  match s with
  | EmptyString => EmptyString
  | String c rest => quote_char c ^^ quote_chars rest
  end.

Definition quote (s : string) : string :=
  String dquote (quote_chars s ^^ String dquote EmptyString).

Fixpoint join (sep : string) (l : list string) : string :=
  match l with
  | [] => EmptyString
  | [s] => s
  | s :: rest => s ^^ sep ^^ join sep rest
  end.

(** *** Numbers

    A number of the model is an integer [n]; it stands for the Number
    value nearest to [n], which is [n] itself below 2^53 and infinite
    from 2^1024 - 2^970 on. *)

Definition decimal (n : Z) : string := NilZero.string_of_int (Z.to_int n).

(** The integer [a >= 0] rounded to 53 significant bits, ties to even. *)
Definition round_to_double (a : Z) : Z :=
  if (a <? 9007199254740992)%Z then a
  else
    let sh := (Z.log2 a - 52)%Z in
    let q := Z.shiftr a sh in
    let r := (a - Z.shiftl q sh)%Z in
    let half := Z.shiftl 1 (sh - 1) in
    let q' := if ((half <? r) || ((r =? half) && Z.odd q))%Z%bool then (q + 1)%Z else q in
    Z.shiftl q' sh.

Definition is_finite (n : Z) : bool :=
  (round_to_double (Z.abs n) <? Z.shiftl 1 1024)%Z.

(** The integer with at most [k] significant digits out of [d] that
    reads back as the Number [x], if there is one: the nearer of the
    two neighbours of [x], the even one on a tie. *)
Definition candidate (x : Z) (d k : nat) : option Z :=
  let unit := (10 ^ Z.of_nat (d - k))%Z in
  let lo := (x / unit * unit)%Z in
  let hi := (lo + unit)%Z in
  match ((0 <? lo) && (round_to_double lo =? x))%Z%bool, (round_to_double hi =? x)%Z with
  | true, true =>
      if (x - lo <? hi - x)%Z then Some lo
      else if (hi - x <? x - lo)%Z then Some hi
      else Some (if Z.even (lo / unit) then lo else hi)
  | true, false => Some lo
  | false, true => Some hi
  | false, false => None
  end.

(** The integer with the fewest significant digits that reads back as
    [x], trying [k] digits and more. *)
Fixpoint shortest (x : Z) (d k fuel : nat) : Z :=
  match fuel with
  | O => x
  | S fuel' =>
      match candidate x d k with
      | Some c => c
      | None => shortest x d (S k) fuel'
      end
  end.

Fixpoint trim_zeros (s : string) : string :=
  match s with
  | EmptyString => EmptyString
  | String c rest =>
      match trim_zeros rest with
      | EmptyString => if Ascii.eqb c "0"%char then EmptyString else String c EmptyString
      | kept => String c kept
      end
  end.

(** The form [d.ddde+nn] of an integer from 10^21 on. *)
Definition exponent_form (c : Z) : string :=
  let text := decimal c in
  let e := decimal (Z.of_nat (String.length text - 1)) in
  match trim_zeros text with
  | EmptyString => text
  | String d1 EmptyString => String d1 ("e+" ^^ e)
  | String d1 rest => String d1 ("." ^^ rest ^^ "e+" ^^ e)
  end.

(** Number::toString in base ten: the shortest digits that read back
    as the number, in plain decimal below 10^21 and with an exponent
    from there on. *)
Definition number_to_string (n : Z) : string :=
  let x := round_to_double (Z.abs n) in
  let text :=
    if (Z.shiftl 1 1024 <=? x)%Z then "Infinity"
    else
      let d := String.length (decimal x) in
      let c := shortest x d 1 d in
      if (c <? 10 ^ 21)%Z then decimal c else exponent_form c in
  if (n <? 0)%Z then "-" ^^ text else text.

(** A number in JSON text: an infinite one is written [null]. *)
Definition json_number (n : Z) : string :=
  if is_finite n then number_to_string n else "null".

(** The JSON text of a value; the members of an object come in the
    enumeration order of its keys. *)
Fixpoint JSON_stringify (j : json) : string :=
  match j with
  | JNull => "null"
  | JBool true => "true"
  | JBool false => "false"
  | JNum n => json_number n
  | JStr s => quote s
  | JArr elems => "[" ^^ join "," (map JSON_stringify elems) ^^ "]"
  | JObj props =>
      let rendered :=
        (fix members (l : list (string * json)) : list (string * string) :=
           match l with
           | [] => []
           | (k, v) :: rest => (k, JSON_stringify v) :: members rest
           end) props in
      "{" ^^ join "," (map (fun m => quote (fst m) ^^ ":" ^^ snd m)
                           (own_property_order rendered)) ^^ "}"
  end.

(** ** Slack attachments *)

Record FieldEntry : Type := mkField {
  title : string;
  value : Value;
  short : bool
}.

(** What the ['fields'] key of an attachment holds: the array of a group
    or, for a key inherited from an array, an element of that array. *)
Inductive Fields : Type :=
| FieldsArray (l : list FieldEntry)
| FieldsEntry (e : FieldEntry).

(** One attachment; [None] is a key the object literal does not have. *)
Record DisplayGroup : Type := mkGroup {
  color : option string;
  pretext : string;
  fields : option Fields
}.

Record DisplayPayload : Type := mkPayload {
  attachments : list DisplayGroup
}.

(** The local object [message] of [responseFormatter]: its own
    properties, each an array of field entries, and the array that
    [message['__proto__'] = []] installs as its prototype, if any. *)
Record Accumulator : Type := mkAcc {
  own : list (string * list FieldEntry);
  proto : option (list FieldEntry)
}.

(** The constructors [val.constructor] can evaluate to. *)
Inductive Constructor (V : Type) : Type :=
| CtorObject
| CtorArray
| CtorString
| CtorNumber
| CtorBoolean
| CtorFunction
| CtorBigInt
| CtorOwn (v : V).

Arguments CtorObject {V}.
Arguments CtorArray {V}.
Arguments CtorString {V}.
Arguments CtorNumber {V}.
Arguments CtorBoolean {V}.
Arguments CtorFunction {V}.
Arguments CtorBigInt {V}.
Arguments CtorOwn {V} v.

(** [val.constructor]: an own property named [constructor] shadows the
    one of the prototype; reading it off [undefined] or [null] throws. *)
Definition constructor_of (val : Value) : result (Constructor Value) :=
  match val with
  | VUndefined => Throw TypeError
  | VNull => Throw TypeError
  | VBool _ => Ok CtorBoolean
  | VNum _ => Ok CtorNumber
  | VStr _ => Ok CtorString
  | VFunc _ => Ok CtorFunction
  | VArr _ => Ok CtorArray
  | VObj props =>
      match lookup "constructor" props with
      | Some v => Ok (CtorOwn v)
      | None => Ok CtorObject
      end
  end.

Definition is_Object {V : Type} (c : Constructor V) : bool :=
  match c with CtorObject => true | _ => false end.

Definition is_Array {V : Type} (c : Constructor V) : bool :=
  match c with CtorArray => true | _ => false end.

Definition is_null (val : Value) : bool :=
  match val with VNull => true | _ => false end.

(** The own properties of a value, for [for (subKey in val)]. *)
Definition props_of (val : Value) : Record :=
  match val with
  | VObj props => props
  | _ => []
  end.

(** [JSON.stringify(val)] at its one call site, where [val] is [null]
    or an array of JSON data; on such a value it returns.  The call on
    any array of a store is [Heap.stringify], which may throw. *)
Definition stringify (val : Value) : Value :=
  match val with
  | VNull => VStr (JSON_stringify JNull)
  | VArr elems => VStr (JSON_stringify (JArr elems))
  | _ => VUndefined
  end.

(** The key of the element [i] of an array. *)
Definition index_key (i : nat) : string :=
  NilZero.string_of_uint (Nat.to_uint i).

(** The elements of an array as properties, from index [i] on. *)
Fixpoint indexed {A : Type} (i : nat) (l : list A) : list (string * A) :=
  match l with
  | [] => []
  | x :: rest => (index_key i, x) :: indexed (S i) rest
  end.

(** [o] has an own property [key]. *)
Definition has_key {A : Type} (o : list (string * A)) (key : string) : bool :=
  existsb (fun p => String.eqb (fst p) key) o.

Module Bot.

Definition success_color : string := "#36a64f".

(** [Bot.prototype.help] *)
Definition help : DisplayPayload :=
  {| attachments :=
       [ {| color := Some success_color;
            pretext := "Transaction details: ";
            fields := Some (FieldsArray
              [ {| title := "Command";
                   value := VStr "/spreedly _transaction_ *TOKEN*";
                   short := false |} ]) |};
         {| color := Some success_color;
            pretext := "Payment Gateway details: ";
            fields := Some (FieldsArray
              [ {| title := "Command";
                   value := VStr "/spreedly _gateway_ *TOKEN*";
                   short := false |} ]) |};
         {| color := Some success_color;
            pretext := "Payment Method details: ";
            fields := Some (FieldsArray
              [ {| title := "Command";
                   value := VStr "/spreedly _payment-method_ *TOKEN*";
                   short := false |} ]) |} ] |}.

(** The members of [Bot.prototype], as function objects. *)
Inductive Method : Type :=
| MInit
| MReplyPrivateDelayed
| MHelp
| MError
| MResponseFormatter.

(** What the local variable [help] of [error] can refer to. *)
Inductive Ref : Type :=
| RUndefined
| RFunction (m : Method)
| RPayload (p : DisplayPayload)
| RGroups (l : list DisplayGroup).

(** [r['attachments']] *)
Definition get_attachments (r : Ref) : result Ref :=
  match r with
  | RUndefined => Throw TypeError
  | RFunction _ => Ok RUndefined
  | RPayload p => Ok (RGroups (attachments p))
  | RGroups _ => Ok RUndefined
  end.

(** [r.unshift(g)]: only an array has the method. *)
Definition unshift (r : Ref) (g : DisplayGroup) : result Ref :=
  match r with
  | RGroups l => Ok (RGroups (g :: l))
  | _ => Throw TypeError
  end.

(** The object [help] after its ['attachments'] array was changed in
    place. *)
Definition with_attachments (r : Ref) (atts : Ref) : Ref :=
  match r, atts with
  | RPayload _, RGroups l => RPayload {| attachments := l |}
  | _, _ => r
  end.

Definition not_recognized : DisplayGroup :=
  {| color := None; pretext := "Type not recongnized."; fields := None |}.

(** [Bot.prototype.error]: [this.help] is read, not called. *)
Definition error : result Ref :=
  let help := RFunction MHelp in
  atts <- get_attachments help ;;
  atts' <- unshift atts not_recognized ;;
  Ok (with_attachments help atts').

(** [message[key] = []]: the key [__proto__] reaches the setter of
    [Object.prototype] and replaces the prototype; any other key
    becomes an own property. *)
Definition assign_empty (message : Accumulator) (key : string) : Accumulator :=
  if String.eqb key "__proto__"
  then {| own := own message; proto := Some [] |}
  else {| own := set_prop (own message) key []; proto := proto message |}.

(** [message[key].push(entry)]: [push] exists on the array of an own
    property and on the array installed as prototype; every other
    read yields a value without that method. *)
Definition push (message : Accumulator) (key : string) (entry : FieldEntry)
  : result Accumulator :=
  if String.eqb key "__proto__"
  then match proto message with
       | Some arr => Ok {| own := own message; proto := Some (arr ++ [entry]) |}
       | None => Throw TypeError
       end
  else match lookup key (own message) with
       | Some arr => Ok {| own := set_prop (own message) key (arr ++ [entry]);
                           proto := proto message |}
       | None => Throw TypeError
       end.

(** [val !== null && val.constructor === Object] *)
Definition is_plain_object (val : Value) : result bool :=
  if is_null val then Ok false
  else c <- constructor_of val ;; Ok (is_Object c).

(** [val === null || val.constructor === Array] *)
Definition is_null_or_array (val : Value) : result bool :=
  if is_null val then Ok true
  else c <- constructor_of val ;; Ok (is_Array c).

(** The body of the first loop of [responseFormatter]. *)
Definition classify (data : Record) (message : Accumulator) (key : string)
  : result Accumulator :=
  let val := prop_get data key in
  plain <- is_plain_object val ;;
  if plain then
    for_each
      (fun msg subKey =>
         push msg key {| title := subKey;
                         value := prop_get (props_of val) subKey;
                         short := true |})
      (own_property_keys (props_of val))
      (assign_empty message key)
  else
    serial <- is_null_or_array val ;;
    let val := if serial then stringify val else val in
    push message "main" {| title := key; value := val; short := true |}.

(** [for (key in message)] with [message[key]]: the own properties in
    enumeration order, then the elements of the prototype array whose
    index is not shadowed by an own property. *)
Definition enumerate (message : Accumulator) : list (string * Fields) :=
  map (fun p => (fst p, FieldsArray (snd p))) (own_property_order (own message))
  ++ match proto message with
     | Some arr =>
         map (fun p => (fst p, FieldsEntry (snd p)))
             (filter (fun p => negb (has_key (own message) (fst p))) (indexed 0 arr))
     | None => []
     end.

Definition main_label (type token : string) : string :=
  "Spreedly response for " ^^ type ^^ " with token " ^^ token.

(** [Bot.prototype.responseFormatter] *)
Definition responseFormatter (data : Record) (type token : string)
  : result DisplayPayload :=
  message <- for_each (classify data) (own_property_keys data)
                      {| own := [("main", [])]; proto := None |} ;;
  Ok {| attachments :=
          map (fun p =>
                 {| color := Some success_color;
                    pretext := if String.eqb (fst p) "main"
                               then main_label type token
                               else fst p;
                    fields := Some (snd p) |})
              (enumerate message) |}.

End Bot.

(** ** Updating a credit card *)

Module PaymentMethods.

(** ToBoolean *)
Definition truthy (v : Value) : bool :=
  match v with
  | VUndefined => false
  | VNull => false
  | VBool b => b
  | VNum n => negb (Z.eqb n 0)
  | VStr s => negb (String.eqb s EmptyString)
  | VFunc _ => true
  | VArr _ => true
  | VObj _ => true
  end.

(** [if(creditCard[key]) { delete creditCard[key]; }] *)
Definition delete_if_truthy (creditCard : Record) (key : string) : Record :=
  if truthy (prop_get creditCard key) then delete_prop creditCard key else creditCard.

(** The card as [updateCreditCard] hands it on, after its two guarded
    deletions. *)
Definition stripped (creditCard : Record) : Record :=
  delete_if_truthy (delete_if_truthy creditCard "verificationValue") "number".

(** The object given to [util.preparePost]. *)
Definition post_data (creditCard : Record) : Record :=
  [("creditCard", VObj (stripped creditCard))].

Section Request.

(** The class of [../credit-card] and the serialiser of [../util] are
    not part of the sources at hand. *)
Variable CreditCard : Type.
Variable toObject : CreditCard -> Record.
Variable Body : Type.
Variable preparePost : string -> Record -> Body.

Inductive CardArg : Type :=
| Plain (o : Record)
| Instance (c : CreditCard).

Record Request : Type := mkRequest {
  url : string;
  method : string;
  body : Body
}.

(** [if(creditCard instanceof CreditCard) creditCard = creditCard.toObject()] *)
Definition card_object (creditCard : CardArg) : Record :=
  match creditCard with
  | Plain o => o
  | Instance c => toObject c
  end.

(** [PaymentMethods.updateCreditCard], up to the request it hands to
    [_doRequest]; [paymentMethod] is the token of the payment method. *)
Definition updateCreditCard (paymentMethod : string) (creditCard : CardArg) : Request :=
  let creditCard := card_object creditCard in
  {| url := "payment_methods/" ^^ paymentMethod ^^ ".xml";
     method := "put";
     body := preparePost "payment_method" (post_data creditCard) |}.

End Request.

(** The card with both secret fields removed, whatever they hold. *)
Definition without_secrets (creditCard : Record) : Record :=
  delete_prop (delete_prop creditCard "verificationValue") "number".

(** The field [key] is absent or holds a truthy value. *)
Definition strippable (creditCard : Record) (key : string) : bool :=
  match lookup key creditCard with
  | Some v => truthy v
  | None => true
  end.

End PaymentMethods.

(** ** The formatter on a store

    The same function with its objects in a store: every object and
    array is a cell, a property holds a primitive or a reference, and
    [push] and assignment update cells in place. *)

Module Heap.

Definition loc : Type := nat.

Inductive hval : Type :=
| HUndefined
| HNull
| HBool (b : bool)
| HNum (n : Z)
| HStr (s : string)
| HFunc (name : string)
| HBigInt (n : Z)
| HRef (l : loc).

(** The prototype of an object: [Object.prototype], or the array that
    an assignment to [__proto__] installed. *)
Inductive Proto : Type :=
| ProtoObject
| ProtoArray (l : loc).

Inductive cell : Type :=
| CObject (proto : Proto) (props : list (string * hval))
| CArray (elems : list hval).

Definition heap : Type := list cell.

(** Computations that read and update the store and may throw. *)
Definition M (A : Type) : Type := heap -> result (A * heap).

Definition ret {A : Type} (a : A) : M A := fun h => Ok (a, h).

Definition throw {A : Type} (e : js_error) : M A := fun _ => Throw e.

Definition mbind {A B : Type} (m : M A) (k : A -> M B) : M B :=
  fun h => match m h with
           | Ok (a, h') => k a h'
           | Throw e => Throw e
           end.

Notation "x <~ c1 ;; c2" := (mbind c1 (fun x => c2))
  (at level 61, c1 at next level, right associativity).

Fixpoint loop {K : Type} (body : K -> M unit) (keys : list K) : M unit :=
  match keys with
  | [] => ret tt
  | k :: rest => _ <~ body k ;; loop body rest
  end.

Definition alloc (c : cell) : M loc := fun h => Ok (List.length h, h ++ [c]).

Definition read (l : loc) : M cell :=
  fun h => match nth_error h l with
           | Some c => Ok (c, h)
           | None => Throw TypeError
           end.

Fixpoint update (h : heap) (l : loc) (c : cell) : heap :=
  match h, l with
  | [], _ => []
  | _ :: rest, O => c :: rest
  | c0 :: rest, S l' => c0 :: update rest l' c
  end.

Definition write (l : loc) (c : cell) : M unit := fun h => Ok (tt, update h l c).

(** [elems[key]]: the element whose index, written as a key, is [key]. *)
Definition element (elems : list hval) (key : string) : hval :=
  match lookup key (indexed 0 elems) with
  | Some v => v
  | None => if String.eqb key "length" then HNum (Z.of_nat (List.length elems)) else HUndefined
  end.

(** [val[key]] for a data property: an own property, or an element of
    the array the object inherits from. *)
Definition get (val : hval) (key : string) : M hval :=
  match val with
  | HUndefined => throw TypeError
  | HNull => throw TypeError
  | HRef l =>
      c <~ read l ;;
      match c with
      | CArray elems => ret (element elems key)
      | CObject proto props =>
          match lookup key props with
          | Some v => ret v
          | None =>
              match proto with
              | ProtoObject => ret HUndefined
              | ProtoArray a =>
                  p <~ read a ;;
                  match p with
                  | CArray elems => ret (element elems key)
                  | CObject _ _ => ret HUndefined
                  end
              end
          end
      end
  | _ => ret HUndefined
  end.

Definition index_keys (elems : list hval) : list string :=
  map fst (indexed 0 elems).

(** The keys [for (key in val)] visits. *)
Definition for_in (val : hval) : M (list string) :=
  match val with
  | HRef l =>
      c <~ read l ;;
      match c with
      | CArray elems => ret (index_keys elems)
      | CObject proto props =>
          match proto with
          | ProtoObject => ret (own_property_keys props)
          | ProtoArray a =>
              p <~ read a ;;
              match p with
              | CArray elems =>
                  ret (own_property_keys props
                       ++ filter (fun k => negb (has_key props k)) (index_keys elems))
              | CObject _ _ => ret (own_property_keys props)
              end
          end
      end
  | _ => ret []
  end.

(** [val.constructor] *)
Definition constructor_of (val : hval) : M (Constructor hval) :=
  match val with
  | HUndefined => throw TypeError
  | HNull => throw TypeError
  | HBool _ => ret CtorBoolean
  | HNum _ => ret CtorNumber
  | HStr _ => ret CtorString
  | HFunc _ => ret CtorFunction
  | HBigInt _ => ret CtorBigInt
  | HRef l =>
      c <~ read l ;;
      match c with
      | CArray _ => ret CtorArray
      | CObject proto props =>
          match lookup "constructor" props with
          | Some v => ret (CtorOwn v)
          | None =>
              match proto with
              | ProtoObject => ret CtorObject
              | ProtoArray _ => ret CtorArray
              end
          end
      end
  end.

Fixpoint traverse {A B : Type} (f : A -> result B) (l : list A) : result (list B) :=
  match l with
  | [] => Ok []
  | x :: rest => y <- f x ;; ys <- traverse f rest ;; Ok (y :: ys)
  end.

Definition or_null (t : option string) : string :=
  match t with Some s => s | None => "null" end.

Fixpoint members (l : list (string * option string)) : list string :=
  match l with
  | [] => []
  | (k, Some s) :: rest => (quote k ^^ ":" ^^ s) :: members rest
  | (_, None) :: rest => members rest
  end.

(** SerializeJSONProperty: [None] is the result [undefined].  [stack]
    holds the objects being serialised, and meeting one of them again
    is the circular structure that [JSON.stringify] rejects, as it
    rejects a BigInt.  The recursion is bounded by [fuel]; a stack of
    distinct cells never outgrows the store, so the bound is not
    reached from [stringify] below.  A function has no body here: one
    met as a property is left out, and a method [toJSON] is not called;
    the stores that [Rep.record_at] describes hold no function below
    an array. *)
Fixpoint serialize (fuel : nat) (h : heap) (stack : list loc) (v : hval)
  : result (option string) :=
  match v with
  | HUndefined => Ok None
  | HFunc _ => Ok None
  | HNull => Ok (Some "null")
  | HBool true => Ok (Some "true")
  | HBool false => Ok (Some "false")
  | HNum n => Ok (Some (json_number n))
  | HStr s => Ok (Some (quote s))
  | HBigInt _ => Throw TypeError
  | HRef l =>
      if existsb (Nat.eqb l) stack then Throw TypeError
      else
        match fuel with
        | O => Throw TypeError
        | S fuel' =>
            match nth_error h l with
            | None => Throw TypeError
            | Some (CArray elems) =>
                texts <- traverse (serialize fuel' h (l :: stack)) elems ;;
                Ok (Some ("[" ^^ join "," (map or_null texts) ^^ "]"))
            | Some (CObject _ props) =>
                texts <- traverse
                           (fun p => t <- serialize fuel' h (l :: stack) (snd p) ;;
                                     Ok (fst p, t))
                           (own_property_order props) ;;
                Ok (Some ("{" ^^ join "," (members texts) ^^ "}"))
            end
        end
  end.

(** [JSON.stringify(val)] *)
Definition stringify (val : hval) : M hval :=
  fun h => match serialize (List.length h) h [] val with
           | Ok (Some s) => Ok (HStr s, h)
           | Ok None => Ok (HUndefined, h)
           | Throw e => Throw e
           end.

Definition is_null (val : hval) : bool :=
  match val with HNull => true | _ => false end.

(** [val !== null && val.constructor === Object] *)
Definition is_plain_object (val : hval) : M bool :=
  if is_null val then ret false
  else c <~ constructor_of val ;; ret (is_Object c).

(** [val === null || val.constructor === Array] *)
Definition is_null_or_array (val : hval) : M bool :=
  if is_null val then ret true
  else c <~ constructor_of val ;; ret (is_Array c).

(** [message[key] = []] *)
Definition assign_empty (message : loc) (key : string) : M unit :=
  arr <~ alloc (CArray []) ;;
  c <~ read message ;;
  match c with
  | CObject proto props =>
      if String.eqb key "__proto__"
      then write message (CObject (ProtoArray arr) props)
      else write message (CObject proto (set_prop props key (HRef arr)))
  | CArray _ => throw TypeError
  end.

(** The array [message[key]] that [push] is called on. *)
Definition push_target (message : loc) (key : string) : M loc :=
  c <~ read message ;;
  match c with
  | CObject proto props =>
      if String.eqb key "__proto__"
      then match proto with
           | ProtoArray a => ret a
           | ProtoObject => throw TypeError
           end
      else match lookup key props with
           | Some (HRef a) => ret a
           | _ => throw TypeError
           end
  | CArray _ => throw TypeError
  end.

(** [arr.push(v)] *)
Definition array_push (arr : loc) (v : hval) : M unit :=
  c <~ read arr ;;
  match c with
  | CArray elems => write arr (CArray (elems ++ [v]))
  | CObject _ _ => throw TypeError
  end.

(** [message[key].push({'title': title, 'value': val, 'short': true})],
    where evaluating [val] may itself read the store. *)
Definition push (message : loc) (key : string) (title : string) (val : M hval) : M unit :=
  arr <~ push_target message key ;;
  v <~ val ;;
  entry <~ alloc (CObject ProtoObject
                    [("title", HStr title); ("value", v); ("short", HBool true)]) ;;
  array_push arr (HRef entry).

(** The body of the first loop. *)
Definition classify (data : loc) (message : loc) (key : string) : M unit :=
  val <~ get (HRef data) key ;;
  plain <~ is_plain_object val ;;
  if plain then
    _ <~ assign_empty message key ;;
    subKeys <~ for_in val ;;
    loop (fun subKey => push message key subKey (get val subKey)) subKeys
  else
    serial <~ is_null_or_array val ;;
    val <~ (if serial then stringify val else ret val) ;;
    push message "main" key (ret val).

(** The body of the second loop. *)
Definition emit (messageToSend : loc) (message : loc) (type token : string)
  (key : string) : M unit :=
  arr <~ get (HRef messageToSend) "attachments" ;;
  f <~ get (HRef message) key ;;
  group <~ alloc (CObject ProtoObject
                    [("color", HStr Bot.success_color);
                     ("pretext", HStr (if String.eqb key "main"
                                       then Bot.main_label type token
                                       else key));
                     ("fields", f)]) ;;
  match arr with
  | HRef a => array_push a (HRef group)
  | _ => throw TypeError
  end.

(** [Bot.prototype.responseFormatter] on the store; [data] is the
    location of the response object. *)
Definition responseFormatter (data : loc) (type token : string) : M hval :=
  main <~ alloc (CArray []) ;;
  message <~ alloc (CObject ProtoObject [("main", HRef main)]) ;;
  keys <~ for_in (HRef data) ;;
  _ <~ loop (classify data message) keys ;;
  atts <~ alloc (CArray []) ;;
  messageToSend <~ alloc (CObject ProtoObject [("attachments", HRef atts)]) ;;
  keys <~ for_in (HRef message) ;;
  _ <~ loop (emit messageToSend message type token) keys ;;
  ret (HRef messageToSend).

End Heap.

(** ** Reading the store back

    When does a value of the store stand for a given value of the
    pure model?  The relations are decidable and written as boolean
    functions, by recursion on the pure value. *)

Fixpoint all2b {A B : Type} (R : A -> B -> bool) (xs : list A) (ys : list B) : bool :=
  match xs, ys with
  | [], [] => true
  | x :: xs', y :: ys' => R x y && all2b R xs' ys'
  | _, _ => false
  end.

Module Rep.

Import Heap.

Definition on_stack (l : loc) (stack : list loc) : bool := existsb (Nat.eqb l) stack.

(** [v] holds the JSON data [j]; the cells met on the way down, kept
    in [stack], are pairwise distinct. *)
Fixpoint json_at (h : heap) (stack : list loc) (j : json) (v : hval) : bool :=
  match j, v with
  | JNull, HNull => true
  | JBool b, HBool b' => Bool.eqb b b'
  | JNum n, HNum n' => Z.eqb n n'
  | JStr s, HStr s' => String.eqb s s'
  | JArr js, HRef l =>
      negb (on_stack l stack) &&
      match nth_error h l with
      | Some (CArray elems) => all2b (json_at h (l :: stack)) js elems
      | _ => false
      end
  | JObj props, HRef l =>
      negb (on_stack l stack) &&
      match nth_error h l with
      | Some (CObject ProtoObject hprops) =>
          all2b (fun p q => String.eqb (fst p) (fst q)
                            && json_at h (l :: stack) (snd p) (snd q))
                props hprops
      | _ => false
      end
  | _, _ => false
  end.

(** [v] holds the value [V]. *)
Fixpoint value_at (h : heap) (V : Value) (v : hval) : bool :=
  match V, v with
  | VUndefined, HUndefined => true
  | VNull, HNull => true
  | VBool b, HBool b' => Bool.eqb b b'
  | VNum n, HNum n' => Z.eqb n n'
  | VStr s, HStr s' => String.eqb s s'
  | VFunc f, HFunc f' => String.eqb f f'
  | VArr js, HRef l => json_at h [] (JArr js) (HRef l)
  | VObj props, HRef l =>
      match nth_error h l with
      | Some (CObject ProtoObject hprops) =>
          all2b (fun p q => String.eqb (fst p) (fst q) && value_at h (snd p) (snd q))
                props hprops
      | _ => false
      end
  | _, _ => false
  end.

(** The response object [R] sits at location [data]. *)
Definition record_at (h : heap) (R : Record) (data : loc) : bool :=
  value_at h (VObj R) (HRef data).

Definition entry_at (h : heap) (e : FieldEntry) (v : hval) : bool :=
  match v with
  | HRef l =>
      match nth_error h l with
      | Some (CObject ProtoObject
                [(k1, HStr t); (k2, hv); (k3, HBool s)]) =>
          String.eqb k1 "title" && String.eqb k2 "value" && String.eqb k3 "short"
          && String.eqb t (title e) && Bool.eqb s (short e) && value_at h (value e) hv
      | _ => false
      end
  | _ => false
  end.

Definition fields_at (h : heap) (F : Fields) (v : hval) : bool :=
  match F with
  | FieldsEntry e => entry_at h e v
  | FieldsArray es =>
      match v with
      | HRef a =>
          match nth_error h a with
          | Some (CArray refs) => all2b (entry_at h) es refs
          | _ => false
          end
      | _ => false
      end
  end.

Definition group_at (h : heap) (g : DisplayGroup) (v : hval) : bool :=
  match v, color g, fields g with
  | HRef l, Some c, Some F =>
      match nth_error h l with
      | Some (CObject ProtoObject
                [(k1, HStr c'); (k2, HStr label); (k3, f)]) =>
          String.eqb k1 "color" && String.eqb k2 "pretext" && String.eqb k3 "fields"
          && String.eqb c' c && String.eqb label (pretext g) && fields_at h F f
      | _ => false
      end
  | _, _, _ => false
  end.

(** [v] is a message object holding the payload [p]. *)
Definition payload_at (h : heap) (p : DisplayPayload) (v : hval) : bool :=
  match v with
  | HRef l =>
      match nth_error h l with
      | Some (CObject ProtoObject [(k, HRef a)]) =>
          String.eqb k "attachments" &&
          match nth_error h a with
          | Some (CArray refs) => all2b (group_at h) (attachments p) refs
          | _ => false
          end
      | _ => false
      end
  | _ => false
  end.

(** Every cell of [h] is still in [h'], with the same content. *)
Definition unchanged (h h' : heap) : Prop :=
  forall l, l < List.length h -> nth_error h' l = nth_error h l.

End Rep.

(** ** The store against the pure accumulator

    The invariant of the two loops: the cell [m] of the store holds the
    object [message], its arrays hold the entries of the accumulator
    [acc], and the cells of the initial store [h0] are untouched. *)

Module Sim.

Import Heap Rep.

Definition extends (h h' : heap) : Prop :=
  List.length h <= List.length h' /\ unchanged h h'.

Definition ref_locs (props : list (string * hval)) : list loc :=
  flat_map (fun q => match snd q with HRef a => [a] | _ => [] end) props.

Definition proto_locs (pr : Proto) : list loc :=
  match pr with
  | ProtoArray a => [a]
  | ProtoObject => []
  end.

Definition entry_cell (e : FieldEntry) (hv : hval) : cell :=
  CObject ProtoObject
    [("title", HStr (title e)); ("value", hv); ("short", HBool (short e))].

Definition entry_sim (h0 h : heap) (m : loc) (e : FieldEntry) (r : hval) : Prop :=
  exists l hv, r = HRef l /\ m < l /\ nth_error h l = Some (entry_cell e hv)
               /\ value_at h0 (value e) hv = true.

Definition array_sim (h0 h : heap) (m : loc) (es : list FieldEntry) (a : loc) : Prop :=
  List.length h0 <= a
  /\ exists refs, nth_error h a = Some (CArray refs) /\ Forall2 (entry_sim h0 h m) es refs.

Definition prop_sim (h0 h : heap) (m : loc) (p : string * list FieldEntry)
  (q : string * hval) : Prop :=
  fst p = fst q /\ exists a, snd q = HRef a /\ array_sim h0 h m (snd p) a.

Definition proto_sim (h0 h : heap) (m : loc) (o : option (list FieldEntry)) (pr : Proto)
  : Prop :=
  match o, pr with
  | None, ProtoObject => True
  | Some es, ProtoArray a => array_sim h0 h m es a
  | _, _ => False
  end.

Definition acc_sim (h0 h : heap) (m : loc) (acc : Accumulator) : Prop :=
  List.length h0 <= m /\ extends h0 h
  /\ exists pr hprops,
       nth_error h m = Some (CObject pr hprops)
       /\ Forall2 (prop_sim h0 h m) (own acc) hprops
       /\ proto_sim h0 h m (proto acc) pr
       /\ NoDup (map fst hprops)
       /\ NoDup (ref_locs hprops ++ proto_locs pr).

(** Two property lists with the same keys, and values related by [Q]. *)
Definition same_keys {A B : Type} (Q : A -> B -> Prop) (p : string * A) (q : string * B)
  : Prop :=
  fst p = fst q /\ Q (snd p) (snd q).

(** The serialiser of the store reads the JSON data [j] correctly,
    whatever the stack and the fuel it is left with. *)
Definition serialises (h : heap) (j : json) : Prop :=
  forall stack v fuel,
    json_at h stack j v = true ->
    NoDup stack -> (forall x, In x stack -> x < List.length h) ->
    List.length h <= fuel + List.length stack ->
    serialize fuel h stack v = Ok (Some (JSON_stringify j)).

(** What the ['fields'] of a group refer to; [atts] is the array of
    the attachments, which is none of the arrays of [message]. *)
Definition fields_sim (h0 h : heap) (m atts : loc) (F : Fields) (f : hval) : Prop :=
  match F with
  | FieldsArray es => exists a, f = HRef a /\ a <> atts /\ array_sim h0 h m es a
  | FieldsEntry e => entry_sim h0 h m e f
  end.

Definition group_cell (g : DisplayGroup) (c : string) (f : hval) : cell :=
  CObject ProtoObject [("color", HStr c); ("pretext", HStr (pretext g)); ("fields", f)].

Definition group_sim (h0 h : heap) (m atts : loc) (g : DisplayGroup) (r : hval) : Prop :=
  exists l c F f,
    r = HRef l /\ m < l /\ color g = Some c /\ fields g = Some F
    /\ nth_error h l = Some (group_cell g c f)
    /\ fields_sim h0 h m atts F f.

(** The invariant of the second loop: [message] is as the first loop
    left it, and the array [atts] of the object [ms] holds the groups
    emitted so far. *)
Definition emit_sim (h0 h : heap) (m ms atts : loc) (acc : Accumulator)
  (done : list DisplayGroup) : Prop :=
  acc_sim h0 h m acc
  /\ m < ms /\ List.length h0 <= atts
  /\ (forall pr hprops, nth_error h m = Some (CObject pr hprops) ->
                         ~ In atts (ref_locs hprops ++ proto_locs pr))
  /\ nth_error h ms = Some (CObject ProtoObject [("attachments", HRef atts)])
  /\ exists grefs, nth_error h atts = Some (CArray grefs)
                    /\ Forall2 (group_sim h0 h m atts) done grefs.

(** The group the second loop builds for a key and its fields. *)
Definition emitted (type token : string) (p : string * Fields) : DisplayGroup :=
  {| color := Some Bot.success_color;
     pretext := if String.eqb (fst p) "main" then Bot.main_label type token else fst p;
     fields := Some (snd p) |}.

(** The result of a computation that only reads the store. *)
Definition reads {A : Type} (r : result A) (h : heap) : result (A * heap) :=
  match r with
  | Ok a => Ok (a, h)
  | Throw e => Throw e
  end.

(** Object cells beyond [m] keep their content from [h] to [h']. *)
Definition objects_kept (m : loc) (h h' : heap) : Prop :=
  forall l pr ps, m < l -> nth_error h l = Some (CObject pr ps) ->
                  nth_error h' l = Some (CObject pr ps).

End Sim.

(** ** Vocabulary of the statements *)

(** The values the formatter opens a group for: objects whose
    [constructor] is [Object]. *)
Definition is_group (val : Value) : bool :=
  match val with
  | VObj props =>
      match lookup "constructor" props with
      | Some _ => false
      | None => true
      end
  | _ => false
  end.

Definition is_undefined (val : Value) : bool :=
  match val with VUndefined => true | _ => false end.

(** What a key of the main group shows for its value. *)
Definition display (val : Value) : Value :=
  match val with
  | VNull => VStr (JSON_stringify JNull)
  | VArr elems => VStr (JSON_stringify (JArr elems))
  | _ => val
  end.

Definition main_entry (data : Record) (key : string) : FieldEntry :=
  {| title := key; value := display (prop_get data key); short := true |}.

Definition sub_entry (props : Record) (subKey : string) : FieldEntry :=
  {| title := subKey; value := prop_get props subKey; short := true |}.

Definition main_fields (data : Record) (keys : list string) : list FieldEntry :=
  map (main_entry data) (filter (fun k => negb (is_group (prop_get data k))) keys).

Definition group_fields (val : Value) : list FieldEntry :=
  map (sub_entry (props_of val)) (own_property_keys (props_of val)).

Definition groups (data : Record) (keys : list string) : list (string * list FieldEntry) :=
  map (fun k => (k, group_fields (prop_get data k)))
      (filter (fun k => is_group (prop_get data k)) keys).

Definition main_group (type token : string) (fs : list FieldEntry) : DisplayGroup :=
  {| color := Some Bot.success_color;
     pretext := Bot.main_label type token;
     fields := Some (FieldsArray fs) |}.

Definition named_group (g : string * list FieldEntry) : DisplayGroup :=
  {| color := Some Bot.success_color;
     pretext := fst g;
     fields := Some (FieldsArray (snd g)) |}.

Definition is_record (val : Value) : bool :=
  match val with VObj _ => true | _ => false end.

Definition labels (gs : list DisplayGroup) : list string := map pretext gs.

Definition titles (fs : list FieldEntry) : list string := map title fs.

Definition occurrences (key : string) (l : list string) : nat :=
  count_occ string_dec l key.

(** Every key of [data] shows exactly once in the payload [p]: the keys
    that [nested] selects as labels of groups other than the main one,
    the others as titles in the main group. *)
Definition every_key_once (nested : Value -> bool) (data : Record)
  (type token : string) (p : DisplayPayload) : Prop :=
  exists before fs after,
    attachments p = before ++ main_group type token fs :: after /\
    forall k v, In (k, v) data ->
      if nested v
      then occurrences k (labels (before ++ after)) = 1 /\ occurrences k (titles fs) = 0
      else occurrences k (titles fs) = 1 /\ occurrences k (labels (before ++ after)) = 0.

(** Both keys are array indices, the first not above the second. *)
Definition index_le (k k' : string) : Prop :=
  match array_index k, array_index k' with
  | Some n, Some n' => (n <= n')%N
  | _, _ => False
  end.

(** The groups of the nested records, in the order the second loop
    visits them: those under an array index, then the others. *)
Definition index_groups (data : Record) : list (string * list FieldEntry) :=
  map snd (index_props (groups data (own_property_keys data))).

Definition named_groups (data : Record) : list (string * list FieldEntry) :=
  named_props (groups data (own_property_keys data)).

(** [message[key]] is an array. *)
Definition has_target (key : string) (m : Accumulator) : Prop :=
  if String.eqb key "__proto__" then proto m <> None else lookup key (own m) <> None.

(** The values the main group takes as they are or as JSON text. *)
Definition is_flat (val : Value) : bool :=
  match val with
  | VNull | VBool _ | VNum _ | VStr _ | VArr _ => true
  | _ => false
  end.

(** A record the formatter handles as intended: distinct keys, no
    [undefined] value, and no nested record under one of the two names
    that assignment to [message] treats specially. *)
Record regular (data : Record) : Prop := mkRegular {
  regular_keys : NoDup (map fst data);
  regular_defined : forall k v, In (k, v) data -> is_undefined v = false;
  regular_names : forall k v, In (k, v) data -> is_group v = true ->
                              k <> "main" /\ k <> "__proto__"
}.

(** ** The requests of the payment-method module

    Every function of [payment-methods.js] builds the options of one
    HTTP request and hands them to [_doRequest]; the promise it returns
    is completed with the callback [cb].  A call is modelled by these
    two things.  Arguments are values: a payment method or gateway is
    an element (an object with a [token]) or the token itself. *)

Module Requests.

(** [typeof v === 'function'] *)
Definition is_function (v : Value) : bool :=
  match v with VFunc _ => true | _ => false end.

(** [v.token]: reading a property off [undefined] or [null] throws;
    only an object of the response can carry the property. *)
Definition token_of (v : Value) : result Value :=
  match v with
  | VUndefined => Throw TypeError
  | VNull => Throw TypeError
  | VObj props => Ok (prop_get props "token")
  | _ => Ok VUndefined
  end.

(** [v.token || v] *)
Definition token_or_self (v : Value) : result Value :=
  t <- token_of v ;;
  Ok (if PaymentMethods.truthy t then t else v).

(** [if(typeof additionalData === 'function' && !cb) { cb = additionalData;
    additionalData = null; }]: the pair [(additionalData, cb)] afterwards. *)
Definition optional_argument (additionalData cb : Value) : Value * Value :=
  if (is_function additionalData && negb (PaymentMethods.truthy cb))%bool
  then (VNull, additionalData)
  else (additionalData, cb).

(** The two variables that [updatePaymentMethod] and
    [storePaymentMethod] assign without declaring them: they are
    global, and outlive the call. *)
Record Globals : Type := mkGlobals {
  paymentMethodToken : Value;
  paymentGatewayToken : Value
}.

Section Calls.

(** Not part of the sources at hand: the class of [../credit-card], the
    serialiser of [../util], and the conversion to a string that [+]
    applies to the token in a URL (it may throw on an object). *)
Variable CreditCard : Type.
Variable toObject : CreditCard -> Record.
Variable Body : Type.
Variable preparePost : string -> Record -> Body.
Variable ToString : Value -> result string.

(** The object given to [_doRequest]; [None] is a key it does not have. *)
Record Options : Type := mkOptions {
  url : string;
  method : option string;
  body : option Body
}.

Record Call : Type := mkCall {
  request : Options;
  callback : Value
}.

(** [before + v + after] *)
Definition concat (before : string) (v : Value) (after : string) : result string :=
  s <- ToString v ;; Ok (before ^^ s ^^ after).

(** [PaymentMethods.createCreditCard] *)
Definition createCreditCard (creditCard : PaymentMethods.CardArg CreditCard)
  (additionalData cb : Value) : Call :=
  let (additionalData, cb) := optional_argument additionalData cb in
  let creditCard := PaymentMethods.card_object CreditCard toObject creditCard in
  let postData := [("creditCard", VObj creditCard)] in
  let postData := if PaymentMethods.truthy additionalData
                  then set_prop postData "data" additionalData
                  else postData in
  {| request := {| url := "payment_methods.xml";
                   method := Some "post";
                   body := Some (preparePost "payment_method" postData) |};
     callback := cb |}.

(** [PaymentMethods.updatePaymentMethod]; the outcome comes with the
    globals as the call leaves them. *)
Definition updatePaymentMethod (paymentMethod : Value) (postData : Record) (cb : Value)
  (g : Globals) : result Call * Globals :=
  match token_or_self paymentMethod with
  | Throw e => (Throw e, g)
  | Ok token =>
      let g := {| paymentMethodToken := token;
                  paymentGatewayToken := paymentGatewayToken g |} in
      (u <- concat "payment_methods/" (paymentMethodToken g) ".xml" ;;
       Ok {| request := {| url := u;
                           method := Some "put";
                           body := Some (preparePost "payment_method" postData) |};
             callback := cb |},
       g)
  end.

(** [PaymentMethods.migratePaymentMethod] *)
Definition migratePaymentMethod (data : Record) (cb : Value) : Call :=
  let postData := [("paymentMethodType", prop_get data "paymentMethodType");
                   ("reference", prop_get data "reference");
                   ("gatewayType", prop_get data "gatewayType")] in
  {| request := {| url := "payment_methods.xml";
                   method := Some "post";
                   body := Some (preparePost "payment_method" postData) |};
     callback := cb |}.

(** [PaymentMethods.storePaymentMethod]: the body is built from the
    argument [paymentMethod], not from the global of the same purpose. *)
Definition storePaymentMethod (paymentGateway paymentMethod additionalData cb : Value)
  (g : Globals) : result Call * Globals :=
  let (additionalData, cb) := optional_argument additionalData cb in
  match token_or_self paymentGateway with
  | Throw e => (Throw e, g)
  | Ok gatewayToken =>
      let g := {| paymentMethodToken := paymentMethodToken g;
                  paymentGatewayToken := gatewayToken |} in
      match token_or_self paymentMethod with
      | Throw e => (Throw e, g)
      | Ok methodToken =>
          let g := {| paymentMethodToken := methodToken;
                      paymentGatewayToken := paymentGatewayToken g |} in
          let postData := [("paymentMethodToken", paymentMethod)] in
          let postData := if PaymentMethods.truthy additionalData
                          then set_prop postData "gatewaySpecificFields" additionalData
                          else postData in
          let body := preparePost "transaction" postData in
          (u <- concat "/gateways/" (paymentGatewayToken g) "/store.xml" ;;
           Ok {| request := {| url := u; method := Some "post"; body := Some body |};
                 callback := cb |},
           g)
      end
  end.

(** [PaymentMethods.retainPaymentMethod] *)
Definition retainPaymentMethod (paymentMethod cb : Value) : result Call :=
  paymentMethod <- token_or_self paymentMethod ;;
  u <- concat "/payment_methods/" paymentMethod "/retain.xml" ;;
  Ok {| request := {| url := u; method := Some "put"; body := None |};
        callback := cb |}.

(** [PaymentMethods.listPaymentMethods] *)
Definition listPaymentMethods (cb : Value) : Call :=
  {| request := {| url := "payment_methods.xml"; method := None; body := None |};
     callback := cb |}.

(** [removeFromGateway && removeFromGateway.token ? removeFromGateway.token
    : removeFromGateway] *)
Definition gateway_token (removeFromGateway : Value) : result Value :=
  if PaymentMethods.truthy removeFromGateway
  then t <- token_of removeFromGateway ;;
       if PaymentMethods.truthy t then token_of removeFromGateway else Ok removeFromGateway
  else Ok removeFromGateway.

(** [PaymentMethods.redactPaymentMethod] *)
Definition redactPaymentMethod (paymentMethod removeFromGateway cb : Value) : result Call :=
  paymentMethod <- token_or_self paymentMethod ;;
  removeFromGateway <- gateway_token removeFromGateway ;;
  let (removeFromGateway, cb) := optional_argument removeFromGateway cb in
  u <- concat "payment_methods/" paymentMethod "/redact.xml" ;;
  Ok {| request :=
          {| url := u;
             method := Some "put";
             body := if PaymentMethods.truthy removeFromGateway
                     then Some (preparePost "transaction"
                                  [("removeFromGateway", removeFromGateway)])
                     else None |};
        callback := cb |}.

(** [PaymentMethods.showPaymentMethod] *)
Definition showPaymentMethod (paymentMethod cb : Value) : result Call :=
  paymentMethod <- token_or_self paymentMethod ;;
  u <- concat "payment_methods/" paymentMethod ".xml" ;;
  Ok {| request := {| url := u; method := None; body := None |}; callback := cb |}.

(** [PaymentMethods.getPaymentMethodTransactions] *)
Definition getPaymentMethodTransactions (paymentMethod cb : Value) : result Call :=
  paymentMethod <- token_or_self paymentMethod ;;
  u <- concat "payment_methods/" paymentMethod "/transactions.xml" ;;
  Ok {| request := {| url := u; method := None; body := None |}; callback := cb |}.

(** [PaymentMethods.updateCreditCard], with all its arguments. *)
Definition updateCreditCard (paymentMethod : Value)
  (creditCard : PaymentMethods.CardArg CreditCard) (additionalData cb : Value)
  : result Call :=
  paymentMethod <- token_or_self paymentMethod ;;
  let (additionalData, cb) := optional_argument additionalData cb in
  let creditCard := PaymentMethods.card_object CreditCard toObject creditCard in
  u <- concat "payment_methods/" paymentMethod ".xml" ;;
  Ok {| request := {| url := u;
                      method := Some "put";
                      body := Some (preparePost "payment_method"
                                      (PaymentMethods.post_data creditCard)) |};
        callback := cb |}.

(** [PaymentMethods.recacheVerificationValue] *)
Definition recacheVerificationValue (paymentMethod verificationValue cb : Value)
  : result Call :=
  paymentMethod <- token_or_self paymentMethod ;;
  u <- concat "payment_methods/" paymentMethod "/recache.xml" ;;
  Ok {| request :=
          {| url := u;
             method := Some "post";
             body := Some (preparePost "payment_method"
                             [("creditCard",
                               VObj [("verificationValue", verificationValue)])]) |};
        callback := cb |}.

End Calls.

(** The text of an element in [Array.prototype.join]: nothing for
    [null], the elements joined by commas for an array; an object is
    ["[object Object]"] unless a property [toString] of its own, which
    is no function in JSON data, hides the method. *)
Fixpoint element_text (j : json) : result string :=
  match j with
  | JNull => Ok EmptyString
  | JBool true => Ok "true"
  | JBool false => Ok "false"
  | JNum n => Ok (number_to_string n)
  | JStr s => Ok s
  | JArr elems =>
      (fix joined (l : list json) : result string :=
         match l with
         | [] => Ok EmptyString
         | [j] => element_text j
         | j :: rest => t <- element_text j ;; ts <- joined rest ;; Ok (t ^^ "," ^^ ts)
         end) elems
  | JObj props =>
      if has_key props "toString" then Throw TypeError else Ok "[object Object]"
  end.

Definition is_method (o : option Value) : bool :=
  match o with Some (VFunc _) => true | _ => false end.

(** The text that [+] puts into a string for [v], an instance of
    [ToString] for the examples.  It is the conversion wherever the
    value fixes it: a primitive, an array of JSON data, an object
    without a method [valueOf] or [toString] of its own.  For a
    function the text is its source, and for an object with such a
    method it is what the method returns; a value carries neither, and
    the instance throws there. *)
Definition primitive_text (v : Value) : result string :=
  match v with
  | VUndefined => Ok "undefined"
  | VNull => Ok "null"
  | VBool true => Ok "true"
  | VBool false => Ok "false"
  | VNum n => Ok (number_to_string n)
  | VStr s => Ok s
  | VArr elems => element_text (JArr elems)
  | VObj props =>
      if is_method (lookup "valueOf" props) then Throw TypeError
      else match lookup "toString" props with
           | None => Ok "[object Object]"
           | Some _ => Throw TypeError
           end
  | VFunc _ => Throw TypeError
  end.

End Requests.

(** ** The bot answering a command

    [replyPrivateDelayed] spawns a worker of the chat framework and
    sends the formatted response through it.  The framework is
    outside the sources; its calls are kept in a log. *)

Module Caller.

(** The argument of [controller.spawn]. *)
Record SpawnOptions : Type := mkSpawn {
  token : Value;
  channel : Value
}.

(** The calls made to the framework: [controller.spawn(options)], and
    [replyPrivateDelayed(config, message)] on the worker that the
    spawn numbered [worker] in the log returned. *)
Inductive Event : Type :=
| Spawned (options : SpawnOptions)
| Replied (worker : nat) (config : Record) (message : DisplayPayload).

(** The bot object: [this.slack], and the log of its calls. *)
Record BotState : Type := mkBot {
  slack : option nat;
  log : list Event
}.

(** The argument of [replyPrivateDelayed]; [params] holds the words of
    the command. *)
Record Command : Type := mkCommand {
  config : Record;
  message : Record;
  params : list string
}.

(** [Bot.prototype.init] *)
Definition init (config : Record) (this : BotState) : BotState :=
  {| slack := Some (List.length (log this));
     log := log this ++ [Spawned {| token := prop_get config "token";
                                    channel := prop_get config "channel_id" |}] |}.

(** [params[i]] as the formatter shows it: a missing word is
    [undefined], which [+] turns into the text of that name. *)
Definition param (params : list string) (i : nat) : string :=
  nth i params "undefined".

(** [Bot.prototype.replyPrivateDelayed]: the outcome, and the bot as the
    call leaves it. *)
Definition replyPrivateDelayed (data : Command) (this : BotState)
  : result unit * BotState :=
  let this := init (config data) this in
  match Bot.responseFormatter (message data) (param (params data) 0)
                              (param (params data) 1) with
  | Throw e => (Throw e, this)
  | Ok payload =>
      match slack this with
      | None => (Throw TypeError, this)
      | Some worker =>
          (Ok tt, {| slack := slack this;
                     log := log this ++ [Replied worker (config data) payload] |})
      end
  end.

End Caller.

(** The same call with the response in a store: the formatter runs on
    the store, and the reply carries the message object it built. *)

Module StoreCaller.

Inductive Event : Type :=
| Spawned (options : Caller.SpawnOptions)
| Replied (worker : nat) (config : Record) (message : Heap.hval).

Record BotState : Type := mkBot {
  slack : option nat;
  log : list Event
}.

(** [data.message] is the location of the response object. *)
Record Command : Type := mkCommand {
  config : Record;
  message : Heap.loc;
  params : list string
}.

(** [Bot.prototype.init] *)
Definition init (config : Record) (this : BotState) : BotState :=
  {| slack := Some (List.length (log this));
     log := log this ++ [Spawned {| Caller.token := prop_get config "token";
                                    Caller.channel := prop_get config "channel_id" |}] |}.

(** [Bot.prototype.replyPrivateDelayed]: the outcome with the store it
    leaves, and the bot as the call leaves it. *)
Definition replyPrivateDelayed (data : Command) (this : BotState) (h : Heap.heap)
  : result Heap.heap * BotState :=
  let this := init (config data) this in
  match Heap.responseFormatter (message data) (Caller.param (params data) 0)
                               (Caller.param (params data) 1) h with
  | Throw e => (Throw e, this)
  | Ok (payload, h') =>
      match slack this with
      | None => (Throw TypeError, this)
      | Some worker =>
          (Ok h', {| slack := slack this;
                     log := log this ++ [Replied worker (config data) payload] |})
      end
  end.

End StoreCaller.

(** ** Cells built by the formatter *)

Module Fresh.

Import Heap.

Definition new_ref (n : nat) (v : hval) : bool :=
  match v with HRef l => Nat.leb n l | _ => false end.

(** The ['fields'] of a group are an array built since the store had
    [n] cells, of entries built since then, or one such entry. *)
Definition new_fields (n : nat) (h : heap) (f : hval) : bool :=
  match f with
  | HRef a =>
      Nat.leb n a &&
      match nth_error h a with
      | Some (CArray refs) => forallb (new_ref n) refs
      | Some (CObject _ _) => true
      | None => false
      end
  | _ => false
  end.

Definition new_group (n : nat) (h : heap) (g : hval) : bool :=
  match g with
  | HRef l =>
      Nat.leb n l &&
      match nth_error h l with
      | Some (CObject _ [_; _; (_, f)]) => new_fields n h f
      | _ => false
      end
  | _ => false
  end.

(** The message object [v], its array of attachments, every group, the
    array of fields of every group and every entry in it sit in cells
    that did not exist when the store had [n] cells. *)
Definition built_after (n : nat) (h : heap) (v : hval) : bool :=
  match v with
  | HRef ms =>
      Nat.leb n ms &&
      match nth_error h ms with
      | Some (CObject _ [(_, HRef a)]) =>
          Nat.leb n a &&
          match nth_error h a with
          | Some (CArray groups) => forallb (new_group n h) groups
          | _ => false
          end
      | _ => false
      end
  | _ => false
  end.

End Fresh.

(** ** Vocabulary of the further statements *)

(** Every entry that [F] holds is shown short. *)
Definition all_short (F : Fields) : Prop :=
  match F with
  | FieldsArray es => Forall (fun e => short e = true) es
  | FieldsEntry e => short e = true
  end.

(** The entries of the accumulator are all shown short. *)
Definition acc_short (m : Accumulator) : Prop :=
  Forall (fun p => Forall (fun e => short e = true) (snd p)) (own m)
  /\ match proto m with
     | Some arr => Forall (fun e => short e = true) arr
     | None => True
     end.

(** * Properties *)

Local Arguments String.eqb : simpl never.

(** Case analysis on the variables that a hypothesis matches on. *)
Ltac break_match H :=
  repeat match type of H with
         | context [match ?x with _ => _ end] => is_var x; destruct x; try discriminate H
         end.

(** ** Enumeration order *)

Section Enumeration.

Context {A : Type}.
Implicit Types (o : list (string * A)) (p : string * A).

Lemma insert_by_index_perm n p (l : list (N * (string * A))) :
  Permutation (insert_by_index n p l) ((n, p) :: l).
Proof.
  induction l as [|[m q] l IH]; simpl.
  - apply Permutation_refl.
  - destruct (n <=? m)%N.
    + apply Permutation_refl.
    + eapply Permutation_trans; [apply perm_skip, IH | apply perm_swap].
Qed.

Lemma index_props_perm o :
  Permutation (map snd (index_props o)) (filter (fun p => is_index (fst p)) o).
Proof.
  induction o as [|p o IH]; simpl.
  - constructor.
  - unfold is_index. destruct (array_index (fst p)) as [n|]; [|exact IH].
    eapply Permutation_trans.
    + apply Permutation_map, insert_by_index_perm.
    + simpl. apply perm_skip, IH.
Qed.

Lemma filter_split_perm (f : string * A -> bool) o :
  Permutation (filter f o ++ filter (fun p => negb (f p)) o) o.
Proof.
  induction o as [|p o IH]; simpl; [constructor|].
  destruct (f p); simpl.
  - apply perm_skip, IH.
  - eapply Permutation_trans; [apply Permutation_sym, Permutation_middle|].
    apply perm_skip, IH.
Qed.

Lemma own_property_order_perm o : Permutation (own_property_order o) o.
Proof.
  unfold own_property_order, named_props.
  eapply Permutation_trans; [|apply (filter_split_perm (fun p => is_index (fst p)))].
  apply Permutation_app_tail, index_props_perm.
Qed.

Lemma own_property_keys_perm o : Permutation (own_property_keys o) (map fst o).
Proof. apply Permutation_map, own_property_order_perm. Qed.

Lemma index_props_named o :
  (forall p, In p o -> is_index (fst p) = false) -> index_props o = [].
Proof.
  induction o as [|p o IH]; intros H; simpl; [reflexivity|].
  assert (Hp := H p (or_introl eq_refl)). unfold is_index in Hp.
  destruct (array_index (fst p)); [discriminate|].
  apply IH. intros q Hq. apply H. now right.
Qed.

Lemma named_props_named o :
  (forall p, In p o -> is_index (fst p) = false) -> named_props o = o.
Proof.
  unfold named_props. induction o as [|p o IH]; intros H; simpl; [reflexivity|].
  rewrite (H p (or_introl eq_refl)). simpl. f_equal.
  apply IH. intros q Hq. apply H. now right.
Qed.

(** Without array indices among the keys, enumeration follows
    creation order. *)
Lemma own_property_order_named o :
  (forall p, In p o -> is_index (fst p) = false) -> own_property_order o = o.
Proof.
  intros H. unfold own_property_order.
  now rewrite index_props_named, named_props_named.
Qed.

Lemma own_property_order_cons_named p o :
  is_index (fst p) = false ->
  own_property_order (p :: o) = map snd (index_props o) ++ p :: named_props o.
Proof.
  intros H. unfold own_property_order, named_props. simpl.
  unfold is_index in H. destruct (array_index (fst p)) eqn:E; [discriminate|].
  unfold is_index. now rewrite E.
Qed.

End Enumeration.

Lemma insert_by_index_map {A B : Type} (f : A -> B) n (p : string * A) l :
  insert_by_index n (fst p, f (snd p))
    (map (fun q => (fst q, (fst (snd q), f (snd (snd q))))) l)
  = map (fun q => (fst q, (fst (snd q), f (snd (snd q))))) (insert_by_index n p l).
Proof.
  induction l as [|[m q] l IH]; simpl; [reflexivity|].
  destruct (n <=? m)%N; simpl; [reflexivity|]. now rewrite IH.
Qed.

Lemma index_props_map {A B : Type} (f : A -> B) (o : list (string * A)) :
  index_props (map (fun p => (fst p, f (snd p))) o)
  = map (fun q => (fst q, (fst (snd q), f (snd (snd q))))) (index_props o).
Proof.
  induction o as [|p o IH]; simpl; [reflexivity|].
  destruct (array_index (fst p)); [|exact IH].
  now rewrite IH, insert_by_index_map.
Qed.

(** Enumeration order depends on the keys only. *)
Lemma own_property_order_map {A B : Type} (f : A -> B) (o : list (string * A)) :
  own_property_order (map (fun p => (fst p, f (snd p))) o)
  = map (fun p => (fst p, f (snd p))) (own_property_order o).
Proof.
  unfold own_property_order, named_props.
  rewrite index_props_map, map_app, !map_map. f_equal.
  induction o as [|p o IH]; simpl; [reflexivity|].
  destruct (is_index (fst p)); simpl; now rewrite IH.
Qed.

Lemma own_property_keys_map {A B : Type} (f : A -> B) (o : list (string * A)) :
  own_property_keys (map (fun p => (fst p, f (snd p))) o) = own_property_keys o.
Proof.
  unfold own_property_keys. rewrite own_property_order_map, map_map. reflexivity.
Qed.

(** ** Association lists *)

Section Props.

Context {A : Type}.
Implicit Types (o : list (string * A)).

Lemma lookup_Some_In key o v : lookup key o = Some v -> In (key, v) o.
Proof.
  induction o as [|[k w] o IH]; simpl; [discriminate|].
  destruct (String.eqb_spec k key) as [->|Hne].
  - intros [= ->]. now left.
  - intros H. right. now apply IH.
Qed.

Lemma lookup_None key o : ~ In key (map fst o) -> lookup key o = None.
Proof.
  induction o as [|[k w] o IH]; simpl; [reflexivity|].
  intros H. destruct (String.eqb_spec k key) as [->|Hne].
  - exfalso. apply H. now left.
  - apply IH. intros Hin. apply H. now right.
Qed.

Lemma lookup_In key o v : NoDup (map fst o) -> In (key, v) o -> lookup key o = Some v.
Proof.
  induction o as [|[k w] o IH]; simpl; [contradiction|].
  intros Hnd [Heq|Hin].
  - injection Heq as -> ->. now rewrite String.eqb_refl.
  - inversion Hnd as [|? ? Hk Hnd']; subst.
    destruct (String.eqb_spec k key) as [->|Hne].
    + exfalso. apply Hk. change key with (fst (key, v)). now apply in_map.
    + now apply IH.
Qed.

Lemma lookup_last key o v : ~ In key (map fst o) -> lookup key (o ++ [(key, v)]) = Some v.
Proof.
  induction o as [|[k w] o IH]; simpl; intros H.
  - now rewrite String.eqb_refl.
  - destruct (String.eqb_spec k key) as [->|Hne].
    + exfalso. apply H. now left.
    + apply IH. intros Hin. apply H. now right.
Qed.

Lemma set_prop_fresh key o v : ~ In key (map fst o) -> set_prop o key v = o ++ [(key, v)].
Proof.
  induction o as [|[k w] o IH]; simpl; intros H; [reflexivity|].
  destruct (String.eqb_spec k key) as [->|Hne].
  - exfalso. apply H. now left.
  - f_equal. apply IH. intros Hin. apply H. now right.
Qed.

Lemma set_prop_last key o v w :
  ~ In key (map fst o) -> set_prop (o ++ [(key, v)]) key w = o ++ [(key, w)].
Proof.
  induction o as [|[k u] o IH]; simpl; intros H.
  - now rewrite String.eqb_refl.
  - destruct (String.eqb_spec k key) as [->|Hne].
    + exfalso. apply H. now left.
    + f_equal. apply IH. intros Hin. apply H. now right.
Qed.

End Props.

Lemma for_each_app {K S : Type} (body : S -> K -> result S) (ks1 ks2 : list K) (s : S) :
  for_each body (ks1 ++ ks2) s = (s' <- for_each body ks1 s ;; for_each body ks2 s').
Proof.
  revert s. induction ks1 as [|k ks1 IH]; intros s; simpl; [reflexivity|].
  destruct (body s k) as [s'|e]; simpl; [apply IH | reflexivity].
Qed.

(** ** The first loop of the formatter *)

Lemma is_plain_object_group val :
  is_undefined val = false -> Bot.is_plain_object val = Ok (is_group val).
Proof.
  destruct val; simpl; try reflexivity; try discriminate.
  intros _. unfold Bot.is_plain_object. simpl.
  now destruct (lookup "constructor" props).
Qed.

Lemma is_null_or_array_display val :
  is_undefined val = false -> is_group val = false ->
  (serial <- Bot.is_null_or_array val ;; Ok (if serial then stringify val else val))
  = Ok (display val).
Proof.
  destruct val; simpl; try reflexivity; try discriminate.
  intros _ _. unfold Bot.is_null_or_array. simpl.
  now destruct (lookup "constructor" props).
Qed.

(** A key that does not hold a nested record adds one entry to the
    main group. *)
Lemma classify_main data message key :
  is_undefined (prop_get data key) = false ->
  is_group (prop_get data key) = false ->
  Bot.classify data message key = Bot.push message "main" (main_entry data key).
Proof.
  intros Hu Hg. unfold Bot.classify.
  rewrite (is_plain_object_group _ Hu), Hg. simpl.
  assert (H := is_null_or_array_display _ Hu Hg).
  destruct (Bot.is_null_or_array (prop_get data key)) as [b|e]; simpl in *; [|discriminate].
  injection H as H. unfold main_entry. now rewrite H.
Qed.

Lemma classify_group data message key :
  is_group (prop_get data key) = true ->
  Bot.classify data message key
  = for_each (fun msg subKey => Bot.push msg key (sub_entry (props_of (prop_get data key)) subKey))
             (own_property_keys (props_of (prop_get data key)))
             (Bot.assign_empty message key).
Proof.
  intros Hg. unfold Bot.classify.
  rewrite is_plain_object_group, Hg; [reflexivity|].
  now destruct (prop_get data key).
Qed.

Lemma push_main mf gs pr entry :
  Bot.push {| own := ("main", mf) :: gs; proto := pr |} "main" entry
  = Ok {| own := ("main", mf ++ [entry]) :: gs; proto := pr |}.
Proof. reflexivity. Qed.

Lemma push_all_last key (f : string -> FieldEntry) subKeys mf gs es :
  key <> "main" -> key <> "__proto__" -> ~ In key (map fst gs) ->
  for_each (fun msg subKey => Bot.push msg key (f subKey)) subKeys
           {| own := ("main", mf) :: gs ++ [(key, es)]; proto := None |}
  = Ok {| own := ("main", mf) :: gs ++ [(key, es ++ map f subKeys)]; proto := None |}.
Proof.
  intros Hm Hp Hk. revert es.
  induction subKeys as [|sk sks IH]; intros es; simpl.
  - now rewrite app_nil_r.
  - unfold Bot.push at 1. simpl.
    apply String.eqb_neq in Hp. rewrite Hp.
    assert (Hm' : ("main" =? key)%string = false) by (apply String.eqb_neq; congruence).
    rewrite Hm'. rewrite (lookup_last key gs es Hk). simpl.
    rewrite (set_prop_last key gs es _ Hk). rewrite IH.
    now rewrite <- app_assoc.
Qed.

Lemma first_loop_from data keys mf gs :
  NoDup keys ->
  (forall k, In k keys -> is_undefined (prop_get data k) = false) ->
  (forall k, In k keys -> is_group (prop_get data k) = true ->
             k <> "main" /\ k <> "__proto__" /\ ~ In k (map fst gs)) ->
  for_each (Bot.classify data) keys {| own := ("main", mf) :: gs; proto := None |}
  = Ok {| own := ("main", mf ++ main_fields data keys) :: gs ++ groups data keys;
          proto := None |}.
Proof.
  revert mf gs. induction keys as [|k keys IH]; intros mf gs Hnd Hu Hg.
  - simpl. now rewrite !app_nil_r.
  - inversion Hnd as [|? ? Hk Hnd']; subst.
    assert (Huk := Hu k (or_introl eq_refl)).
    cbn [for_each]. unfold main_fields, groups. cbn [filter].
    destruct (is_group (prop_get data k)) eqn:Eg.
    + destruct (Hg k (or_introl eq_refl) Eg) as (Hm & Hp & Hfresh).
      rewrite (classify_group _ _ _ Eg).
      unfold Bot.assign_empty. apply String.eqb_neq in Hp. rewrite Hp.
      apply String.eqb_neq in Hp. cbn [own proto set_prop].
      assert (Hm' : ("main" =? k)%string = false) by (apply String.eqb_neq; congruence).
      rewrite Hm'. rewrite (set_prop_fresh k gs [] Hfresh).
      rewrite (push_all_last k _ _ mf gs [] Hm Hp Hfresh). cbn [bind app].
      rewrite IH; try assumption.
      * cbn [negb map]. now rewrite <- app_assoc.
      * intros k' Hin. apply Hu. now right.
      * intros k' Hin Hg'. destruct (Hg k' (or_intror Hin) Hg') as (? & ? & Hfr').
        repeat split; try assumption.
        rewrite map_app, in_app_iff. simpl. intros [?|[->|[]]]; [now apply Hfr'|].
        now apply Hk.
    + rewrite (classify_main _ _ _ Huk Eg), push_main. cbn [bind].
      rewrite IH; try assumption.
      * cbn [negb map]. now rewrite <- app_assoc.
      * intros k' Hin. apply Hu. now right.
      * intros k' Hin Hg'. apply Hg; [now right | assumption].
Qed.

Lemma regular_key data k :
  regular data -> In k (own_property_keys data) -> In (k, prop_get data k) data.
Proof.
  intros [Hnd _ _] Hin.
  apply (Permutation_in _ (own_property_keys_perm data)) in Hin.
  apply in_map_iff in Hin. destruct Hin as ([k' v] & <- & Hin). simpl.
  unfold prop_get. now rewrite (lookup_In k' data v Hnd Hin).
Qed.

Lemma regular_NoDup data : regular data -> NoDup (own_property_keys data).
Proof.
  intros [Hnd _ _].
  eapply Permutation_NoDup; [apply Permutation_sym, own_property_keys_perm | exact Hnd].
Qed.

(** On a regular record the first loop leaves the main group first,
    followed by one group per nested record. *)
Lemma first_loop data :
  regular data ->
  for_each (Bot.classify data) (own_property_keys data)
           {| own := [("main", [])]; proto := None |}
  = Ok {| own := ("main", main_fields data (own_property_keys data))
                 :: groups data (own_property_keys data);
          proto := None |}.
Proof.
  intros Hreg.
  rewrite (first_loop_from data (own_property_keys data) [] []).
  - reflexivity.
  - now apply regular_NoDup.
  - intros k Hin. destruct Hreg as [? Hd ?].
    eapply Hd. apply regular_key; [now constructor | exact Hin].
  - intros k Hin Hg. pose proof (regular_key _ _ Hreg Hin) as Hk.
    destruct Hreg as [? ? Hn]. destruct (Hn _ _ Hk Hg). repeat split; auto.
Qed.

(** ** The second loop and the payload *)

Lemma groups_keys data keys :
  map fst (groups data keys) = filter (fun k => is_group (prop_get data k)) keys.
Proof. unfold groups. rewrite map_map. simpl. apply map_id. Qed.

Lemma groups_In data keys g :
  In g (groups data keys) ->
  In (fst g) keys /\ is_group (prop_get data (fst g)) = true
  /\ snd g = group_fields (prop_get data (fst g)).
Proof.
  unfold groups. rewrite in_map_iff. intros (k & <- & Hin).
  apply filter_In in Hin. simpl. tauto.
Qed.

Lemma regular_group_name data g :
  regular data -> In g (groups data (own_property_keys data)) -> fst g <> "main".
Proof.
  intros Hreg Hin. apply groups_In in Hin. destruct Hin as (Hk & Hg & _).
  pose proof (regular_key _ _ Hreg Hk) as Hd.
  destruct Hreg as [_ _ Hn]. now destruct (Hn _ _ Hd Hg).
Qed.

Lemma emit_named type token (gs : list (string * list FieldEntry)) :
  (forall g, In g gs -> fst g <> "main") ->
  map (fun p : string * Fields =>
         {| color := Some Bot.success_color;
            pretext := if String.eqb (fst p) "main" then Bot.main_label type token else fst p;
            fields := Some (snd p) |})
      (map (fun p => (fst p, FieldsArray (snd p))) gs)
  = map named_group gs.
Proof.
  intros H. rewrite map_map. apply map_ext_in. intros g Hin. simpl.
  apply H in Hin. apply String.eqb_neq in Hin. now rewrite Hin.
Qed.

(** The payload of a regular record. *)
Lemma formatter_regular data type token :
  regular data ->
  Bot.responseFormatter data type token
  = Ok {| attachments :=
            map named_group (index_groups data)
            ++ main_group type token (main_fields data (own_property_keys data))
            :: map named_group (named_groups data) |}.
Proof.
  intros Hreg. unfold Bot.responseFormatter.
  rewrite (first_loop data Hreg). cbn [bind]. unfold Bot.enumerate. cbn [own proto].
  rewrite app_nil_r, own_property_order_cons_named by reflexivity.
  rewrite !map_app. cbn [map fst snd]. rewrite String.eqb_refl.
  do 2 f_equal. f_equal.
  - apply emit_named. intros g Hin. apply (regular_group_name data g Hreg).
    apply (Permutation_in _ (index_props_perm _)) in Hin.
    now apply filter_In in Hin.
  - f_equal. apply emit_named. intros g Hin. apply (regular_group_name data g Hreg).
    unfold named_props in Hin. now apply filter_In in Hin.
Qed.

(** ** Every key exactly once *)

Lemma occurrences_In k l : NoDup l -> In k l -> occurrences k l = 1.
Proof. intros Hnd Hin. now apply (proj1 (NoDup_count_occ' string_dec l) Hnd). Qed.

Lemma occurrences_not_In k l : ~ In k l -> occurrences k l = 0.
Proof. intros H. now apply count_occ_not_In. Qed.

Lemma occurrences_perm k l l' : Permutation l l' -> occurrences k l = occurrences k l'.
Proof. intros H. now apply Permutation_count_occ. Qed.

Lemma titles_main_fields data keys :
  titles (main_fields data keys)
  = filter (fun k => negb (is_group (prop_get data k))) keys.
Proof. unfold titles, main_fields. rewrite map_map. simpl. apply map_id. Qed.

Lemma labels_named (gs gs' : list (string * list FieldEntry)) :
  labels (map named_group gs ++ map named_group gs') = map fst (gs ++ gs').
Proof. unfold labels. now rewrite <- map_app, map_map. Qed.

Lemma labels_regular data :
  Permutation (map fst (index_groups data ++ named_groups data))
              (filter (fun k => is_group (prop_get data k)) (own_property_keys data)).
Proof.
  rewrite <- groups_keys. apply Permutation_map.
  apply (own_property_order_perm (groups data (own_property_keys data))).
Qed.

(** C1, as the code has it: on a regular record every key shows exactly
    once, a nested record (a value whose constructor is [Object]) as the
    label of one group besides the main one, any other value as one
    title of the main group. *)
Theorem every_key_once_regular data type token :
  regular data ->
  exists p, Bot.responseFormatter data type token = Ok p
            /\ every_key_once is_group data type token p.
Proof.
  intros Hreg. eexists. split; [apply (formatter_regular _ _ _ Hreg)|].
  exists (map named_group (index_groups data)),
         (main_fields data (own_property_keys data)),
         (map named_group (named_groups data)).
  split; [reflexivity|]. intros k v Hin.
  assert (Hk : In k (own_property_keys data)).
  { apply (Permutation_in _ (Permutation_sym (own_property_keys_perm data))).
    change k with (fst (k, v)). now apply in_map. }
  assert (Hv : prop_get data k = v).
  { unfold prop_get. destruct Hreg as [Hnd _ _]. now rewrite (lookup_In k data v Hnd Hin). }
  pose proof (regular_NoDup _ Hreg) as Hnd.
  rewrite labels_named, (occurrences_perm _ _ _ (labels_regular data)), titles_main_fields.
  destruct (is_group v) eqn:Eg.
  - split.
    + apply occurrences_In; [now apply NoDup_filter|].
      apply filter_In. now rewrite Hv.
    + apply occurrences_not_In. rewrite filter_In, Hv, Eg. simpl. intros [_ ?]. discriminate.
  - split.
    + apply occurrences_In; [now apply NoDup_filter|].
      apply filter_In. now rewrite Hv, Eg.
    + apply occurrences_not_In. rewrite filter_In, Hv, Eg. intros [_ ?]. discriminate.
Qed.

Lemma every_key_once_regular_witness :
  exists p, Bot.responseFormatter
              [("token", VStr "T1"); ("details", VObj [("name", VStr "x")])] "gateway" "T1"
            = Ok p
            /\ every_key_once is_group
                 [("token", VStr "T1"); ("details", VObj [("name", VStr "x")])]
                 "gateway" "T1" p.
Proof.
  apply every_key_once_regular. constructor.
  - repeat constructor; simpl; intuition discriminate.
  - simpl. intros k v [H|[H|[]]]; injection H as <- <-; reflexivity.
  - simpl. intros k v [H|[H|[]]]; injection H as <- <-; intros Hg;
      [discriminate | split; discriminate].
Defined.

(** A nested record under the key [main] takes the place of the main
    group: the entry of the key [a], pushed before, is lost, and no
    group is labelled [main]. *)
Lemma every_key_once_fails_under_main :
  Bot.responseFormatter [("a", VNum 1); ("main", VObj [])] "t" "k"
  = Ok {| attachments := [main_group "t" "k" []] |}
  /\ ~ every_key_once is_record [("a", VNum 1); ("main", VObj [])] "t" "k"
         {| attachments := [main_group "t" "k" []] |}.
Proof.
  split; [reflexivity|].
  intros (before & fs & after & Heq & H). simpl in Heq.
  destruct before as [|g before].
  - unfold main_group in Heq. injection Heq as Hfs Hafter. subst after fs.
    destruct (H "a" (VNum 1) (or_introl eq_refl)) as [Hone _]. discriminate.
  - injection Heq as _ Heq. destruct before; discriminate.
Qed.

(** ** Totality *)

Lemma lookup_set_prop {A : Type} (o : list (string * A)) key key' v :
  lookup key (set_prop o key' v)
  = if String.eqb key' key then Some v else lookup key o.
Proof.
  induction o as [|[k w] o IH]; simpl.
  - destruct (String.eqb key' key); reflexivity.
  - destruct (String.eqb_spec k key') as [->|Hne]; simpl.
    + destruct (String.eqb key' key); reflexivity.
    + rewrite IH. destruct (String.eqb_spec k key) as [->|Hne'].
      * apply String.eqb_neq in Hne. rewrite String.eqb_sym in Hne. now rewrite Hne.
      * reflexivity.
Qed.

Lemma assign_empty_target m key :
  has_target key (Bot.assign_empty m key)
  /\ forall k, has_target k m -> has_target k (Bot.assign_empty m key).
Proof.
  unfold has_target, Bot.assign_empty.
  destruct (String.eqb_spec key "__proto__") as [->|Hne]; cbn [own proto].
  - split; [discriminate|]. intros k. destruct (String.eqb k "__proto__"); [discriminate|auto].
  - split.
    + rewrite lookup_set_prop, String.eqb_refl. discriminate.
    + intros k. destruct (String.eqb k "__proto__"); [auto|].
      rewrite lookup_set_prop. destruct (String.eqb key k); [discriminate|auto].
Qed.

Lemma push_target m key entry :
  has_target key m ->
  exists m', Bot.push m key entry = Ok m' /\ forall k, has_target k m -> has_target k m'.
Proof.
  unfold has_target, Bot.push.
  destruct (String.eqb_spec key "__proto__") as [->|Hne].
  - destruct (proto m) as [arr|]; [|congruence]. intros _. eexists. split; [reflexivity|].
    intros k. cbn [own proto]. destruct (String.eqb k "__proto__"); [discriminate|auto].
  - destruct (lookup key (own m)) as [arr|]; [|congruence]. intros _.
    eexists. split; [reflexivity|]. intros k. cbn [own proto].
    destruct (String.eqb k "__proto__"); [auto|].
    rewrite lookup_set_prop. destruct (String.eqb key k); [discriminate|auto].
Qed.

Lemma push_all_target key (f : string -> FieldEntry) subKeys m :
  has_target key m ->
  exists m', for_each (fun msg subKey => Bot.push msg key (f subKey)) subKeys m = Ok m'
             /\ forall k, has_target k m -> has_target k m'.
Proof.
  revert m. induction subKeys as [|sk sks IH]; intros m Ht; simpl.
  - eauto.
  - destruct (push_target m key (f sk) Ht) as (m1 & -> & H1). simpl.
    destruct (IH m1 (H1 _ Ht)) as (m2 & -> & H2). eauto.
Qed.

Lemma classify_defined data m key :
  is_undefined (prop_get data key) = false ->
  has_target "main" m ->
  exists m', Bot.classify data m key = Ok m' /\ has_target "main" m'.
Proof.
  intros Hu Hm. destruct (is_group (prop_get data key)) eqn:Eg.
  - rewrite (classify_group _ _ _ Eg).
    destruct (assign_empty_target m key) as [Hk Hall].
    destruct (push_all_target key (sub_entry (props_of (prop_get data key)))
                (own_property_keys (props_of (prop_get data key))) _ Hk) as (m' & -> & H').
    eauto.
  - rewrite (classify_main _ _ _ Hu Eg).
    destruct (push_target m "main" (main_entry data key) Hm) as (m' & -> & H'). eauto.
Qed.

Lemma first_loop_defined data keys m :
  (forall k, In k keys -> is_undefined (prop_get data k) = false) ->
  has_target "main" m ->
  exists m', for_each (Bot.classify data) keys m = Ok m' /\ has_target "main" m'.
Proof.
  revert m. induction keys as [|k keys IH]; intros m Hu Hm; simpl.
  - eauto.
  - destruct (classify_defined data m k (Hu k (or_introl eq_refl)) Hm) as (m1 & -> & H1).
    simpl. apply IH; [|exact H1]. intros k' Hin. apply Hu. now right.
Qed.

Lemma is_undefined_eq val : is_undefined val = true <-> val = VUndefined.
Proof. destruct val; simpl; split; intros H; try discriminate; reflexivity. Qed.

Lemma classify_undefined data m key :
  prop_get data key = VUndefined -> Bot.classify data m key = Throw TypeError.
Proof. intros H. unfold Bot.classify. now rewrite H. Qed.

Lemma first_loop_throws data key keys :
  In key keys -> prop_get data key = VUndefined ->
  forall m, for_each (Bot.classify data) keys m = Throw TypeError.
Proof.
  intros Hin Hu. induction keys as [|k keys IH]; [contradiction|]. intros m. simpl.
  destruct (Bot.classify data m k) as [m1|[]] eqn:E; simpl; [|reflexivity].
  destruct Hin as [->|Hin]; [|now apply IH].
  rewrite (classify_undefined data m key Hu) in E. discriminate.
Qed.

(** The pure formatter throws when a top-level key holds [undefined],
    and returns on every other record. *)
Lemma formatter_throws data type token key :
  In key (map fst data) -> prop_get data key = VUndefined ->
  Bot.responseFormatter data type token = Throw TypeError.
Proof.
  intros Hin Hu. unfold Bot.responseFormatter.
  rewrite (first_loop_throws data key); [reflexivity | | exact Hu].
  now apply (Permutation_in _ (Permutation_sym (own_property_keys_perm data))).
Qed.

Lemma formatter_returns data type token :
  (forall k, In k (map fst data) -> prop_get data k <> VUndefined) ->
  exists p, Bot.responseFormatter data type token = Ok p.
Proof.
  intros Hd. unfold Bot.responseFormatter.
  destruct (first_loop_defined data (own_property_keys data)
              {| own := [("main", [])]; proto := None |}) as (m & -> & _).
  - intros k Hin. destruct (is_undefined (prop_get data k)) eqn:Eu; [|reflexivity].
    apply is_undefined_eq in Eu. exfalso. apply (Hd k); [|exact Eu].
    now apply (Permutation_in _ (own_property_keys_perm data)).
  - unfold has_target. simpl. discriminate.
  - simpl. eauto.
Qed.

Lemma formatter_Throw_undefined data type token e :
  Bot.responseFormatter data type token = Throw e ->
  exists k, In k (map fst data) /\ prop_get data k = VUndefined.
Proof.
  intros Hthrow.
  destruct (existsb (fun k => is_undefined (prop_get data k)) (map fst data)) eqn:Ex.
  - apply existsb_exists in Ex. destruct Ex as (k & Hin & Hu).
    exists k. split; [exact Hin | now apply is_undefined_eq].
  - exfalso. destruct (formatter_returns data type token) as (p & E); [|congruence].
    intros k Hin Hu.
    assert (existsb (fun k => is_undefined (prop_get data k)) (map fst data) = true);
      [|congruence].
    apply existsb_exists. exists k. split; [exact Hin | now apply is_undefined_eq].
Qed.


(** ** The error payload *)

(** The help payload lists the three commands. *)
Lemma help_groups :
  labels (attachments Bot.help)
  = ["Transaction details: "; "Payment Gateway details: "; "Payment Method details: "].
Proof. reflexivity. Qed.

(** C3: [error] reads [this.help] without calling it; a function has no
    ['attachments'], and [unshift] on [undefined] throws. *)
Theorem error_throws : Bot.error = Throw TypeError.
Proof. reflexivity. Qed.

(** ** Order of the groups *)

Lemma insert_by_index_Forall {A : Type} (P : N * (string * A) -> Prop) n p l :
  P (n, p) -> Forall P l -> Forall P (insert_by_index n p l).
Proof.
  intros Hp HF. induction HF as [|[m q] l Hq HF IH]; simpl.
  - now repeat constructor.
  - destruct (n <=? m)%N; repeat constructor; assumption.
Qed.

Lemma insert_by_index_sorted {A : Type} n (p : string * A) l :
  StronglySorted (fun x y => (fst x <= fst y)%N) l ->
  StronglySorted (fun x y => (fst x <= fst y)%N) (insert_by_index n p l).
Proof.
  intros Hs. induction Hs as [|[m q] l Hs IH Hall]; simpl.
  - repeat constructor.
  - destruct (N.leb_spec n m) as [Hle|Hlt].
    + constructor; [now constructor|]. constructor; [exact Hle|].
      eapply Forall_impl; [|exact Hall]. simpl. intros x Hx. lia.
    + constructor; [exact IH|]. apply insert_by_index_Forall; [simpl; lia | exact Hall].
Qed.

Lemma index_props_sorted {A : Type} (o : list (string * A)) :
  StronglySorted (fun x y => (fst x <= fst y)%N) (index_props o)
  /\ Forall (fun x => array_index (fst (snd x)) = Some (fst x)) (index_props o).
Proof.
  induction o as [|p o [IHs IHf]]; simpl; [split; constructor|].
  destruct (array_index (fst p)) as [n|] eqn:E; [|split; assumption]. split.
  - now apply insert_by_index_sorted.
  - now apply insert_by_index_Forall.
Qed.

(** The keys that enumeration puts first are the array indices, in
    ascending order. *)
Lemma index_keys_ascending {A : Type} (o : list (string * A)) :
  StronglySorted index_le (map fst (map snd (index_props o))).
Proof.
  destruct (index_props_sorted o) as [Hs Hf].
  induction Hs as [|x l Hs IH Hall]; simpl; constructor.
  - apply IH. now inversion Hf.
  - inversion Hf as [|? ? Hx Hf']; subst. clear IH Hs Hf.
    induction Hall as [|y l Hy Hall IH]; simpl; constructor.
    + unfold index_le. inversion Hf' as [|? ? Hy' _]; subst. now rewrite Hx, Hy'.
    + apply IH. now inversion Hf'.
Qed.

Lemma regular_named data :
  (forall k v, In (k, v) data -> is_index k = false) ->
  own_property_keys data = map fst data
  /\ index_groups data = []
  /\ named_groups data = groups data (map fst data).
Proof.
  intros Hn.
  assert (Hk : own_property_keys data = map fst data).
  { unfold own_property_keys. rewrite own_property_order_named; [reflexivity|].
    intros [k v] Hin. simpl. eauto. }
  assert (Hg : forall g, In g (groups data (map fst data)) -> is_index (fst g) = false).
  { intros g Hin. apply groups_In in Hin. destruct Hin as (Hin & _).
    apply in_map_iff in Hin. destruct Hin as ([k v] & Heq & Hin). simpl in Heq.
    rewrite <- Heq. eauto. }
  unfold index_groups, named_groups. rewrite Hk.
  rewrite (index_props_named _ Hg), (named_props_named _ Hg). auto.
Qed.

(** C4, as the code has it: the groups come in the enumeration order of
    the accumulator, those under an array index first and in ascending
    order of the index, then the main group with its label, then the
    other nested records in the order the first loop met them; the
    entries of the main group follow the enumeration order of the
    record.  Without array indices among the keys this is the main
    group first and everything in input order. *)
Theorem payload_order data type token :
  regular data ->
  exists p,
    Bot.responseFormatter data type token = Ok p
    /\ attachments p
       = map named_group (index_groups data)
         ++ main_group type token (main_fields data (own_property_keys data))
         :: map named_group (named_groups data)
    /\ StronglySorted index_le (map fst (index_groups data))
    /\ Forall (fun g => is_index (fst g) = false) (named_groups data)
    /\ ((forall k v, In (k, v) data -> is_index k = false) ->
        attachments p
        = main_group type token (main_fields data (map fst data))
          :: map named_group (groups data (map fst data))).
Proof.
  intros Hreg. eexists. split; [apply (formatter_regular _ _ _ Hreg)|].
  cbn [attachments]. split; [reflexivity|].
  split; [apply index_keys_ascending|]. split.
  - apply Forall_forall. intros g Hin. unfold named_groups, named_props in Hin.
    apply filter_In in Hin. now apply negb_true_iff.
  - intros Hn. destruct (regular_named data Hn) as (-> & -> & ->). reflexivity.
Qed.

Lemma payload_order_witness :
  exists p,
    Bot.responseFormatter [("b", VNull); ("7", VObj [("x", VNum 1)])] "gateway" "T1" = Ok p
    /\ attachments p
       = map named_group (index_groups [("b", VNull); ("7", VObj [("x", VNum 1)])])
         ++ main_group "gateway" "T1"
              (main_fields [("b", VNull); ("7", VObj [("x", VNum 1)])]
                 (own_property_keys [("b", VNull); ("7", VObj [("x", VNum 1)])]))
         :: map named_group (named_groups [("b", VNull); ("7", VObj [("x", VNum 1)])])
    /\ StronglySorted index_le
         (map fst (index_groups [("b", VNull); ("7", VObj [("x", VNum 1)])]))
    /\ Forall (fun g => is_index (fst g) = false)
         (named_groups [("b", VNull); ("7", VObj [("x", VNum 1)])])
    /\ ((forall k v, In (k, v) [("b", VNull); ("7", VObj [("x", VNum 1)])] ->
                     is_index k = false) ->
        attachments p
        = main_group "gateway" "T1"
            (main_fields [("b", VNull); ("7", VObj [("x", VNum 1)])]
               (map fst [("b", VNull); ("7", VObj [("x", VNum 1)])]))
          :: map named_group
               (groups [("b", VNull); ("7", VObj [("x", VNum 1)])]
                  (map fst [("b", VNull); ("7", VObj [("x", VNum 1)])]))).
Proof.
  apply payload_order. constructor.
  - repeat constructor; simpl; intuition discriminate.
  - simpl. intros k v [H|[H|[]]]; injection H as <- <-; reflexivity.
  - simpl. intros k v [H|[H|[]]]; injection H as <- <-; intros Hg;
      [discriminate | split; discriminate].
Defined.

(** A nested record under the key [0] is enumerated before [main], and
    an array index among the keys of the record moves ahead of the
    keys created before it. *)
Lemma main_group_not_first :
  (exists p, Bot.responseFormatter [("0", VObj [])] "t" "k" = Ok p
             /\ labels (attachments p) = ["0"; Bot.main_label "t" "k"])
  /\ Bot.responseFormatter [("b", VNum 1); ("0", VNum 2)] "t" "k"
     = Ok {| attachments :=
               [main_group "t" "k"
                  [ {| title := "0"; value := VNum 2; short := true |};
                    {| title := "b"; value := VNum 1; short := true |} ]] |}.
Proof. split; [eexists; split; reflexivity | reflexivity]. Qed.

(** ** Entries of the main group *)

Lemma is_flat_main val : is_flat val = true -> is_undefined val = false /\ is_group val = false.
Proof. destruct val; simpl; intros; try discriminate; auto. Qed.

Lemma first_loop_target data keys m m' :
  has_target "main" m -> for_each (Bot.classify data) keys m = Ok m' -> has_target "main" m'.
Proof.
  revert m. induction keys as [|k keys IH]; intros m Hm; simpl.
  - now intros [= <-].
  - destruct (Bot.classify data m k) as [m1|e] eqn:E; simpl; [|discriminate].
    apply IH. clear IH. unfold Bot.classify in E.
    destruct (Bot.is_plain_object (prop_get data k)) as [[|]|]; simpl in E; try discriminate.
    + destruct (assign_empty_target m k) as [Hk Hall].
      destruct (push_all_target k (sub_entry (props_of (prop_get data k)))
                  (own_property_keys (props_of (prop_get data k))) _ Hk) as (m2 & E2 & H2).
      unfold sub_entry in E2. rewrite E2 in E. injection E as <-. auto.
    + destruct (Bot.is_null_or_array (prop_get data k)) as [b|]; simpl in E; [|discriminate].
      destruct (push_target m "main"
                  {| title := k;
                     value := if b then stringify (prop_get data k) else prop_get data k;
                     short := true |} Hm) as (m2 & E2 & H2).
      rewrite E2 in E. injection E as <-. auto.
Qed.

(** What the loop body does to the other arrays of [message]. *)

Lemma assign_empty_other m key k :
  key <> k -> lookup k (own (Bot.assign_empty m key)) = lookup k (own m).
Proof.
  intros Hne. unfold Bot.assign_empty.
  destruct (String.eqb key "__proto__"); cbn [own]; [reflexivity|].
  rewrite lookup_set_prop. now rewrite (proj2 (String.eqb_neq key k) Hne).
Qed.

Lemma assign_empty_same m key :
  key <> "__proto__" -> lookup key (own (Bot.assign_empty m key)) = Some [].
Proof.
  intros Hne. unfold Bot.assign_empty. rewrite (proj2 (String.eqb_neq _ _) Hne).
  cbn [own]. now rewrite lookup_set_prop, String.eqb_refl.
Qed.

Lemma push_other m key e m' k :
  key <> k -> Bot.push m key e = Ok m' -> lookup k (own m') = lookup k (own m).
Proof.
  intros Hne. unfold Bot.push. destruct (String.eqb key "__proto__").
  - destruct (proto m); [|discriminate]. now intros [= <-].
  - destruct (lookup key (own m)); [|discriminate]. intros [= <-]. cbn [own].
    rewrite lookup_set_prop. now rewrite (proj2 (String.eqb_neq key k) Hne).
Qed.

Lemma push_same m key e m' es :
  key <> "__proto__" -> lookup key (own m) = Some es -> Bot.push m key e = Ok m' ->
  lookup key (own m') = Some (es ++ [e]).
Proof.
  intros Hne He. unfold Bot.push. rewrite (proj2 (String.eqb_neq _ _) Hne), He.
  intros [= <-]. cbn [own]. now rewrite lookup_set_prop, String.eqb_refl.
Qed.

Lemma push_all_other key (f : string -> FieldEntry) subKeys k :
  key <> k ->
  forall m m', for_each (fun msg subKey => Bot.push msg key (f subKey)) subKeys m = Ok m' ->
               lookup k (own m') = lookup k (own m).
Proof.
  intros Hne. induction subKeys as [|sk sks IH]; intros m m'; simpl.
  - now intros [= <-].
  - destruct (Bot.push m key (f sk)) as [m1|] eqn:E; simpl; [|discriminate].
    intros H. rewrite (IH _ _ H). now apply (push_other m key (f sk)).
Qed.

Lemma push_all_same key (f : string -> FieldEntry) subKeys :
  key <> "__proto__" ->
  forall m m' es,
    lookup key (own m) = Some es ->
    for_each (fun msg subKey => Bot.push msg key (f subKey)) subKeys m = Ok m' ->
    lookup key (own m') = Some (es ++ map f subKeys).
Proof.
  intros Hne. induction subKeys as [|sk sks IH]; intros m m' es He; simpl.
  - intros [= <-]. now rewrite app_nil_r.
  - destruct (Bot.push m key (f sk)) as [m1|] eqn:E; simpl; [|discriminate].
    intros H. rewrite (IH _ _ _ (push_same m key (f sk) m1 es Hne He E) H).
    now rewrite <- app_assoc.
Qed.

Lemma classify_Ok_defined data m key m' :
  Bot.classify data m key = Ok m' -> is_undefined (prop_get data key) = false.
Proof.
  intros H. destruct (is_undefined (prop_get data key)) eqn:Eu; [|reflexivity].
  apply is_undefined_eq in Eu. rewrite (classify_undefined _ _ _ Eu) in H. discriminate.
Qed.

(** A nested record leaves its entries under its key. *)
Lemma classify_group_fields data m key m' :
  is_group (prop_get data key) = true -> key <> "__proto__" ->
  Bot.classify data m key = Ok m' ->
  lookup key (own m') = Some (group_fields (prop_get data key)).
Proof.
  intros Hg Hne. rewrite (classify_group _ _ _ Hg). intros H.
  apply (push_all_same key _ _ Hne _ _ [] (assign_empty_same m key Hne)) in H.
  exact H.
Qed.

(** The body touches the array of its own key, or the one of [main]. *)
Lemma classify_other data m key m' k :
  Bot.classify data m key = Ok m' -> key <> k ->
  (is_group (prop_get data key) = false -> k <> "main") ->
  lookup k (own m') = lookup k (own m).
Proof.
  intros H Hne Hmain. destruct (is_group (prop_get data key)) eqn:Eg.
  - rewrite (classify_group _ _ _ Eg) in H. rewrite (push_all_other key _ _ k Hne _ _ H).
    now apply assign_empty_other.
  - pose proof (classify_Ok_defined _ _ _ _ H) as Hu.
    rewrite (classify_main _ _ _ Hu Eg) in H.
    apply (push_other m "main" (main_entry data key) m' k); [|exact H].
    intros Heq. exact (Hmain eq_refl (eq_sym Heq)).
Qed.

Lemma classify_main_entry data m key m' fs :
  is_group (prop_get data key) = false ->
  Bot.classify data m key = Ok m' ->
  lookup "main" (own m) = Some fs ->
  lookup "main" (own m') = Some (fs ++ [main_entry data key]).
Proof.
  intros Eg H Hfs. pose proof (classify_Ok_defined _ _ _ _ H) as Hu.
  rewrite (classify_main _ _ _ Hu Eg) in H.
  apply (push_same m "main" (main_entry data key) m' fs);
    [discriminate | exact Hfs | exact H].
Qed.

(** An entry of the main group stays there as long as no nested record
    under the key [main] is met. *)
Lemma first_loop_keeps_entry data e keys :
  (In "main" keys -> is_group (prop_get data "main") = false) ->
  forall m m',
    for_each (Bot.classify data) keys m = Ok m' ->
    (exists fs, lookup "main" (own m) = Some fs /\ In e fs) ->
    exists fs, lookup "main" (own m') = Some fs /\ In e fs.
Proof.
  induction keys as [|k keys IH]; intros Hmain m m'; simpl.
  - intros [= <-]. auto.
  - destruct (Bot.classify data m k) as [m1|] eqn:E; simpl; [|discriminate].
    intros H (fs & Hfs & Hin).
    apply (IH (fun Hk => Hmain (or_intror Hk)) m1 m' H).
    destruct (is_group (prop_get data k)) eqn:Eg.
    + exists fs. split; [|exact Hin].
      rewrite (classify_other data m k m1 "main" E); [exact Hfs | | congruence].
      intros ->. rewrite (Hmain (or_introl eq_refl)) in Eg. discriminate.
    + exists (fs ++ [main_entry data k]).
      split; [now apply (classify_main_entry data m k m1 fs) | apply in_or_app; now left].
Qed.

(** The array of a nested record, once filled, stays as it is. *)
Lemma first_loop_keeps_group data k keys :
  is_group (prop_get data k) = true -> k <> "main" -> k <> "__proto__" ->
  forall m m',
    for_each (Bot.classify data) keys m = Ok m' ->
    lookup k (own m) = Some (group_fields (prop_get data k)) ->
    lookup k (own m') = Some (group_fields (prop_get data k)).
Proof.
  intros Hg Hm Hp. induction keys as [|k' keys IH]; intros m m'; simpl.
  - now intros [= <-].
  - destruct (Bot.classify data m k') as [m1|] eqn:E; simpl; [|discriminate].
    intros H Hl. apply (IH m1 m' H).
    destruct (String.eqb_spec k' k) as [->|Hne].
    + now apply (classify_group_fields data m k m1).
    + rewrite (classify_other data m k' m1 k E Hne); [exact Hl | intros _; exact Hm].
Qed.

(** An array of [message] becomes the ['fields'] of a group. *)
Lemma payload_group message type token k fs :
  lookup k (own message) = Some fs ->
  In {| color := Some Bot.success_color;
        pretext := if String.eqb k "main" then Bot.main_label type token else k;
        fields := Some (FieldsArray fs) |}
     (map (fun p : string * Fields =>
             {| color := Some Bot.success_color;
                pretext := if String.eqb (fst p) "main"
                           then Bot.main_label type token
                           else fst p;
                fields := Some (snd p) |})
          (Bot.enumerate message)).
Proof.
  intros H. apply in_map_iff. exists (k, FieldsArray fs). split; [reflexivity|].
  unfold Bot.enumerate. apply in_or_app. left.
  apply in_map_iff. exists (k, fs). split; [reflexivity|].
  apply (Permutation_in _ (Permutation_sym (own_property_order_perm (own message)))).
  now apply lookup_Some_In.
Qed.

(** The entry of a key that holds no nested record is in the main
    group of the payload, unless a nested record under the key [main]
    follows it in the enumeration. *)
Lemma main_entry_kept data type token p before key after :
  Bot.responseFormatter data type token = Ok p ->
  own_property_keys data = before ++ key :: after ->
  is_group (prop_get data key) = false ->
  (In "main" after -> is_group (prop_get data "main") = false) ->
  exists fs, In (main_group type token fs) (attachments p) /\ In (main_entry data key) fs.
Proof.
  unfold Bot.responseFormatter. intros H Hkeys Hg Hmain.
  rewrite Hkeys, for_each_app in H.
  destruct (for_each (Bot.classify data) before {| own := [("main", [])]; proto := None |})
    as [m1|] eqn:E1; [|discriminate].
  cbn [bind for_each] in H.
  destruct (Bot.classify data m1 key) as [m2|] eqn:E2; cbn [bind] in H; [|discriminate].
  destruct (for_each (Bot.classify data) after m2) as [m3|] eqn:E3; cbn [bind] in H;
    [|discriminate].
  injection H as <-. cbn [attachments].
  assert (Hm1 : has_target "main" m1).
  { eapply first_loop_target; [|exact E1]. unfold has_target. simpl. discriminate. }
  unfold has_target in Hm1. rewrite (proj2 (String.eqb_neq _ _)) in Hm1 by discriminate.
  destruct (lookup "main" (own m1)) as [fs1|] eqn:El; [|congruence].
  destruct (first_loop_keeps_entry data (main_entry data key) after Hmain m2 m3 E3)
    as (fs & Hfs & Hin).
  { exists (fs1 ++ [main_entry data key]).
    split; [now apply (classify_main_entry data m1 key m2 fs1) | apply in_or_app; right; now left]. }
  exists fs. split; [|exact Hin].
  exact (payload_group m3 type token "main" fs Hfs).
Qed.

(** C5, as the code has it: whenever the formatter returns, the main
    group of the payload holds, for a key with [null], an array or a
    scalar, the entry of that key: the JSON text of [null] or of the
    array, or the scalar itself, with [short] set.  Only a nested
    record under the key [main] that the enumeration meets later
    empties the group again. *)
Theorem main_entry_appended data type token p before key after :
  Bot.responseFormatter data type token = Ok p ->
  own_property_keys data = before ++ key :: after ->
  is_flat (prop_get data key) = true ->
  (In "main" after -> is_group (prop_get data "main") = false) ->
  exists fs,
    In (main_group type token fs) (attachments p)
    /\ In {| title := key;
             value := match prop_get data key with
                      | VNull => VStr "null"
                      | VArr elems => VStr (JSON_stringify (JArr elems))
                      | scalar => scalar
                      end;
             short := true |} fs.
Proof.
  intros H Hkeys Hflat Hmain.
  destruct (is_flat_main _ Hflat) as [_ Hg].
  destruct (main_entry_kept data type token p before key after H Hkeys Hg Hmain)
    as (fs & HG & Hin).
  exists fs. split; [exact HG|].
  unfold main_entry, display in Hin. now destruct (prop_get data key).
Qed.

Lemma main_entry_appended_witness :
  exists fs,
    In (main_group "gateway" "T2" fs)
       (attachments
          {| attachments :=
               [ main_group "gateway" "T2"
                   [ {| title := "m"; value := VNum 0; short := true |};
                     {| title := "tags"; value := VStr "null"; short := true |};
                     {| title := "list"; value := VStr "[1,2,3]"; short := true |} ] ] |})
    /\ In {| title := "tags";
             value := match prop_get
                              [("main", VObj [("m", VNum 0)]); ("tags", VNull);
                               ("list", VArr [JNum 1; JNum 2; JNum 3])] "tags" with
                      | VNull => VStr "null"
                      | VArr elems => VStr (JSON_stringify (JArr elems))
                      | scalar => scalar
                      end;
             short := true |} fs.
Proof.
  apply (main_entry_appended
           [("main", VObj [("m", VNum 0)]); ("tags", VNull);
            ("list", VArr [JNum 1; JNum 2; JNum 3])]
           "gateway" "T2"
           {| attachments :=
                [ main_group "gateway" "T2"
                    [ {| title := "m"; value := VNum 0; short := true |};
                      {| title := "tags"; value := VStr "null"; short := true |};
                      {| title := "list"; value := VStr "[1,2,3]"; short := true |} ] ] |}
           ["main"] "tags" ["list"]).
  - reflexivity.
  - reflexivity.
  - reflexivity.
  - intros [H|[]]. discriminate.
Defined.

(** A nested record under the key [main] that comes after them empties
    the main group: the entries of [tags] and [list] are not in the
    payload. *)
Lemma main_entry_dropped :
  Bot.responseFormatter
    [("tags", VNull); ("list", VArr [JNum 1; JNum 2; JNum 3]); ("main", VObj [])]
    "gateway" "T2"
  = Ok {| attachments := [main_group "gateway" "T2" []] |}
  /\ forall fs e,
       In (main_group "gateway" "T2" fs)
          (attachments {| attachments := [main_group "gateway" "T2" []] |}) ->
       ~ In e fs.
Proof.
  split; [reflexivity|]. intros fs e [H|[]] Hin.
  unfold main_group in H. injection H as <-. exact Hin.
Qed.



(** The two examples of the specification. *)
Example format_null :
  Bot.responseFormatter [("tags", VNull)] "gateway" "T2"
  = Ok {| attachments :=
            [main_group "gateway" "T2"
               [ {| title := "tags"; value := VStr "null"; short := true |} ]] |}.
Proof. reflexivity. Qed.

Example format_array :
  Bot.responseFormatter [("list", VArr [JNum 1; JNum 2; JNum 3])] "gateway" "T3"
  = Ok {| attachments :=
            [main_group "gateway" "T3"
               [ {| title := "list"; value := VStr "[1,2,3]"; short := true |} ]] |}.
Proof. reflexivity. Qed.

(** ** Groups of nested records *)

(** A nested record under a key other than [main] and [__proto__] has
    its group in the payload, whatever else the record holds. *)
Lemma group_emitted data type token p k :
  Bot.responseFormatter data type token = Ok p ->
  is_group (prop_get data k) = true -> k <> "main" -> k <> "__proto__" ->
  In (named_group (k, group_fields (prop_get data k))) (attachments p).
Proof.
  intros H Hg Hm Hp.
  assert (Hin : In k (own_property_keys data)).
  { apply (Permutation_in _ (Permutation_sym (own_property_keys_perm data))).
    unfold prop_get in Hg. destruct (lookup k data) as [v|] eqn:E; [|discriminate].
    apply lookup_Some_In in E. change k with (fst (k, v)). now apply in_map. }
  destruct (in_split _ _ Hin) as (before & after & Hkeys).
  unfold Bot.responseFormatter in H. rewrite Hkeys, for_each_app in H.
  destruct (for_each (Bot.classify data) before {| own := [("main", [])]; proto := None |})
    as [m1|] eqn:E1; [|discriminate].
  cbn [bind for_each] in H.
  destruct (Bot.classify data m1 k) as [m2|] eqn:E2; cbn [bind] in H; [|discriminate].
  destruct (for_each (Bot.classify data) after m2) as [m3|] eqn:E3; cbn [bind] in H;
    [|discriminate].
  injection H as <-. cbn [attachments].
  pose proof (classify_group_fields data m1 k m2 Hg Hp E2) as Hl2.
  pose proof (first_loop_keeps_group data k after Hg Hm Hp m2 m3 E3 Hl2) as Hl3.
  pose proof (payload_group m3 type token k _ Hl3) as HG.
  rewrite (proj2 (String.eqb_neq _ _) Hm) in HG. exact HG.
Qed.

(** C6, as the code has it: whenever the formatter returns, a key
    other than [main] and [__proto__] that holds an object whose
    constructor is [Object] has the group labelled with the key; its
    entries are the properties of the nested record in enumeration
    order, each value handed on as it is.  The example of the
    specification yields exactly its two groups. *)
Theorem nested_record_group data type token p k props :
  Bot.responseFormatter data type token = Ok p ->
  prop_get data k = VObj props ->
  lookup "constructor" props = None ->
  k <> "main" -> k <> "__proto__" ->
  In {| color := Some "#36a64f";
        pretext := k;
        fields := Some (FieldsArray
          (map (fun subKey => {| title := subKey;
                                 value := prop_get props subKey;
                                 short := true |})
               (own_property_keys props))) |}
     (attachments p)
  /\ ((forall q, In q props -> is_index (fst q) = false) ->
      own_property_keys props = map fst props)
  /\ Bot.responseFormatter
       [("token", VStr "T1"); ("details", VObj [("name", VStr "x"); ("active", VBool true)])]
       "payment-method" "T1"
     = Ok {| attachments :=
               [ {| color := Some "#36a64f";
                    pretext := "Spreedly response for payment-method with token T1";
                    fields := Some (FieldsArray
                      [ {| title := "token"; value := VStr "T1"; short := true |} ]) |};
                 {| color := Some "#36a64f";
                    pretext := "details";
                    fields := Some (FieldsArray
                      [ {| title := "name"; value := VStr "x"; short := true |};
                        {| title := "active"; value := VBool true; short := true |} ]) |} ] |}.
Proof.
  intros H Hv Hc Hm Hp. split; [|split; [|reflexivity]].
  - assert (Hg : is_group (prop_get data k) = true).
    { rewrite Hv. simpl. now rewrite Hc. }
    pose proof (group_emitted data type token p k H Hg Hm Hp) as HG.
    rewrite Hv in HG. exact HG.
  - intros Hn. unfold own_property_keys. now rewrite own_property_order_named.
Qed.

Lemma nested_record_group_witness :
  In {| color := Some "#36a64f";
        pretext := "d";
        fields := Some (FieldsArray
          (map (fun subKey => {| title := subKey;
                                 value := prop_get [("x", VObj [("y", VNum 1)])] subKey;
                                 short := true |})
               (own_property_keys [("x", VObj [("y", VNum 1)])]))) |}
     (attachments
        {| attachments :=
             [ main_group "gateway" "T1"
                 [ {| title := "m"; value := VNum 0; short := true |} ];
               named_group ("d", [ {| title := "x"; value := VObj [("y", VNum 1)];
                                      short := true |} ]);
               named_group ("e", []) ] |})
  /\ ((forall q, In q [("x", VObj [("y", VNum 1)])] -> is_index (fst q) = false) ->
      own_property_keys [("x", VObj [("y", VNum 1)])]
      = map fst [("x", VObj [("y", VNum 1)])])
  /\ Bot.responseFormatter
       [("token", VStr "T1"); ("details", VObj [("name", VStr "x"); ("active", VBool true)])]
       "payment-method" "T1"
     = Ok {| attachments :=
               [ {| color := Some "#36a64f";
                    pretext := "Spreedly response for payment-method with token T1";
                    fields := Some (FieldsArray
                      [ {| title := "token"; value := VStr "T1"; short := true |} ]) |};
                 {| color := Some "#36a64f";
                    pretext := "details";
                    fields := Some (FieldsArray
                      [ {| title := "name"; value := VStr "x"; short := true |};
                        {| title := "active"; value := VBool true; short := true |} ]) |} ] |}.
Proof.
  apply (nested_record_group
           [("d", VObj [("x", VObj [("y", VNum 1)])]); ("e", VObj []);
            ("main", VObj [("m", VNum 0)])]
           "gateway" "T1"
           {| attachments :=
                [ main_group "gateway" "T1"
                    [ {| title := "m"; value := VNum 0; short := true |} ];
                  named_group ("d", [ {| title := "x"; value := VObj [("y", VNum 1)];
                                         short := true |} ]);
                  named_group ("e", []) ] |}
           "d" [("x", VObj [("y", VNum 1)])]).
  - reflexivity.
  - reflexivity.
  - reflexivity.
  - discriminate.
  - discriminate.
Defined.



(** A plain object with a property of its own named [constructor] is
    shown as a value of the main group; a nested record under [main]
    is shown under the label of the main group; and the entries of a
    group start with the array indices among its keys. *)
Lemma nested_record_without_group :
  (exists p, Bot.responseFormatter [("a", VObj [("constructor", VNum 1)])] "t" "k" = Ok p
             /\ ~ In "a" (labels (attachments p)))
  /\ (exists p, Bot.responseFormatter [("main", VObj [("a", VNum 1)])] "t" "k" = Ok p
                /\ ~ In "main" (labels (attachments p)))
  /\ Bot.responseFormatter [("d", VObj [("b", VNum 1); ("0", VNum 2)])] "t" "k"
     = Ok {| attachments :=
               [ main_group "t" "k" [];
                 named_group ("d", [ {| title := "0"; value := VNum 2; short := true |};
                                     {| title := "b"; value := VNum 1; short := true |} ]) ] |}.
Proof.
  split; [|split; [|reflexivity]].
  - eexists. split; [reflexivity|]. simpl. intros [H|[]]. discriminate.
  - eexists. split; [reflexivity|]. simpl. intros [H|[]]. discriminate.
Qed.

(** ** Empty records *)

(** C7, as the code has it: the empty record yields the main group
    alone, without entries and with the label of the request; and
    whenever the formatter returns, a key other than [main] and
    [__proto__] that holds an empty nested record still has its group,
    without entries. *)
Theorem empty_cases data type token p k :
  Bot.responseFormatter data type token = Ok p ->
  prop_get data k = VObj [] ->
  k <> "main" -> k <> "__proto__" ->
  Bot.responseFormatter [] type token
  = Ok {| attachments :=
            [ {| color := Some "#36a64f";
                 pretext := "Spreedly response for " ^^ type ^^ " with token " ^^ token;
                 fields := Some (FieldsArray []) |} ] |}
  /\ Bot.main_label "gateway" "T1" = "Spreedly response for gateway with token T1"
  /\ In {| color := Some "#36a64f"; pretext := k; fields := Some (FieldsArray []) |}
        (attachments p).
Proof.
  intros H Hv Hm Hp. split; [reflexivity|]. split; [reflexivity|].
  assert (Hg : is_group (prop_get data k) = true) by now rewrite Hv.
  pose proof (group_emitted data type token p k H Hg Hm Hp) as HG.
  rewrite Hv in HG. exact HG.
Qed.

Lemma empty_cases_witness :
  Bot.responseFormatter [] "gateway" "T1"
  = Ok {| attachments :=
            [ {| color := Some "#36a64f";
                 pretext := "Spreedly response for " ^^ "gateway" ^^ " with token " ^^ "T1";
                 fields := Some (FieldsArray []) |} ] |}
  /\ Bot.main_label "gateway" "T1" = "Spreedly response for gateway with token T1"
  /\ In {| color := Some "#36a64f"; pretext := "errors"; fields := Some (FieldsArray []) |}
        (attachments
           {| attachments :=
                [ main_group "gateway" "T1" [];
                  named_group ("errors", []);
                  {| color := Some "#36a64f";
                     pretext := "0";
                     fields := Some (FieldsEntry
                                       {| title := "q"; value := VNull; short := true |}) |} ] |}).
Proof.
  apply (empty_cases [("errors", VObj []); ("__proto__", VObj [("q", VNull)])]
           "gateway" "T1"
           {| attachments :=
                [ main_group "gateway" "T1" [];
                  named_group ("errors", []);
                  {| color := Some "#36a64f";
                     pretext := "0";
                     fields := Some (FieldsEntry
                                       {| title := "q"; value := VNull; short := true |}) |} ] |}
           "errors").
  - reflexivity.
  - reflexivity.
  - discriminate.
  - discriminate.
Defined.



(** An empty nested record under [main] or [__proto__] leaves the
    payload of the empty record. *)
Lemma empty_record_without_group :
  Bot.responseFormatter [] "t" "k" = Ok {| attachments := [main_group "t" "k" []] |}
  /\ Bot.responseFormatter [("main", VObj [])] "t" "k" = Bot.responseFormatter [] "t" "k"
  /\ Bot.responseFormatter [("__proto__", VObj [])] "t" "k" = Bot.responseFormatter [] "t" "k".
Proof. repeat split. Qed.

(** ** The body of a card update *)

Section CardUpdate.

Import PaymentMethods.

Lemma lookup_delete_other {A : Type} (o : list (string * A)) key key' :
  key <> key' -> lookup key (delete_prop o key') = lookup key o.
Proof.
  intros Hne. unfold delete_prop. induction o as [|[k v] o IH]; simpl; [reflexivity|].
  destruct (String.eqb_spec k key') as [->|Hk]; simpl.
  - apply String.eqb_neq in Hne. rewrite String.eqb_sym in Hne. now rewrite Hne.
  - now rewrite IH.
Qed.

Lemma lookup_delete_same {A : Type} (o : list (string * A)) key :
  lookup key (delete_prop o key) = None.
Proof.
  unfold delete_prop. induction o as [|[k v] o IH]; simpl; [reflexivity|].
  destruct (String.eqb_spec k key) as [->|Hk]; simpl; [exact IH|].
  apply String.eqb_neq in Hk. now rewrite Hk.
Qed.

Lemma delete_prop_absent {A : Type} (o : list (string * A)) key :
  lookup key o = None -> delete_prop o key = o.
Proof.
  unfold delete_prop. induction o as [|[k v] o IH]; simpl; [reflexivity|].
  destruct (String.eqb k key); simpl; [discriminate|]. intros H. now rewrite IH.
Qed.

Lemma delete_if_truthy_strippable creditCard key :
  strippable creditCard key = true ->
  delete_if_truthy creditCard key = delete_prop creditCard key.
Proof.
  unfold strippable, delete_if_truthy, prop_get.
  destruct (lookup key creditCard) as [v|] eqn:E.
  - now intros ->.
  - intros _. simpl. now rewrite delete_prop_absent.
Qed.

Lemma stripped_without_secrets creditCard :
  strippable creditCard "verificationValue" = true ->
  strippable creditCard "number" = true ->
  stripped creditCard = without_secrets creditCard.
Proof.
  intros Hv Hn. unfold stripped, without_secrets.
  rewrite (delete_if_truthy_strippable _ _ Hv).
  apply delete_if_truthy_strippable.
  unfold strippable in *. rewrite lookup_delete_other by discriminate. exact Hn.
Qed.

(** C10, as the code has it: the two deletions are guarded by the
    truthiness of the field.  When each secret field is absent or holds
    a truthy value, the body carries neither, and two cards that differ
    in these fields only give the same request. *)
Theorem truthy_secrets_removed
  (CreditCard Body : Type) (toObject : CreditCard -> Record)
  (preparePost : string -> Record -> Body)
  (paymentMethod : string) (card1 card2 : CardArg CreditCard) :
  let c1 := card_object CreditCard toObject card1 in
  let c2 := card_object CreditCard toObject card2 in
  without_secrets c1 = without_secrets c2 ->
  strippable c1 "verificationValue" = true -> strippable c1 "number" = true ->
  strippable c2 "verificationValue" = true -> strippable c2 "number" = true ->
  updateCreditCard CreditCard toObject Body preparePost paymentMethod card1
  = updateCreditCard CreditCard toObject Body preparePost paymentMethod card2
  /\ lookup "number" (stripped c1) = None
  /\ lookup "verificationValue" (stripped c1) = None.
Proof.
  intros c1 c2 Heq Hv1 Hn1 Hv2 Hn2. unfold updateCreditCard, post_data.
  fold c1 c2.
  rewrite (stripped_without_secrets c1 Hv1 Hn1), (stripped_without_secrets c2 Hv2 Hn2), Heq.
  split; [reflexivity|]. rewrite <- Heq. unfold without_secrets. split.
  - apply lookup_delete_same.
  - rewrite lookup_delete_other by discriminate. apply lookup_delete_same.
Qed.

End CardUpdate.

Lemma truthy_secrets_removed_witness :
  PaymentMethods.updateCreditCard unit (fun _ => []) Record (fun _ data => data) "T1"
    (PaymentMethods.Plain unit
       [("number", VStr "4111111111111111"); ("verificationValue", VStr "123");
        ("month", VNum 1)])
  = PaymentMethods.updateCreditCard unit (fun _ => []) Record (fun _ data => data) "T1"
      (PaymentMethods.Plain unit [("month", VNum 1); ("number", VStr "4242424242424242")])
  /\ lookup "number"
       (PaymentMethods.stripped
          [("number", VStr "4111111111111111"); ("verificationValue", VStr "123");
           ("month", VNum 1)]) = None
  /\ lookup "verificationValue"
       (PaymentMethods.stripped
          [("number", VStr "4111111111111111"); ("verificationValue", VStr "123");
           ("month", VNum 1)]) = None.
Proof.
  apply (truthy_secrets_removed unit Record (fun _ => []) (fun _ data => data) "T1"
           (PaymentMethods.Plain unit
              [("number", VStr "4111111111111111"); ("verificationValue", VStr "123");
               ("month", VNum 1)])
           (PaymentMethods.Plain unit
              [("month", VNum 1); ("number", VStr "4242424242424242")]));
    reflexivity.
Defined.

(** A falsy card number or verification value passes both guards and
    stays in the object that is serialised: two cards that differ in
    these fields only give different requests. *)
Lemma falsy_secrets_kept :
  PaymentMethods.without_secrets
    [("number", VStr "4111111111111111"); ("verificationValue", VNum 123); ("month", VNum 1)]
  = PaymentMethods.without_secrets
      [("number", VStr EmptyString); ("verificationValue", VNum 0); ("month", VNum 1)]
  /\ PaymentMethods.post_data
       [("number", VStr EmptyString); ("verificationValue", VNum 0); ("month", VNum 1)]
     = [("creditCard",
         VObj [("number", VStr EmptyString); ("verificationValue", VNum 0); ("month", VNum 1)])]
  /\ PaymentMethods.updateCreditCard unit (fun _ => []) Record (fun _ data => data) "T1"
       (PaymentMethods.Plain unit
          [("number", VStr "4111111111111111"); ("verificationValue", VNum 123);
           ("month", VNum 1)])
     <> PaymentMethods.updateCreditCard unit (fun _ => []) Record (fun _ data => data) "T1"
          (PaymentMethods.Plain unit
             [("number", VStr EmptyString); ("verificationValue", VNum 0); ("month", VNum 1)]).
Proof. repeat split. discriminate. Qed.

(** ** The store: cells and their preservation *)

Section Store.

Import Rep Sim.

Lemma nth_error_lt {A : Type} (l : list A) n x : nth_error l n = Some x -> n < List.length l.
Proof. intros H. apply nth_error_Some. congruence. Qed.

Lemma update_length h l c : List.length (Heap.update h l c) = List.length h.
Proof.
  revert l. induction h as [|c0 h IH]; intros [|l]; simpl; try reflexivity.
  now rewrite IH.
Qed.

Lemma update_same h l c : l < List.length h -> nth_error (Heap.update h l c) l = Some c.
Proof.
  revert l. induction h as [|c0 h IH]; intros [|l]; simpl; try lia; try reflexivity.
  intros H. apply IH. lia.
Qed.

Lemma update_other h l l' c : l' <> l -> nth_error (Heap.update h l c) l' = nth_error h l'.
Proof.
  revert l l'. induction h as [|c0 h IH]; intros [|l] [|l']; simpl; try reflexivity; try congruence.
  intros H. apply IH. congruence.
Qed.

Lemma alloc_old (h : Heap.heap) c l : l < List.length h -> nth_error (h ++ [c]) l = nth_error h l.
Proof. intros H. now apply nth_error_app1. Qed.

Lemma alloc_new (h : Heap.heap) c : nth_error (h ++ [c]) (List.length h) = Some c.
Proof. rewrite nth_error_app2 by lia. now rewrite Nat.sub_diag. Qed.

Lemma alloc_Some (h : Heap.heap) c l x : nth_error h l = Some x -> nth_error (h ++ [c]) l = Some x.
Proof. intros H. rewrite alloc_old; [exact H | now apply nth_error_lt in H]. Qed.

Lemma extends_refl h : extends h h.
Proof. split; [lia | intros l _; reflexivity]. Qed.

Lemma extends_trans h1 h2 h3 : extends h1 h2 -> extends h2 h3 -> extends h1 h3.
Proof.
  intros [L1 U1] [L2 U2]. split; [lia|]. intros l Hl.
  rewrite U2 by lia. now apply U1.
Qed.

Lemma extends_alloc h c : extends h (h ++ [c]).
Proof.
  split; [rewrite length_app; simpl; lia|]. intros l Hl. now apply alloc_old.
Qed.

Lemma extends_update h0 h l c :
  List.length h0 <= l -> extends h0 h -> extends h0 (Heap.update h l c).
Proof.
  intros Hl [L U]. split; [rewrite update_length; lia|]. intros l' Hl'.
  rewrite update_other by lia. now apply U.
Qed.

Lemma extends_Some h h' l c : extends h h' -> nth_error h l = Some c -> nth_error h' l = Some c.
Proof. intros [_ U] H. rewrite U; [exact H | now apply nth_error_lt in H]. Qed.

(** ** Induction on values *)

Lemma json_induction (P : json -> Prop) :
  P JNull -> (forall b, P (JBool b)) -> (forall n, P (JNum n)) -> (forall s, P (JStr s)) ->
  (forall elems, Forall P elems -> P (JArr elems)) ->
  (forall props, Forall (fun p => P (snd p)) props -> P (JObj props)) ->
  forall j, P j.
Proof.
  intros Hnull Hbool Hnum Hstr Harr Hobj.
  fix IH 1. intros [| b | n | s | elems | props].
  - exact Hnull.
  - apply Hbool.
  - apply Hnum.
  - apply Hstr.
  - apply Harr. induction elems as [|j elems IHl]; constructor; [apply IH | exact IHl].
  - apply Hobj. induction props as [|[k j] props IHl]; constructor; [apply IH | exact IHl].
Qed.

Lemma Value_induction (P : Value -> Prop) :
  P VUndefined -> P VNull -> (forall b, P (VBool b)) -> (forall n, P (VNum n)) ->
  (forall s, P (VStr s)) -> (forall f, P (VFunc f)) -> (forall elems, P (VArr elems)) ->
  (forall props, Forall (fun p => P (snd p)) props -> P (VObj props)) ->
  forall v, P v.
Proof.
  intros Hu Hnull Hbool Hnum Hstr Hf Harr Hobj.
  fix IH 1. intros [| | b | n | s | f | elems | props];
    [exact Hu | exact Hnull | apply Hbool | apply Hnum | apply Hstr | apply Hf | apply Harr |].
  apply Hobj. induction props as [|[k v] props IHl]; constructor; [apply IH | exact IHl].
Qed.

Lemma all2b_Forall2 {A B : Type} (R : A -> B -> bool) xs ys :
  all2b R xs ys = true <-> Forall2 (fun x y => R x y = true) xs ys.
Proof.
  revert ys. induction xs as [|x xs IH]; intros [|y ys]; simpl; split; intros H;
    try discriminate; try constructor; try (now inversion H).
  - apply andb_true_iff in H. tauto.
  - apply andb_true_iff in H. apply IH. tauto.
  - inversion H; subst. apply andb_true_iff. split; [assumption | now apply IH].
Qed.

Lemma all2b_impl {A B : Type} (R R' : A -> B -> bool) xs ys :
  Forall (fun x => forall y, R x y = true -> R' x y = true) xs ->
  all2b R xs ys = true -> all2b R' xs ys = true.
Proof.
  intros HF. revert ys. induction HF as [|x xs Hx _ IH]; intros [|y ys]; simpl; auto.
  intros H. apply andb_true_iff in H. destruct H as [H1 H2].
  apply andb_true_iff. split; [now apply Hx | now apply IH].
Qed.

(** What a value holds does not depend on cells created later. *)
Lemma json_at_extends h h' :
  extends h h' -> forall j stack v, json_at h stack j v = true -> json_at h' stack j v = true.
Proof.
  intros He. induction j as [| b | n | s | elems IH | props IH] using json_induction;
    intros stack v; try (simpl; tauto).
  - destruct v; simpl; try discriminate. intros H.
    apply andb_true_iff in H. destruct H as [H1 H2]. rewrite H1. simpl.
    destruct (nth_error h l) as [[|els]|] eqn:E; try discriminate.
    rewrite (extends_Some _ _ _ _ He E).
    revert H2. apply all2b_impl. eapply Forall_impl; [|exact IH]. intros j Hj y. apply Hj.
  - destruct v; simpl; try discriminate. intros H.
    apply andb_true_iff in H. destruct H as [H1 H2]. rewrite H1. simpl.
    destruct (nth_error h l) as [[[|] hprops|]|] eqn:E; try discriminate.
    rewrite (extends_Some _ _ _ _ He E).
    revert H2. apply all2b_impl. eapply Forall_impl; [|exact IH]. intros p Hp q Hq.
    apply andb_true_iff in Hq. destruct Hq as [Hk Hq]. rewrite Hk. simpl. now apply Hp.
Qed.

Lemma value_at_extends h h' :
  extends h h' -> forall V v, value_at h V v = true -> value_at h' V v = true.
Proof.
  intros He. induction V as [| | b | n | s | f | elems | props IH] using Value_induction;
    intros v; try (simpl; tauto).
  - destruct v; try (simpl; discriminate).
    change (value_at h (VArr elems) (Heap.HRef l)) with (json_at h [] (JArr elems) (Heap.HRef l)).
    change (value_at h' (VArr elems) (Heap.HRef l)) with (json_at h' [] (JArr elems) (Heap.HRef l)).
    now apply json_at_extends.
  - destruct v; simpl; try discriminate.
    destruct (nth_error h l) as [[[|] hprops|]|] eqn:E; try discriminate.
    rewrite (extends_Some _ _ _ _ He E).
    apply all2b_impl. eapply Forall_impl; [|exact IH]. intros p Hp q Hq.
    apply andb_true_iff in Hq. destruct Hq as [Hk Hq]. rewrite Hk. simpl. now apply Hp.
Qed.

(** ** Objects with the same keys *)

Section SameKeys.

Context {A B : Type} (Q : A -> B -> Prop).

Lemma insert_by_index_same n p q l l' :
  same_keys Q p q ->
  Forall2 (fun x y => fst x = fst y /\ same_keys Q (snd x) (snd y)) l l' ->
  Forall2 (fun x y => fst x = fst y /\ same_keys Q (snd x) (snd y))
          (insert_by_index n p l) (insert_by_index n q l').
Proof.
  intros Hpq HF. induction HF as [|[m x] [m' y] l l' [Hm Hxy] HF IH]; simpl.
  - constructor; [split; [reflexivity | exact Hpq] | constructor].
  - simpl in Hm, Hxy. subst m'. destruct (n <=? m)%N.
    + constructor; [split; [reflexivity | exact Hpq]|].
      constructor; [split; [reflexivity | exact Hxy] | exact HF].
    + constructor; [split; [reflexivity | exact Hxy] | exact IH].
Qed.

Lemma index_props_same o o' :
  Forall2 (same_keys Q) o o' ->
  Forall2 (fun x y => fst x = fst y /\ same_keys Q (snd x) (snd y))
          (index_props o) (index_props o').
Proof.
  induction 1 as [|p q o o' Hpq HF IH]; simpl; [constructor|].
  destruct Hpq as [Hk Hv]. rewrite <- Hk.
  destruct (array_index (fst p)); [|exact IH].
  apply insert_by_index_same; [split; assumption | exact IH].
Qed.

Lemma own_property_order_same o o' :
  Forall2 (same_keys Q) o o' ->
  Forall2 (same_keys Q) (own_property_order o) (own_property_order o').
Proof.
  intros HF. unfold own_property_order. apply Forall2_app.
  - pose proof (index_props_same o o' HF) as HI.
    induction HI as [|x y l l' [_ Hxy] _ IH]; simpl; constructor; assumption.
  - unfold named_props. induction HF as [|p q o o' Hpq HF IH]; simpl; [constructor|].
    destruct Hpq as [Hk Hv]. rewrite <- Hk.
    destruct (is_index (fst p)); simpl; [exact IH|].
    constructor; [split; assumption | exact IH].
Qed.

Lemma same_keys_fst o o' : Forall2 (same_keys Q) o o' -> map fst o = map fst o'.
Proof.
  induction 1 as [|p q o o' [Hk _] _ IH]; simpl; [reflexivity|]. now rewrite Hk, IH.
Qed.

Lemma own_property_keys_same o o' :
  Forall2 (same_keys Q) o o' -> own_property_keys o = own_property_keys o'.
Proof.
  intros HF. unfold own_property_keys.
  apply same_keys_fst. now apply own_property_order_same.
Qed.

Lemma lookup_same key o o' :
  Forall2 (same_keys Q) o o' ->
  match lookup key o, lookup key o' with
  | Some v, Some w => Q v w
  | None, None => True
  | _, _ => False
  end.
Proof.
  induction 1 as [|[k v] [k' w] o o' [Hk Hv] _ IH]; simpl; [exact I|].
  simpl in Hk, Hv. subst k'. destruct (String.eqb k key); [exact Hv | exact IH].
Qed.

Lemma has_key_same key o o' :
  Forall2 (same_keys Q) o o' -> has_key o key = has_key o' key.
Proof.
  unfold has_key. induction 1 as [|p q o o' [Hk _] _ IH]; simpl; [reflexivity|].
  now rewrite Hk, IH.
Qed.

End SameKeys.

(** ** Serialisation *)

Lemma JSON_stringify_object props :
  JSON_stringify (JObj props)
  = "{" ^^ join "," (map (fun p => quote (fst p) ^^ ":" ^^ JSON_stringify (snd p))
                         (own_property_order props)) ^^ "}".
Proof.
  cbn [JSON_stringify].
  assert (E : (fix members (l : list (string * json)) : list (string * string) :=
                 match l with
                 | [] => []
                 | (k, v) :: rest => (k, JSON_stringify v) :: members rest
                 end) props
              = map (fun p => (fst p, JSON_stringify (snd p))) props).
  { induction props as [|[k v] props IH]; [reflexivity|]. simpl. now rewrite IH. }
  rewrite E, own_property_order_map, map_map. reflexivity.
Qed.

Lemma on_stack_In l stack : on_stack l stack = false -> ~ In l stack.
Proof.
  unfold on_stack. intros H Hin.
  assert (existsb (Nat.eqb l) stack = true); [|congruence].
  apply existsb_exists. exists l. split; [assumption | apply Nat.eqb_refl].
Qed.

(** A stack of distinct cells leaves fuel for one more. *)
Lemma stack_room (h : Heap.heap) stack l fuel :
  NoDup stack -> (forall x, In x stack -> x < List.length h) ->
  ~ In l stack -> l < List.length h ->
  List.length h <= fuel + List.length stack ->
  exists fuel', fuel = S fuel' /\ List.length h <= fuel' + List.length (l :: stack).
Proof.
  intros Hnd Hb Hl Hlt Hf.
  assert (Hle : List.length (l :: stack) <= List.length (seq 0 (List.length h))).
  { apply NoDup_incl_length; [now constructor|].
    intros x [<-|Hx]; apply in_seq; [lia | specialize (Hb x Hx); lia]. }
  rewrite length_seq in Hle. simpl in *.
  destruct fuel as [|fuel']; [lia|]. exists fuel'. split; [reflexivity | lia].
Qed.

Lemma traverse_elements h fuel stack js elems :
  Forall (serialises h) js ->
  all2b (json_at h stack) js elems = true ->
  NoDup stack -> (forall x, In x stack -> x < List.length h) ->
  List.length h <= fuel + List.length stack ->
  Heap.traverse (Heap.serialize fuel h stack) elems
  = Ok (map (fun j => Some (JSON_stringify j)) js).
Proof.
  intros HF. revert elems. induction HF as [|j js Hj _ IH]; intros [|v elems] H Hnd Hb Hf;
    simpl in *; try discriminate; [reflexivity|].
  apply andb_true_iff in H. destruct H as [H1 H2].
  rewrite (Hj stack v fuel H1 Hnd Hb Hf). simpl.
  rewrite (IH elems H2 Hnd Hb Hf). reflexivity.
Qed.

Lemma traverse_members h fuel stack (props : list (string * json)) hprops :
  Forall (fun p => serialises h (snd p)) props ->
  Forall2 (same_keys (fun j v => json_at h stack j v = true)) props hprops ->
  NoDup stack -> (forall x, In x stack -> x < List.length h) ->
  List.length h <= fuel + List.length stack ->
  Heap.traverse (fun p => t <- Heap.serialize fuel h stack (snd p) ;; Ok (fst p, t)) hprops
  = Ok (map (fun p => (fst p, Some (JSON_stringify (snd p)))) props).
Proof.
  intros HF H2. revert HF. induction H2 as [|p q props hprops [Hk Hv] _ IH];
    intros HF Hnd Hb Hf; simpl; [reflexivity|].
  inversion HF as [|? ? Hp HF']; subst.
  rewrite (Hp stack (snd q) fuel Hv Hnd Hb Hf). simpl.
  rewrite (IH HF' Hnd Hb Hf). simpl. now rewrite Hk.
Qed.

Lemma members_Some (l : list (string * json)) :
  Heap.members (map (fun p => (fst p, Some (JSON_stringify (snd p)))) l)
  = map (fun p => quote (fst p) ^^ ":" ^^ JSON_stringify (snd p)) l.
Proof. induction l as [|[k j] l IH]; simpl; [reflexivity|]. now rewrite IH. Qed.

Lemma all2b_same_keys {A B : Type} (R : A -> B -> bool) (o : list (string * A)) o' :
  all2b (fun p q => String.eqb (fst p) (fst q) && R (snd p) (snd q)) o o' = true ->
  Forall2 (same_keys (fun x y => R x y = true)) o o'.
Proof.
  intros H. apply all2b_Forall2 in H. eapply Forall2_impl; [|exact H].
  intros p q Hpq. apply andb_true_iff in Hpq. destruct Hpq as [Hk Hv].
  apply String.eqb_eq in Hk. split; assumption.
Qed.

(** The serialiser of the store yields the JSON text of the data it
    reads. *)
Lemma serialize_correct h j : serialises h j.
Proof.
  induction j as [| b | n | s | elems IH | props IH] using json_induction;
    intros stack v fuel Hat Hnd Hb Hf.
  - destruct v; try discriminate. now destruct fuel.
  - destruct v; try discriminate. simpl in Hat. apply Bool.eqb_prop in Hat. subst b0.
    now destruct fuel, b.
  - destruct v; try discriminate. simpl in Hat. apply Z.eqb_eq in Hat. subst n0.
    now destruct fuel.
  - destruct v; try discriminate. simpl in Hat. apply String.eqb_eq in Hat. subst s0.
    now destruct fuel.
  - destruct v; try discriminate. simpl in Hat.
    apply andb_true_iff in Hat. destruct Hat as [Hs Hat].
    apply negb_true_iff in Hs.
    destruct (nth_error h l) as [[|els]|] eqn:E; try discriminate.
    destruct (stack_room h stack l fuel Hnd Hb (on_stack_In _ _ Hs) (nth_error_lt _ _ _ E) Hf)
      as (fuel' & -> & Hf').
    cbn [Heap.serialize]. unfold on_stack in Hs. rewrite Hs, E.
    rewrite (traverse_elements h fuel' (l :: stack) elems els IH Hat).
    + cbn [bind JSON_stringify]. now rewrite map_map.
    + constructor; [now apply on_stack_In | assumption].
    + intros x [<-|Hx]; [now apply nth_error_lt in E | now apply Hb].
    + exact Hf'.
  - destruct v; try discriminate. simpl in Hat.
    apply andb_true_iff in Hat. destruct Hat as [Hs Hat].
    apply negb_true_iff in Hs.
    destruct (nth_error h l) as [[[|] hprops|]|] eqn:E; try discriminate.
    destruct (stack_room h stack l fuel Hnd Hb (on_stack_In _ _ Hs) (nth_error_lt _ _ _ E) Hf)
      as (fuel' & -> & Hf').
    cbn [Heap.serialize]. unfold on_stack in Hs. rewrite Hs, E.
    apply all2b_same_keys in Hat.
    rewrite (traverse_members h fuel' (l :: stack) (own_property_order props)
               (own_property_order hprops)).
    + cbn [bind]. now rewrite members_Some, JSON_stringify_object.
    + eapply Permutation_Forall; [apply Permutation_sym, own_property_order_perm | exact IH].
    + now apply own_property_order_same.
    + constructor; [now apply on_stack_In | assumption].
    + intros x [<-|Hx]; [now apply nth_error_lt in E | now apply Hb].
    + exact Hf'.
Qed.

(** ** Reading the response from the store *)

Lemma value_at_object h props l :
  value_at h (VObj props) (Heap.HRef l) = true ->
  exists hprops,
    nth_error h l = Some (Heap.CObject Heap.ProtoObject hprops)
    /\ Forall2 (same_keys (fun V v => value_at h V v = true)) props hprops.
Proof.
  simpl. destruct (nth_error h l) as [[[|] hprops|]|] eqn:E; try discriminate.
  intros H. exists hprops. split; [reflexivity | now apply all2b_same_keys].
Qed.

Lemma value_at_array h elems v :
  value_at h (VArr elems) v = true ->
  exists l els, v = Heap.HRef l /\ nth_error h l = Some (Heap.CArray els).
Proof.
  destruct v; try discriminate. simpl. intros H.
  destruct (nth_error h l) as [[|els]|] eqn:E; try discriminate. eauto.
Qed.

(** [val[key]] on a plain object of the response. *)
Lemma get_object h0 h props l key :
  value_at h0 (VObj props) (Heap.HRef l) = true -> extends h0 h ->
  exists hv, Heap.get (Heap.HRef l) key h = Ok (hv, h)
             /\ value_at h0 (prop_get props key) hv = true.
Proof.
  intros Hat He. destruct (value_at_object _ _ _ Hat) as (hprops & E & HF).
  unfold Heap.get, Heap.mbind, Heap.read. rewrite (extends_Some _ _ _ _ He E).
  pose proof (lookup_same _ key _ _ HF) as Hl. unfold prop_get.
  destruct (lookup key props) as [V|], (lookup key hprops) as [v|]; try contradiction.
  - exists v. split; [reflexivity | exact Hl].
  - exists Heap.HUndefined. split; reflexivity.
Qed.

Lemma for_in_object h0 h props l :
  value_at h0 (VObj props) (Heap.HRef l) = true -> extends h0 h ->
  Heap.for_in (Heap.HRef l) h = Ok (own_property_keys props, h).
Proof.
  intros Hat He. destruct (value_at_object _ _ _ Hat) as (hprops & E & HF).
  unfold Heap.for_in, Heap.mbind, Heap.read. rewrite (extends_Some _ _ _ _ He E).
  unfold Heap.ret. now rewrite (own_property_keys_same _ _ _ HF).
Qed.

Lemma constructor_is h0 h V v (test : forall T : Type, Constructor T -> bool) :
  (forall T U (c : Constructor T) (d : Constructor U),
     match c, d with
     | CtorObject, CtorObject | CtorArray, CtorArray | CtorString, CtorString
     | CtorNumber, CtorNumber | CtorBoolean, CtorBoolean | CtorFunction, CtorFunction
     | CtorOwn _, CtorOwn _ => True
     | _, _ => False
     end -> test T c = test U d) ->
  value_at h0 V v = true -> extends h0 h ->
  Heap.mbind (Heap.constructor_of v) (fun c => Heap.ret (test _ c)) h
  = reads (c <- constructor_of V ;; Ok (test _ c)) h.
Proof.
  intros Ht Hat He. destruct V, v; try discriminate; try reflexivity.
  - unfold Heap.mbind, Heap.ret. simpl. f_equal. f_equal. now apply Ht.
  - unfold Heap.mbind, Heap.ret. simpl. f_equal. f_equal. now apply Ht.
  - unfold Heap.mbind, Heap.ret. simpl. f_equal. f_equal. now apply Ht.
  - unfold Heap.mbind, Heap.ret. simpl. f_equal. f_equal. now apply Ht.
  - destruct (value_at_array _ _ _ Hat) as (l' & els & Heq & E).
    injection Heq as Heq. subst l'.
    unfold Heap.constructor_of, Heap.mbind, Heap.read.
    rewrite (extends_Some _ _ _ _ He E). simpl. unfold Heap.ret.
    f_equal. f_equal. now apply Ht.
  - destruct (value_at_object _ _ _ Hat) as (hprops & E & HF).
    unfold Heap.constructor_of, Heap.mbind, Heap.read.
    rewrite (extends_Some _ _ _ _ He E). simpl.
    pose proof (lookup_same _ "constructor" _ _ HF) as Hl.
    destruct (lookup "constructor" props), (lookup "constructor" hprops); try contradiction;
      simpl; unfold Heap.ret; f_equal; f_equal; now apply Ht.
Qed.

Lemma is_plain_object_store h0 h V v :
  value_at h0 V v = true -> extends h0 h ->
  Heap.is_plain_object v h = reads (Bot.is_plain_object V) h.
Proof.
  intros Hat He. unfold Heap.is_plain_object, Bot.is_plain_object.
  destruct V, v; try discriminate; try reflexivity;
    apply (constructor_is h0 h _ _ (@is_Object)); try assumption;
    intros T U [] []; simpl; tauto.
Qed.

Lemma is_null_or_array_store h0 h V v :
  value_at h0 V v = true -> extends h0 h ->
  Heap.is_null_or_array v h = reads (Bot.is_null_or_array V) h.
Proof.
  intros Hat He. unfold Heap.is_null_or_array, Bot.is_null_or_array.
  destruct V, v; try discriminate; try reflexivity;
    apply (constructor_is h0 h _ _ (@is_Array)); try assumption;
    intros T U [] []; simpl; tauto.
Qed.

Lemma stringify_store h0 h V v :
  value_at h0 V v = true -> extends h0 h ->
  Bot.is_null_or_array V = Ok true ->
  exists v', Heap.stringify v h = Ok (v', h) /\ value_at h0 (stringify V) v' = true.
Proof.
  intros Hat He Hs. destruct V; try discriminate.
  - destruct v; try discriminate. exists (Heap.HStr "null"). split; [|reflexivity].
    unfold Heap.stringify. now destruct (List.length h).
  - exists (Heap.HStr (JSON_stringify (JArr elems))). split.
    + unfold Heap.stringify.
      rewrite (serialize_correct h (JArr elems) [] v (List.length h)); try reflexivity.
      * destruct v; try discriminate. apply (json_at_extends h0 h He). exact Hat.
      * constructor.
      * intros x [].
      * lia.
    + simpl. apply String.eqb_refl.
  - exfalso. unfold Bot.is_null_or_array in Hs. simpl in Hs.
    destruct (lookup "constructor" props); discriminate.
Qed.

(** ** Keeping the invariant *)

Lemma entry_sim_kept h0 h h' m e r :
  objects_kept m h h' -> entry_sim h0 h m e r -> entry_sim h0 h' m e r.
Proof.
  intros Hk (l & hv & -> & Hm & E & Hv). exists l, hv. repeat split; try assumption.
  now apply (Hk l _ _ Hm E).
Qed.

Lemma array_sim_kept h0 h h' m es a :
  objects_kept m h h' ->
  (forall refs, nth_error h a = Some (Heap.CArray refs) ->
                nth_error h' a = Some (Heap.CArray refs)) ->
  array_sim h0 h m es a -> array_sim h0 h' m es a.
Proof.
  intros Hk Ha (Hl & refs & E & HF). split; [exact Hl|]. exists refs. split; [now apply Ha|].
  eapply Forall2_impl; [|exact HF]. intros e r. now apply entry_sim_kept.
Qed.

Lemma In_ref_locs a (hp : list (string * Heap.hval)) :
  In a (ref_locs hp) <-> exists k, In (k, Heap.HRef a) hp.
Proof.
  unfold ref_locs. rewrite in_flat_map. split.
  - intros ([k v] & Hin & Ha). simpl in Ha. destruct v; try contradiction.
    destruct Ha as [->|[]]. eauto.
  - intros (k & Hin). exists (k, Heap.HRef a). split; [exact Hin | now left].
Qed.

Lemma own_sim_kept h0 h h' m (X : Heap.loc -> Prop) o hp :
  objects_kept m h h' ->
  (forall a refs, ~ X a -> nth_error h a = Some (Heap.CArray refs) ->
                  nth_error h' a = Some (Heap.CArray refs)) ->
  (forall a, In a (ref_locs hp) -> ~ X a) ->
  Forall2 (prop_sim h0 h m) o hp -> Forall2 (prop_sim h0 h' m) o hp.
Proof.
  intros Hk Ha HX HF. induction HF as [|p q o hp (Hfst & a & Hq & Hs) _ IH]; constructor.
  - split; [exact Hfst|]. exists a. split; [exact Hq|].
    apply (array_sim_kept h0 h h' m _ a Hk); [|exact Hs].
    intros refs. apply Ha, HX. apply In_ref_locs. exists (fst q).
    left. destruct q as [k v]. simpl in *. now subst v.
  - apply IH. intros a' Hin. apply HX. unfold ref_locs in *. simpl.
    apply in_or_app. now right.
Qed.

Lemma own_sim_array h0 h m o hp a :
  Forall2 (prop_sim h0 h m) o hp -> In a (ref_locs hp) ->
  exists refs, nth_error h a = Some (Heap.CArray refs).
Proof.
  intros HF Hin. apply In_ref_locs in Hin. destruct Hin as (k & Hin).
  induction HF as [|p q o hp (Hfst & a' & Hq & _ & refs & E & _) _ IH]; [contradiction|].
  destruct Hin as [->|Hin]; [|now apply IH].
  simpl in Hq. injection Hq as ->. eauto.
Qed.

Lemma proto_sim_array h0 h m o pr a :
  proto_sim h0 h m o pr -> In a (proto_locs pr) ->
  exists refs, nth_error h a = Some (Heap.CArray refs).
Proof.
  destruct o, pr; simpl; try contradiction. intros (_ & refs & E & _) [->|[]]. eauto.
Qed.

Lemma proto_sim_kept h0 h h' m (X : Heap.loc -> Prop) o pr :
  objects_kept m h h' ->
  (forall a refs, ~ X a -> nth_error h a = Some (Heap.CArray refs) ->
                  nth_error h' a = Some (Heap.CArray refs)) ->
  (forall a, In a (proto_locs pr) -> ~ X a) ->
  proto_sim h0 h m o pr -> proto_sim h0 h' m o pr.
Proof.
  intros Hk Ha HX. destruct o, pr; simpl; try tauto.
  apply array_sim_kept; [exact Hk|]. intros refs. apply Ha, HX. now left.
Qed.

Lemma set_prop_keys {A : Type} (o : list (string * A)) key v x :
  In x (map fst (set_prop o key v)) -> x = key \/ In x (map fst o).
Proof.
  induction o as [|[k w] o IH]; simpl.
  - intros [<-|[]]. now left.
  - destruct (String.eqb_spec k key) as [->|Hne]; simpl.
    + intros [<-|H]; auto.
    + intros [<-|H]; auto. destruct (IH H); auto.
Qed.

Lemma set_prop_NoDup {A : Type} (o : list (string * A)) key v :
  NoDup (map fst o) -> NoDup (map fst (set_prop o key v)).
Proof.
  induction o as [|[k w] o IH]; simpl; intros Hnd.
  - repeat constructor. intros [].
  - inversion Hnd as [|? ? Hk Hnd']; subst.
    destruct (String.eqb_spec k key) as [->|Hne]; simpl.
    + now constructor.
    + constructor; [|now apply IH]. intros Hin.
      apply set_prop_keys in Hin. destruct Hin as [->|Hin]; [now apply Hne | now apply Hk].
Qed.

Lemma set_prop_ref_locs hp key arr x :
  In x (ref_locs (set_prop hp key (Heap.HRef arr))) -> x = arr \/ In x (ref_locs hp).
Proof.
  induction hp as [|[k w] hp IH]; simpl.
  - intros [<-|[]]. now left.
  - destruct (String.eqb k key); simpl.
    + intros [<-|H]; [now left|]. right. apply in_or_app. now right.
    + unfold ref_locs in *. simpl. intros H. apply in_app_or in H.
      destruct H as [H|H]; [right; apply in_or_app; now left|].
      destruct (IH H) as [->|H']; [now left | right; apply in_or_app; now right].
Qed.

Lemma set_prop_locs_NoDup hp key arr (P : list Heap.loc) :
  NoDup (ref_locs hp ++ P) -> ~ In arr (ref_locs hp ++ P) ->
  NoDup (ref_locs (set_prop hp key (Heap.HRef arr)) ++ P).
Proof.
  induction hp as [|[k w] hp IH]; simpl; intros Hnd Hfresh.
  - constructor; assumption.
  - unfold ref_locs in Hnd, Hfresh. simpl in Hnd, Hfresh.
    rewrite <- app_assoc in Hnd, Hfresh.
    assert (Hnd' : NoDup (ref_locs hp ++ P)) by (now apply NoDup_app_remove_l in Hnd).
    assert (Hfresh' : ~ In arr (ref_locs hp ++ P)).
    { intros H. apply Hfresh. apply in_or_app. now right. }
    destruct (String.eqb k key); simpl.
    + constructor; assumption.
    + unfold ref_locs at 1. simpl. rewrite <- app_assoc.
      fold (ref_locs (set_prop hp key (Heap.HRef arr))).
      destruct w; simpl in *; try (now apply IH).
      inversion Hnd as [|? ? Hl Hnd'']; subst. constructor; [|now apply IH].
      intros Hin. apply in_app_or in Hin. destruct Hin as [Hin|Hin].
      * apply set_prop_ref_locs in Hin. destruct Hin as [->|Hin].
        -- apply Hfresh. now left.
        -- apply Hl. apply in_or_app. now left.
      * apply Hl. apply in_or_app. now right.
Qed.

Lemma set_prop_same {A B : Type} (R : string * A -> string * B -> Prop) o hp key v w :
  (forall p q, R p q -> fst p = fst q) ->
  Forall2 R o hp -> R (key, v) (key, w) ->
  Forall2 R (set_prop o key v) (set_prop hp key w).
Proof.
  intros Hfst HF Hnew. induction HF as [|[k x] [k' y] o hp Hpq HF IH]; simpl.
  - now repeat constructor.
  - pose proof (Hfst _ _ Hpq) as Hk. simpl in Hk. subst k'.
    destruct (String.eqb_spec k key) as [->|Hne].
    + constructor; [exact Hnew | assumption].
    + constructor; assumption.
Qed.

Lemma objects_kept_alloc m (h : Heap.heap) c : objects_kept m h (h ++ [c]).
Proof. intros l pr ps _ E. now apply alloc_Some. Qed.

Lemma objects_kept_update m h a c :
  (m < a -> forall pr ps, nth_error h a <> Some (Heap.CObject pr ps)) ->
  objects_kept m h (Heap.update h a c).
Proof.
  intros Ha l pr ps Hm E. rewrite update_other; [exact E|].
  intros ->. now apply (Ha Hm pr ps).
Qed.

Lemma objects_kept_trans m h1 h2 h3 :
  objects_kept m h1 h2 -> objects_kept m h2 h3 -> objects_kept m h1 h3.
Proof. intros H1 H2 l pr ps Hm E. apply H2; [exact Hm|]. now apply H1. Qed.

Lemma NoDup_snoc {A : Type} (l : list A) x : NoDup l -> ~ In x l -> NoDup (l ++ [x]).
Proof.
  intros Hnd Hx. apply (Permutation_NoDup (Permutation_cons_append l x)). now constructor.
Qed.

Lemma tracked_lt h0 h m acc pr hprops a :
  Forall2 (prop_sim h0 h m) (own acc) hprops -> proto_sim h0 h m (proto acc) pr ->
  In a (ref_locs hprops ++ proto_locs pr) -> a < List.length h.
Proof.
  intros Hown Hpr Hin. apply in_app_or in Hin. destruct Hin as [Hin|Hin].
  - destruct (own_sim_array _ _ _ _ _ _ Hown Hin) as (refs & E). now apply nth_error_lt in E.
  - destruct (proto_sim_array _ _ _ _ _ _ Hpr Hin) as (refs & E). now apply nth_error_lt in E.
Qed.

(** [message[key] = []] keeps the invariant. *)
Lemma assign_empty_sim h0 h m acc key :
  acc_sim h0 h m acc ->
  exists h', Heap.assign_empty m key h = Ok (tt, h')
             /\ acc_sim h0 h' m (Bot.assign_empty acc key).
Proof.
  intros (Hm & He & pr & hprops & E & Hown & Hpr & Hkeys & Hlocs).
  pose proof (nth_error_lt _ _ _ E) as Hmlt.
  unfold Heap.assign_empty, Heap.mbind, Heap.alloc, Heap.read.
  rewrite (alloc_Some h _ m _ E). unfold Bot.assign_empty.
  assert (Hfresh : ~ In (List.length h) (ref_locs hprops ++ proto_locs pr)).
  { intros Hin. apply (tracked_lt _ _ _ _ _ _ _ Hown Hpr) in Hin. lia. }
  assert (Hobj : forall c, objects_kept m h (Heap.update (h ++ [Heap.CArray []]) m c)).
  { intros c. eapply objects_kept_trans; [apply objects_kept_alloc|].
    apply objects_kept_update. lia. }
  assert (Harr : forall c a refs, ~ False -> nth_error h a = Some (Heap.CArray refs) ->
                   nth_error (Heap.update (h ++ [Heap.CArray []]) m c) a
                   = Some (Heap.CArray refs)).
  { intros c a refs _ Ea. rewrite update_other; [now apply alloc_Some|].
    intros ->. congruence. }
  assert (Hext : forall c, extends h0 (Heap.update (h ++ [Heap.CArray []]) m c)).
  { intros c. apply extends_update; [exact Hm|].
    eapply extends_trans; [exact He | apply extends_alloc]. }
  assert (Hnew : forall c, array_sim h0 (Heap.update (h ++ [Heap.CArray []]) m c) m []
                             (List.length h)).
  { intros c. split; [destruct He; lia|]. exists []. split; [|constructor].
    rewrite update_other by lia. apply alloc_new. }
  assert (Hcell : forall c, nth_error (Heap.update (h ++ [Heap.CArray []]) m c) m = Some c).
  { intros c. apply update_same. rewrite length_app. simpl. lia. }
  destruct (String.eqb key "__proto__").
  - eexists. split; [reflexivity|]. split; [exact Hm|]. split; [apply Hext|].
    exists (Heap.ProtoArray (List.length h)), hprops. cbn [own proto].
    split; [apply Hcell|]. split; [|split; [apply Hnew|split; [exact Hkeys|]]].
    + apply (own_sim_kept h0 h _ m (fun _ => False)); auto.
    + simpl. apply NoDup_snoc; [now apply NoDup_app_remove_r in Hlocs|].
      intros Hin. apply Hfresh. apply in_or_app. now left.
  - eexists. split; [reflexivity|]. split; [exact Hm|]. split; [apply Hext|].
    exists pr, (set_prop hprops key (Heap.HRef (List.length h))). cbn [own proto].
    split; [apply Hcell|]. split; [|split; [|split]].
    + apply set_prop_same.
      * now intros p q [Hfst _].
      * apply (own_sim_kept h0 h _ m (fun _ => False)); auto.
      * split; [reflexivity|]. exists (List.length h). split; [reflexivity | apply Hnew].
    + apply (proto_sim_kept h0 h _ m (fun _ => False)); auto.
    + now apply set_prop_NoDup.
    + now apply set_prop_locs_NoDup.
Qed.

Lemma push_cells h0 h m a refs c pr hprops :
  extends h0 h -> List.length h0 <= a ->
  nth_error h a = Some (Heap.CArray refs) ->
  nth_error h m = Some (Heap.CObject pr hprops) ->
  let h2 := Heap.update (h ++ [c]) a (Heap.CArray (refs ++ [Heap.HRef (List.length h)])) in
  extends h0 h2
  /\ objects_kept m h h2
  /\ nth_error h2 m = Some (Heap.CObject pr hprops)
  /\ (forall a' refs', a' <> a -> nth_error h a' = Some (Heap.CArray refs') ->
                        nth_error h2 a' = Some (Heap.CArray refs'))
  /\ nth_error h2 a = Some (Heap.CArray (refs ++ [Heap.HRef (List.length h)]))
  /\ nth_error h2 (List.length h) = Some c.
Proof.
  intros He Ha Ea Em h2. pose proof (nth_error_lt _ _ _ Ea) as Halt.
  repeat split.
  - unfold h2. rewrite update_length, length_app. destruct He. simpl. lia.
  - intros l Hl. unfold h2. rewrite update_other by lia.
    destruct He as [Hlen Hu]. rewrite alloc_old by lia. now apply Hu.
  - eapply objects_kept_trans; [apply objects_kept_alloc|].
    apply objects_kept_update. intros _ pr' ps'. rewrite (alloc_Some _ _ _ _ Ea). discriminate.
  - unfold h2. rewrite update_other; [now apply alloc_Some|]. intros ->. congruence.
  - intros a' refs' Hne Ea'. unfold h2. rewrite update_other by assumption.
    now apply alloc_Some.
  - unfold h2. apply update_same. rewrite length_app. simpl. lia.
  - unfold h2. rewrite update_other by lia. apply alloc_new.
Qed.

Lemma array_sim_push h0 h h2 m es a refs e hv :
  array_sim h0 h m es a ->
  nth_error h a = Some (Heap.CArray refs) ->
  objects_kept m h h2 ->
  nth_error h2 a = Some (Heap.CArray (refs ++ [Heap.HRef (List.length h)])) ->
  nth_error h2 (List.length h) = Some (entry_cell e hv) ->
  m < List.length h -> value_at h0 (value e) hv = true ->
  array_sim h0 h2 m (es ++ [e]) a.
Proof.
  intros (Hl & refs' & E & HF) Ea Hk E2 Enew Hm Hv.
  rewrite Ea in E. injection E as <-.
  split; [exact Hl|]. exists (refs ++ [Heap.HRef (List.length h)]). split; [exact E2|].
  apply Forall2_app.
  - eapply Forall2_impl; [|exact HF]. intros e' r. now apply entry_sim_kept.
  - constructor; [|constructor]. exists (List.length h), hv. repeat split; assumption.
Qed.

Lemma lookup_ref_locs (hp : list (string * Heap.hval)) key a :
  lookup key hp = Some (Heap.HRef a) -> In a (ref_locs hp).
Proof. intros H. apply In_ref_locs. exists key. now apply lookup_Some_In. Qed.

Lemma own_sim_push h0 h h2 m o hp key a es e :
  Forall2 (prop_sim h0 h m) o hp ->
  NoDup (ref_locs hp) ->
  lookup key hp = Some (Heap.HRef a) -> lookup key o = Some es ->
  array_sim h0 h2 m (es ++ [e]) a ->
  objects_kept m h h2 ->
  (forall a' refs', a' <> a -> nth_error h a' = Some (Heap.CArray refs') ->
                    nth_error h2 a' = Some (Heap.CArray refs')) ->
  Forall2 (prop_sim h0 h2 m) (set_prop o key (es ++ [e])) hp.
Proof.
  intros HF Hnd Hhp Ho Hnew Hk Harr.
  induction HF as [|[k x] [k' y] o hp Hpq HF IH]; [discriminate|].
  pose proof Hpq as (Hfst & a' & Hy & Hs). simpl in Hfst, Hy, Hs. subst k' y.
  simpl in Hhp, Ho |- *. unfold ref_locs in Hnd. simpl in Hnd.
  inversion Hnd as [|? ? Hnotin Hnd']; subst.
  destruct (String.eqb k key) eqn:Ek.
  - injection Hhp as ->. injection Ho as ->. apply String.eqb_eq in Ek. subst k.
    constructor.
    + split; [reflexivity|]. exists a. split; [reflexivity | exact Hnew].
    + apply (own_sim_kept h0 h h2 m (fun x => x = a) _ _ Hk Harr); [|exact HF].
      intros a0 Hin ->. now apply Hnotin.
  - constructor.
    + split; [reflexivity|]. exists a'. split; [reflexivity|].
      apply (array_sim_kept h0 h h2 m _ a' Hk); [|exact Hs].
      intros refs0. apply Harr. intros ->. apply Hnotin. now apply (lookup_ref_locs hp key).
    + now apply IH.
Qed.

(** [message[key].push(entry)] keeps the invariant, and throws exactly
    when the pure accumulator has no array under [key]. *)
Lemma push_sim h0 h m acc key ttl V (val : Heap.M Heap.hval) hv :
  acc_sim h0 h m acc ->
  val h = Ok (hv, h) -> value_at h0 V hv = true ->
  match Bot.push acc key {| title := ttl; value := V; short := true |} with
  | Ok acc' => exists h', Heap.push m key ttl val h = Ok (tt, h') /\ acc_sim h0 h' m acc'
  | Throw e => Heap.push m key ttl val h = Throw e
  end.
Proof.
  intros (Hm & He & pr & hprops & E & Hown & Hpr & Hkeys & Hlocs) Hval Hv.
  pose proof (nth_error_lt _ _ _ E) as Hmlt.
  unfold Bot.push, Heap.push, Heap.push_target, Heap.mbind, Heap.read. rewrite E.
  destruct (String.eqb key "__proto__").
  - destruct (proto acc) as [es|] eqn:Ep, pr as [|a]; simpl in Hpr; try contradiction;
      [|reflexivity].
    unfold Heap.ret. rewrite Hval. unfold Heap.alloc, Heap.array_push, Heap.mbind, Heap.read.
    pose proof Hpr as (Hl & refs & Ea & HF).
    rewrite (alloc_Some _ _ _ _ Ea). unfold Heap.write.
    destruct (push_cells h0 h m a refs
                (entry_cell {| title := ttl; value := V; short := true |} hv)
                _ _ He Hl Ea E) as (He2 & Hk2 & Em2 & Harr2 & Ea2 & En2).
    eexists. split; [reflexivity|]. split; [exact Hm|]. split; [exact He2|].
    exists (Heap.ProtoArray a), hprops. cbn [own proto].
    split; [exact Em2|]. split; [|split; [|split; assumption]].
    + apply (own_sim_kept h0 h _ m (fun x => x = a) _ _ Hk2 Harr2); [|exact Hown].
      intros a0 Hin ->. simpl in Hlocs.
      apply NoDup_remove_2 in Hlocs. apply Hlocs. now rewrite app_nil_r.
    + simpl. eapply array_sim_push; eassumption.
  - pose proof (lookup_same
                  (fun es v => exists a, v = Heap.HRef a /\ array_sim h0 h m es a)
                  key _ _ Hown) as Hl.
    destruct (lookup key (own acc)) as [es|] eqn:Eo, (lookup key hprops) as [v|] eqn:Eh;
      try contradiction; [|reflexivity].
    destruct Hl as (a & -> & Hs).
    unfold Heap.ret. rewrite Hval. unfold Heap.alloc, Heap.array_push, Heap.mbind, Heap.read.
    pose proof Hs as (Hl & refs & Ea & HF).
    rewrite (alloc_Some _ _ _ _ Ea). unfold Heap.write.
    destruct (push_cells h0 h m a refs
                (entry_cell {| title := ttl; value := V; short := true |} hv)
                _ _ He Hl Ea E) as (He2 & Hk2 & Em2 & Harr2 & Ea2 & En2).
    eexists. split; [reflexivity|]. split; [exact Hm|]. split; [exact He2|].
    exists pr, hprops. cbn [own proto].
    split; [exact Em2|]. split; [|split; [|split; assumption]].
    + eapply own_sim_push; try eassumption.
      * now apply NoDup_app_remove_r in Hlocs.
      * eapply array_sim_push; eassumption.
    + apply (proto_sim_kept h0 h _ m (fun x => x = a) _ _ Hk2 Harr2); [|exact Hpr].
      intros a0 Hin ->. destruct pr as [|ap]; [contradiction|].
      destruct Hin as [<-|[]]. simpl in Hlocs.
      apply NoDup_remove_2 in Hlocs. apply Hlocs. rewrite app_nil_r.
      now apply (lookup_ref_locs hprops key).
Qed.

(** ** The first loop on the store *)

Lemma push_all_sim h0 m key props l subKeys :
  value_at h0 (VObj props) (Heap.HRef l) = true ->
  forall h acc,
    acc_sim h0 h m acc ->
    match for_each (fun msg subKey => Bot.push msg key (sub_entry props subKey)) subKeys acc with
    | Ok acc' =>
        exists h',
          Heap.loop (fun subKey => Heap.push m key subKey (Heap.get (Heap.HRef l) subKey))
                    subKeys h = Ok (tt, h')
          /\ acc_sim h0 h' m acc'
    | Throw e =>
        Heap.loop (fun subKey => Heap.push m key subKey (Heap.get (Heap.HRef l) subKey))
                  subKeys h = Throw e
    end.
Proof.
  intros Hat. induction subKeys as [|sk sks IH]; intros h acc Hsim;
    cbn [for_each Heap.loop].
  - exists h. split; [reflexivity | exact Hsim].
  - pose proof Hsim as (_ & He & _).
    destruct (get_object h0 h props l sk Hat He) as (hv & Hget & Hv).
    pose proof (push_sim h0 h m acc key sk (prop_get props sk) _ hv Hsim Hget Hv) as Hp.
    unfold sub_entry at 1. unfold Heap.mbind.
    destruct (Bot.push acc key
                {| title := sk; value := prop_get props sk; short := true |}) as [acc1|e].
    + destruct Hp as (h1 & -> & Hsim1). cbn [bind]. apply IH. exact Hsim1.
    + now rewrite Hp.
Qed.

Lemma is_plain_object_props V :
  Bot.is_plain_object V = Ok true -> exists props, V = VObj props.
Proof.
  destruct V; try discriminate; eauto.
Qed.

(** One turn of the first loop on the store does what the pure body
    does. *)
Lemma classify_sim h0 h m acc R data key :
  record_at h0 R data = true ->
  acc_sim h0 h m acc ->
  match Bot.classify R acc key with
  | Ok acc' => exists h', Heap.classify data m key h = Ok (tt, h') /\ acc_sim h0 h' m acc'
  | Throw e => Heap.classify data m key h = Throw e
  end.
Proof.
  intros Hrec Hsim. pose proof Hsim as (_ & He & _).
  destruct (get_object h0 h R data key Hrec He) as (hv & Hget & Hv).
  unfold Bot.classify, Heap.classify.
  change (Heap.mbind (Heap.get (Heap.HRef data) key) ?k h)
    with (match Heap.get (Heap.HRef data) key h with
          | Ok (a, h') => k a h'
          | Throw e => Throw e
          end).
  rewrite Hget.
  change (Heap.mbind (Heap.is_plain_object hv) ?k h)
    with (match Heap.is_plain_object hv h with
          | Ok (a, h') => k a h'
          | Throw e => Throw e
          end).
  rewrite (is_plain_object_store h0 h _ _ Hv He).
  destruct (Bot.is_plain_object (prop_get R key)) as [[|]|e] eqn:Ep; cbn [reads bind];
    [| |reflexivity].
  - destruct (is_plain_object_props _ Ep) as (props & EV). rewrite EV in *.
    destruct hv; try discriminate.
    destruct (assign_empty_sim h0 h m acc key Hsim) as (h1 & Ha & Hsim1).
    change (Heap.mbind (Heap.assign_empty m key) ?k h)
      with (match Heap.assign_empty m key h with
            | Ok (a, h') => k a h'
            | Throw e => Throw e
            end).
    rewrite Ha.
    pose proof Hsim1 as (_ & He1 & _).
    change (Heap.mbind (Heap.for_in (Heap.HRef l)) ?k h1)
      with (match Heap.for_in (Heap.HRef l) h1 with
            | Ok (a, h') => k a h'
            | Throw e => Throw e
            end).
    rewrite (for_in_object h0 h1 props l Hv He1).
    cbn [props_of]. apply (push_all_sim h0 m key props l _ Hv). exact Hsim1.
  - change (Heap.mbind (Heap.is_null_or_array hv) ?k h)
      with (match Heap.is_null_or_array hv h with
            | Ok (a, h') => k a h'
            | Throw e => Throw e
            end).
    rewrite (is_null_or_array_store h0 h _ _ Hv He).
    destruct (Bot.is_null_or_array (prop_get R key)) as [[|]|e] eqn:Es; cbn [reads bind];
      [| |reflexivity].
    + destruct (stringify_store h0 h _ _ Hv He Es) as (v' & Hstr & Hv').
      change (Heap.mbind (Heap.stringify hv) ?k h)
        with (match Heap.stringify hv h with
              | Ok (a, h') => k a h'
              | Throw e => Throw e
              end).
      rewrite Hstr.
      apply (push_sim h0 h m acc "main" key _ (Heap.ret v') v' Hsim eq_refl Hv').
    + change (Heap.mbind (Heap.ret hv) ?k h) with (k hv h).
      apply (push_sim h0 h m acc "main" key _ (Heap.ret hv) hv Hsim eq_refl Hv).
Qed.

Lemma first_loop_sim h0 m R data keys :
  record_at h0 R data = true ->
  forall h acc,
    acc_sim h0 h m acc ->
    match for_each (Bot.classify R) keys acc with
    | Ok acc' =>
        exists h', Heap.loop (Heap.classify data m) keys h = Ok (tt, h') /\ acc_sim h0 h' m acc'
    | Throw e => Heap.loop (Heap.classify data m) keys h = Throw e
    end.
Proof.
  intros Hrec. induction keys as [|k keys IH]; intros h acc Hsim;
    cbn [for_each Heap.loop].
  - exists h. split; [reflexivity | exact Hsim].
  - pose proof (classify_sim h0 h m acc R data k Hrec Hsim) as Hc. unfold Heap.mbind.
    destruct (Bot.classify R acc k) as [acc1|e].
    + destruct Hc as (h1 & -> & Hsim1). cbn [bind]. now apply IH.
    + now rewrite Hc.
Qed.

(** ** Keys of array elements *)

Lemma index_key_inj i j : index_key i = index_key j -> i = j.
Proof.
  unfold index_key. intros H.
  assert (Hn : forall n, Nat.to_uint n <> Decimal.Nil).
  { intros n. rewrite <- (DecimalNat.Unsigned.of_to n) at 1.
    rewrite DecimalNat.Unsigned.to_of. apply DecimalFacts.unorm_nonnil. }
  apply (f_equal NilZero.uint_of_string) in H.
  rewrite !NilZero.usu in H by apply Hn.
  injection H as H. now apply DecimalNat.Unsigned.to_uint_inj.
Qed.

Lemma indexed_keys {A : Type} (l : list A) i k :
  In k (map fst (indexed i l)) -> exists j, i <= j /\ k = index_key j.
Proof.
  revert i. induction l as [|x l IH]; intros i; simpl; [contradiction|].
  intros [<-|Hin]; [exists i; split; [lia | reflexivity]|].
  destruct (IH _ Hin) as (j & Hj & ->). exists j. split; [lia | reflexivity].
Qed.

Lemma indexed_NoDup {A : Type} (l : list A) i : NoDup (map fst (indexed i l)).
Proof.
  revert i. induction l as [|x l IH]; intros i; simpl; constructor; [|apply IH].
  intros Hin. apply indexed_keys in Hin. destruct Hin as (j & Hj & Heq).
  apply index_key_inj in Heq. lia.
Qed.

Lemma indexed_same {A B : Type} (Q : A -> B -> Prop) l l' i :
  Forall2 Q l l' -> Forall2 (same_keys Q) (indexed i l) (indexed i l').
Proof.
  intros HF. revert i. induction HF as [|x y l l' Hxy _ IH]; intros i; simpl; constructor.
  - split; [reflexivity | exact Hxy].
  - apply IH.
Qed.

Lemma has_key_lookup {A : Type} (o : list (string * A)) key :
  has_key o key = false -> lookup key o = None.
Proof.
  unfold has_key. induction o as [|[k v] o IH]; simpl; [reflexivity|].
  destruct (String.eqb k key); simpl; [discriminate | exact IH].
Qed.

Lemma filter_fst {A : Type} (f : string -> bool) (l : list (string * A)) :
  map fst (filter (fun p => f (fst p)) l) = filter f (map fst l).
Proof.
  induction l as [|p l IH]; simpl; [reflexivity|].
  destruct (f (fst p)); simpl; now rewrite IH.
Qed.

(** ** The second loop on the store *)

Lemma prop_sim_same h0 h m o hp :
  Forall2 (prop_sim h0 h m) o hp ->
  Forall2 (same_keys (fun es v => exists a, v = Heap.HRef a /\ array_sim h0 h m es a)) o hp.
Proof. intros H. exact H. Qed.

(** [for (key in message)] visits the keys of [enumerate]. *)
Lemma for_in_message h0 h m acc :
  acc_sim h0 h m acc ->
  Heap.for_in (Heap.HRef m) h = Ok (map fst (Bot.enumerate acc), h).
Proof.
  intros (Hm & He & pr & hprops & E & Hown & Hpr & Hkeys & Hlocs).
  apply prop_sim_same in Hown.
  unfold Heap.for_in, Heap.mbind, Heap.read. rewrite E.
  unfold Bot.enumerate. rewrite map_app, !map_map. cbn [fst].
  change (map (fun x : string * list FieldEntry => fst x) (own_property_order (own acc)))
    with (own_property_keys (own acc)).
  rewrite (own_property_keys_same _ _ _ Hown).
  destruct (proto acc) as [es|], pr as [|a]; simpl in Hpr; try contradiction.
  - destruct Hpr as (_ & refs & Ea & HF). rewrite Ea. unfold Heap.ret. do 2 f_equal.
    f_equal. rewrite map_map. cbn [fst].
    change (map (fun x : string * FieldEntry => fst x)
                (filter (fun p => negb (has_key (own acc) (fst p))) (indexed 0 es)))
      with (map fst (filter (fun p => (fun k => negb (has_key (own acc) k)) (fst p))
                            (indexed 0 es))).
    rewrite filter_fst. unfold Heap.index_keys.
    rewrite (same_keys_fst _ _ _ (indexed_same _ _ _ 0 HF)).
    apply filter_ext. intros k. now rewrite (has_key_same _ k _ _ Hown).
  - unfold Heap.ret. now rewrite app_nil_r.
Qed.

(** [message[key]] for a key of the enumeration. *)
Lemma get_field h0 h m atts acc key F :
  acc_sim h0 h m acc ->
  (forall pr hprops, nth_error h m = Some (Heap.CObject pr hprops) ->
                     ~ In atts (ref_locs hprops ++ proto_locs pr)) ->
  In (key, F) (Bot.enumerate acc) ->
  exists f, Heap.get (Heap.HRef m) key h = Ok (f, h) /\ fields_sim h0 h m atts F f.
Proof.
  intros (Hm & He & pr & hprops & E & Hown & Hpr & Hkeys & Hlocs) Hatts Hin.
  specialize (Hatts pr hprops E).
  pose proof (prop_sim_same _ _ _ _ _ Hown) as Hsame.
  unfold Heap.get, Heap.mbind, Heap.read. rewrite E.
  unfold Bot.enumerate in Hin. apply in_app_or in Hin. destruct Hin as [Hin|Hin].
  - apply in_map_iff in Hin. destruct Hin as ([k es] & Heq & Hin).
    simpl in Heq. injection Heq as -> <-.
    apply (Permutation_in _ (own_property_order_perm (own acc))) in Hin.
    assert (Hnd : NoDup (map fst (own acc))) by (now rewrite (same_keys_fst _ _ _ Hsame)).
    pose proof (lookup_same _ key _ _ Hsame) as Hl.
    rewrite (lookup_In key (own acc) es Hnd Hin) in Hl.
    destruct (lookup key hprops) as [v|] eqn:El; [|contradiction].
    destruct Hl as (a & -> & Hs). exists (Heap.HRef a). split; [reflexivity|].
    exists a. split; [reflexivity|]. split; [|exact Hs].
    intros ->. apply Hatts. apply in_or_app. left. now apply (lookup_ref_locs hprops key).
  - destruct (proto acc) as [es|], pr as [|a]; simpl in Hpr; try contradiction.
    destruct Hpr as (_ & refs & Ea & HF).
    apply in_map_iff in Hin. destruct Hin as ([k e] & Heq & Hin).
    simpl in Heq. injection Heq as -> <-.
    apply filter_In in Hin. destruct Hin as [Hin Hk]. simpl in Hk.
    apply negb_true_iff in Hk. rewrite (has_key_same _ key _ _ Hsame) in Hk.
    rewrite (has_key_lookup _ _ Hk), Ea. unfold Heap.element.
    pose proof (lookup_same _ key _ _ (indexed_same _ _ _ 0 HF)) as Hl.
    rewrite (lookup_In key (indexed 0 es) e (indexed_NoDup es 0) Hin) in Hl.
    destruct (lookup key (indexed 0 refs)) as [r|]; [|contradiction].
    exists r. split; [reflexivity | exact Hl].
Qed.

Lemma group_sim_kept h0 h h' m atts g r :
  objects_kept m h h' ->
  (forall a refs, a <> atts -> nth_error h a = Some (Heap.CArray refs) ->
                  nth_error h' a = Some (Heap.CArray refs)) ->
  group_sim h0 h m atts g r -> group_sim h0 h' m atts g r.
Proof.
  intros Hk Ha (l & c & F & f & -> & Hm & Hc & HF & E & Hs).
  exists l, c, F, f.
  split; [reflexivity|]. split; [exact Hm|]. split; [exact Hc|]. split; [exact HF|].
  split; [now apply (Hk l _ _ Hm E)|].
  destruct F as [es|e]; simpl in *.
  - destruct Hs as (a & -> & Hne & Hs). exists a.
    split; [reflexivity|]. split; [exact Hne|].
    apply (array_sim_kept h0 h h' m es a Hk); [|exact Hs]. intros refs. now apply Ha.
  - now apply (entry_sim_kept h0 h h' m e f Hk).
Qed.

Lemma acc_sim_kept h0 h h' m acc (X : Heap.loc -> Prop) :
  acc_sim h0 h m acc ->
  extends h0 h' -> objects_kept m h h' -> nth_error h' m = nth_error h m ->
  (forall a refs, ~ X a -> nth_error h a = Some (Heap.CArray refs) ->
                  nth_error h' a = Some (Heap.CArray refs)) ->
  (forall pr hprops, nth_error h m = Some (Heap.CObject pr hprops) ->
                     forall a, In a (ref_locs hprops ++ proto_locs pr) -> ~ X a) ->
  acc_sim h0 h' m acc.
Proof.
  intros (Hm & He & pr & hprops & E & Hown & Hpr & Hkeys & Hlocs) He' Hk Em Ha HX.
  specialize (HX pr hprops E).
  split; [exact Hm|]. split; [exact He'|]. exists pr, hprops.
  split; [now rewrite Em|]. split; [|split; [|split; assumption]].
  - apply (own_sim_kept h0 h h' m X _ _ Hk Ha); [|exact Hown].
    intros a Hin. apply HX. apply in_or_app. now left.
  - apply (proto_sim_kept h0 h h' m X _ _ Hk Ha); [|exact Hpr].
    intros a Hin. apply HX. apply in_or_app. now right.
Qed.

Lemma acc_sim_alloc h0 h m acc c :
  acc_sim h0 h m acc -> acc_sim h0 (h ++ [c]) m acc.
Proof.
  intros Hsim. pose proof Hsim as (Hm & He & pr & hprops & E & _).
  apply (acc_sim_kept h0 h _ m acc (fun _ => False) Hsim).
  - eapply extends_trans; [exact He | apply extends_alloc].
  - apply objects_kept_alloc.
  - apply alloc_old. now apply nth_error_lt in E.
  - intros a refs _ Ea. now apply alloc_Some.
  - auto.
Qed.

(** One turn of the second loop. *)
Lemma emit_step h0 h m ms atts acc done type token key F :
  emit_sim h0 h m ms atts acc done ->
  In (key, F) (Bot.enumerate acc) ->
  exists h', Heap.emit ms m type token key h = Ok (tt, h')
             /\ emit_sim h0 h' m ms atts acc (done ++ [emitted type token (key, F)]).
Proof.
  intros (Hsim & Hms & Hatts & Hfresh & Ems & grefs & Eatts & HG) Hin.
  pose proof Hsim as (Hm & He & pr & hprops & E & _).
  destruct (get_field h0 h m atts acc key F Hsim Hfresh Hin) as (f & Hget & Hf).
  unfold Heap.emit.
  change (Heap.mbind (Heap.get (Heap.HRef ms) "attachments") ?k h)
    with (match Heap.get (Heap.HRef ms) "attachments" h with
          | Ok (a, h') => k a h'
          | Throw e => Throw e
          end).
  assert (Hgms : Heap.get (Heap.HRef ms) "attachments" h = Ok (Heap.HRef atts, h)).
  { unfold Heap.get, Heap.mbind, Heap.read. rewrite Ems. reflexivity. }
  rewrite Hgms.
  change (Heap.mbind (Heap.get (Heap.HRef m) key) ?k h)
    with (match Heap.get (Heap.HRef m) key h with
          | Ok (a, h') => k a h'
          | Throw e => Throw e
          end).
  rewrite Hget.
  unfold Heap.mbind, Heap.alloc, Heap.array_push, Heap.mbind, Heap.read, Heap.write.
  rewrite (alloc_Some _ _ _ _ Eatts).
  destruct (push_cells h0 h m atts grefs
              (group_cell (emitted type token (key, F)) Bot.success_color f)
              _ _ He Hatts Eatts E) as (He2 & Hk2 & Em2 & Harr2 & Ea2 & En2).
  exists (Heap.update
            (h ++ [group_cell (emitted type token (key, F)) Bot.success_color f])
            atts (Heap.CArray (grefs ++ [Heap.HRef (List.length h)]))).
  split; [reflexivity|].
  split; [|split; [exact Hms|split; [exact Hatts|split; [|split]]]].
  - apply (acc_sim_kept h0 h _ m acc (fun a => a = atts) Hsim He2 Hk2).
    + now rewrite Em2.
    + intros a refs Hne. now apply Harr2.
    + intros pr' hprops' E' a Ha ->. now apply (Hfresh pr' hprops' E').
  - intros pr' hprops' E'. rewrite Em2 in E'. injection E' as <- <-. now apply Hfresh.
  - now apply (Hk2 ms _ _ Hms Ems).
  - eexists. split; [exact Ea2|]. apply Forall2_app.
    + eapply Forall2_impl; [|exact HG]. intros g r. now apply group_sim_kept.
    + constructor; [|constructor].
      exists (List.length h), Bot.success_color, F, f.
      split; [reflexivity|]. split; [now apply nth_error_lt in E|].
      split; [reflexivity|]. split; [reflexivity|]. split; [exact En2|].
      destruct F as [es|e]; simpl in *.
      * destruct Hf as (a & -> & Hne & Hs). exists a.
        split; [reflexivity|]. split; [exact Hne|].
        apply (array_sim_kept h0 h _ m es a Hk2); [|exact Hs].
        intros refs. now apply Harr2.
      * now apply (entry_sim_kept h0 h _ m e f Hk2).
Qed.

Lemma emit_all h0 m ms atts acc type token items :
  (forall x, In x items -> In x (Bot.enumerate acc)) ->
  forall h done,
    emit_sim h0 h m ms atts acc done ->
    exists h', Heap.loop (Heap.emit ms m type token) (map fst items) h = Ok (tt, h')
               /\ emit_sim h0 h' m ms atts acc (done ++ map (emitted type token) items).
Proof.
  induction items as [|[key F] items IH]; intros Hin h done Hsim; cbn [map Heap.loop fst].
  - exists h. split; [reflexivity | now rewrite app_nil_r].
  - destruct (emit_step h0 h m ms atts acc done type token key F Hsim
                (Hin _ (or_introl eq_refl))) as (h1 & Hstep & Hsim1).
    unfold Heap.mbind. rewrite Hstep.
    destruct (IH (fun x Hx => Hin x (or_intror Hx)) h1 _ Hsim1) as (h2 & Hloop & Hsim2).
    exists h2. split; [exact Hloop|]. now rewrite <- app_assoc in Hsim2.
Qed.

(** ** From the invariant to the payload *)

Lemma entry_at_sim h0 h m e r :
  extends h0 h -> entry_sim h0 h m e r -> entry_at h e r = true.
Proof.
  intros He (l & hv & -> & _ & E & Hv). unfold entry_at. rewrite E. unfold entry_cell.
  rewrite !String.eqb_refl, Bool.eqb_reflx. cbn [andb].
  now apply (value_at_extends h0 h He).
Qed.

Lemma fields_at_sim h0 h m atts F f :
  extends h0 h -> fields_sim h0 h m atts F f -> fields_at h F f = true.
Proof.
  intros He. destruct F as [es|e]; simpl.
  - intros (a & -> & _ & _ & refs & E & HF). rewrite E. apply all2b_Forall2.
    eapply Forall2_impl; [|exact HF]. intros e r. now apply entry_at_sim.
  - now apply entry_at_sim.
Qed.

Lemma group_at_sim h0 h m atts g r :
  extends h0 h -> group_sim h0 h m atts g r -> group_at h g r = true.
Proof.
  intros He (l & c & F & f & -> & _ & Hc & HF & E & Hs).
  unfold group_at. rewrite Hc, HF, E. unfold group_cell.
  rewrite !String.eqb_refl. cbn [andb]. now apply (fields_at_sim h0 h m atts).
Qed.

Lemma payload_at_sim h0 h m ms atts acc done :
  emit_sim h0 h m ms atts acc done ->
  payload_at h {| attachments := done |} (Heap.HRef ms) = true.
Proof.
  intros (Hsim & _ & _ & _ & Ems & grefs & Eatts & HG).
  pose proof Hsim as (_ & He & _).
  unfold payload_at. rewrite Ems, String.eqb_refl, Eatts. cbn [andb attachments].
  apply all2b_Forall2. eapply Forall2_impl; [|exact HG].
  intros g r. now apply group_at_sim.
Qed.

Lemma mbind_Ok {A B : Type} (c : Heap.M A) (k : A -> Heap.M B) h a h' :
  c h = Ok (a, h') -> Heap.mbind c k h = k a h'.
Proof. unfold Heap.mbind. now intros ->. Qed.

Lemma mbind_Throw {A B : Type} (c : Heap.M A) (k : A -> Heap.M B) h e :
  c h = Throw e -> Heap.mbind c k h = Throw e.
Proof. unfold Heap.mbind. now intros ->. Qed.

Lemma init_sim (h : Heap.heap) :
  acc_sim h
    ((h ++ [Heap.CArray []])
     ++ [Heap.CObject Heap.ProtoObject [("main", Heap.HRef (List.length h))]])
    (List.length (h ++ [Heap.CArray []]))
    {| own := [("main", [])]; proto := None |}.
Proof.
  assert (He : extends h ((h ++ [Heap.CArray []])
                          ++ [Heap.CObject Heap.ProtoObject
                                [("main", Heap.HRef (List.length h))]])).
  { eapply extends_trans; apply extends_alloc. }
  split; [rewrite length_app; simpl; lia|]. split; [exact He|].
  exists Heap.ProtoObject, [("main", Heap.HRef (List.length h))]. cbn [own proto].
  split; [apply alloc_new|]. split; [|split; [exact I|split]].
  - constructor; [|constructor]. split; [reflexivity|].
    exists (List.length h). split; [reflexivity|]. split; [simpl; lia|].
    exists []. split; [|constructor].
    rewrite alloc_old by (rewrite length_app; simpl; lia). apply alloc_new.
  - repeat constructor. intros [].
  - repeat constructor. intros [].
Qed.

(** The formatter on the store computes what the pure formatter
    computes: it throws when that one throws, and otherwise leaves the
    cells of the initial store as they were and returns a message
    object that holds the pure payload. *)
Lemma formatter_refines h R data type token :
  record_at h R data = true ->
  match Bot.responseFormatter R type token with
  | Ok p =>
      exists v h', Heap.responseFormatter data type token h = Ok (v, h')
                   /\ extends h h' /\ payload_at h' p v = true
  | Throw e => Heap.responseFormatter data type token h = Throw e
  end.
Proof.
  intros Hrec. unfold Bot.responseFormatter, Heap.responseFormatter.
  rewrite (mbind_Ok (Heap.alloc _) _ h _ _ eq_refl).
  rewrite (mbind_Ok (Heap.alloc _) _ _ _ _ eq_refl).
  pose proof (init_sim h) as Hinit.
  pose proof Hinit as (_ & He1 & _).
  rewrite (mbind_Ok _ _ _ _ _ (for_in_object h _ R data Hrec He1)).
  pose proof (first_loop_sim h _ R data (own_property_keys R) Hrec _ _ Hinit) as Hloop.
  destruct (for_each (Bot.classify R) (own_property_keys R)
              {| own := [("main", [])]; proto := None |}) as [acc|e]; cbn [bind].
  - destruct Hloop as (h2 & Hloop & Hsim).
    rewrite (mbind_Ok _ _ _ _ _ Hloop).
    rewrite (mbind_Ok (Heap.alloc _) _ h2 _ _ eq_refl).
    rewrite (mbind_Ok (Heap.alloc _) _ _ _ _ eq_refl).
    pose proof Hsim as (Hm & He2 & pr & hprops & Em & Hown & Hpr & _).
    assert (Hsim4 : acc_sim h
              ((h2 ++ [Heap.CArray []])
               ++ [Heap.CObject Heap.ProtoObject
                     [("attachments", Heap.HRef (List.length h2))]])
              (List.length (h ++ [Heap.CArray []])) acc).
    { now do 2 apply acc_sim_alloc. }
    assert (Hemit : emit_sim h
              ((h2 ++ [Heap.CArray []])
               ++ [Heap.CObject Heap.ProtoObject
                     [("attachments", Heap.HRef (List.length h2))]])
              (List.length (h ++ [Heap.CArray []]))
              (List.length (h2 ++ [Heap.CArray []])) (List.length h2) acc []).
    { split; [exact Hsim4|]. pose proof (nth_error_lt _ _ _ Em) as Hmlt.
      split; [rewrite (length_app h2); cbn [List.length]; lia|].
      split; [destruct He2; lia|]. split; [|split].
      - intros pr' hprops' E' Hin.
        rewrite (alloc_Some _ _ _ _ (alloc_Some _ _ _ _ Em)) in E'.
        injection E' as <- <-.
        apply (tracked_lt _ _ _ _ _ _ _ Hown Hpr) in Hin. lia.
      - apply alloc_new.
      - exists []. split; [|constructor].
        rewrite alloc_old by (rewrite length_app; cbn [List.length]; lia). apply alloc_new. }
    rewrite (mbind_Ok _ _ _ _ _ (for_in_message _ _ _ _ Hsim4)).
    destruct (emit_all h _ _ _ acc type token (Bot.enumerate acc) (fun x Hx => Hx) _ []
                Hemit) as (h5 & Hloop5 & Hsim5).
    rewrite (mbind_Ok _ _ _ _ _ Hloop5).
    eexists. exists h5. split; [reflexivity|]. split.
    + now destruct Hsim5 as ((_ & He5 & _) & _).
    + apply (payload_at_sim _ _ _ _ _ _ _ Hsim5).
  - now rewrite (mbind_Throw _ _ _ _ Hloop).
Qed.

(** ** A payload stays readable in a later store *)

Lemma all2b_mono {A B : Type} (R R' : A -> B -> bool) xs ys :
  (forall x y, R x y = true -> R' x y = true) ->
  all2b R xs ys = true -> all2b R' xs ys = true.
Proof.
  intros H. apply all2b_impl. apply Forall_forall. intros x _ y. apply H.
Qed.

Lemma entry_at_extends h h' e v :
  extends h h' -> entry_at h e v = true -> entry_at h' e v = true.
Proof.
  intros He H. unfold entry_at in *. destruct v; try discriminate.
  destruct (nth_error h l) as [c|] eqn:E; [|discriminate].
  rewrite (extends_Some _ _ _ _ He E). break_match H.
  apply andb_true_iff in H. destruct H as [H Hv]. rewrite H. cbn [andb].
  now apply (value_at_extends h h' He).
Qed.

Lemma fields_at_extends h h' F v :
  extends h h' -> fields_at h F v = true -> fields_at h' F v = true.
Proof.
  intros He H. destruct F as [es|e]; simpl in *; [|now apply (entry_at_extends h h')].
  destruct v; try discriminate.
  destruct (nth_error h l) as [[|refs]|] eqn:E; try discriminate.
  rewrite (extends_Some _ _ _ _ He E). revert H. apply all2b_mono.
  intros e r. now apply entry_at_extends.
Qed.

Lemma group_at_extends h h' g v :
  extends h h' -> group_at h g v = true -> group_at h' g v = true.
Proof.
  intros He H. unfold group_at in *. destruct v; try discriminate.
  destruct (color g) as [c|]; [|discriminate]. destruct (fields g) as [F|]; [|discriminate].
  destruct (nth_error h l) as [cl|] eqn:E; [|discriminate].
  rewrite (extends_Some _ _ _ _ He E). break_match H.
  apply andb_true_iff in H. destruct H as [H Hf]. rewrite H. cbn [andb].
  now apply (fields_at_extends h h' F _ He).
Qed.

Lemma payload_at_extends h h' p v :
  extends h h' -> payload_at h p v = true -> payload_at h' p v = true.
Proof.
  intros He H. unfold payload_at in *. destruct v; try discriminate.
  destruct (nth_error h l) as [c|] eqn:E; [|discriminate].
  rewrite (extends_Some _ _ _ _ He E). break_match H.
  apply andb_true_iff in H. destruct H as [Hk H]. rewrite Hk. cbn [andb].
  destruct (nth_error h l0) as [[|refs]|] eqn:Ea; try discriminate.
  rewrite (extends_Some _ _ _ _ He Ea). revert H. apply all2b_mono.
  intros g r. now apply group_at_extends.
Qed.

(** ** A cell holds one value *)

Lemma all2b_functional {A B : Type} (R R' : A -> B -> bool) xs xs' ys :
  Forall (fun x => forall x' y, R x y = true -> R' x' y = true -> x = x') xs ->
  all2b R xs ys = true -> all2b R' xs' ys = true -> xs = xs'.
Proof.
  intros HF. revert xs' ys. induction HF as [|x xs Hx _ IH]; intros [|x' xs'] [|y ys];
    simpl; try discriminate; [reflexivity|].
  intros H H'. apply andb_true_iff in H, H'. destruct H as [H1 H2], H' as [H1' H2'].
  f_equal; [now apply (Hx x' y) | now apply (IH xs' ys)].
Qed.

Lemma json_at_functional h j :
  forall j' stack stack' v,
    json_at h stack j v = true -> json_at h stack' j' v = true -> j = j'.
Proof.
  induction j as [| b | n | s | elems IH | props IH] using json_induction;
    intros j' stack stack' v H H'.
  - destruct v; try discriminate. destruct j'; try discriminate. reflexivity.
  - destruct v; try discriminate. destruct j'; try discriminate. simpl in *.
    apply Bool.eqb_prop in H, H'. congruence.
  - destruct v; try discriminate. destruct j'; try discriminate. simpl in *.
    apply Z.eqb_eq in H, H'. congruence.
  - destruct v; try discriminate. destruct j'; try discriminate. simpl in *.
    apply String.eqb_eq in H, H'. congruence.
  - destruct v; try discriminate. simpl in H.
    apply andb_true_iff in H. destruct H as [_ H].
    destruct (nth_error h l) as [[|els]|] eqn:E; try discriminate.
    destruct j'; try discriminate; simpl in H'; rewrite E in H';
      apply andb_true_iff in H'; destruct H' as [_ H']; try discriminate.
    f_equal. apply (all2b_functional _ _ _ _ els) with (2 := H) (3 := H').
    eapply Forall_impl; [|exact IH]. intros x Hx x' y. apply Hx.
  - destruct v; try discriminate. simpl in H.
    apply andb_true_iff in H. destruct H as [_ H].
    destruct (nth_error h l) as [[[|] hprops|]|] eqn:E; try discriminate.
    destruct j'; try discriminate; simpl in H'; rewrite E in H';
      apply andb_true_iff in H'; destruct H' as [_ H']; try discriminate.
    f_equal. apply (all2b_functional _ _ _ _ hprops) with (2 := H) (3 := H').
    eapply Forall_impl; [|exact IH]. intros [k x] Hx [k' x'] [k0 y] Hy Hy'. simpl in *.
    apply andb_true_iff in Hy, Hy'. destruct Hy as [Hk Hy], Hy' as [Hk' Hy'].
    apply String.eqb_eq in Hk, Hk'. subst. f_equal.
    now apply (Hx x' (l :: stack) (l :: stack') y).
Qed.

Lemma value_at_functional h V :
  forall V' v, value_at h V v = true -> value_at h V' v = true -> V = V'.
Proof.
  induction V as [| | b | n | s | f | elems | props IH] using Value_induction;
    intros V' v H H'.
  - destruct v; try discriminate. destruct V'; try discriminate. reflexivity.
  - destruct v; try discriminate. destruct V'; try discriminate. reflexivity.
  - destruct v; try discriminate. destruct V'; try discriminate. simpl in *.
    apply Bool.eqb_prop in H, H'. congruence.
  - destruct v; try discriminate. destruct V'; try discriminate. simpl in *.
    apply Z.eqb_eq in H, H'. congruence.
  - destruct v; try discriminate. destruct V'; try discriminate. simpl in *.
    apply String.eqb_eq in H, H'. congruence.
  - destruct v; try discriminate. destruct V'; try discriminate. simpl in *.
    apply String.eqb_eq in H, H'. congruence.
  - destruct v; try discriminate.
    destruct (value_at_array _ _ _ H) as (l' & els & Heq & E). injection Heq as <-.
    destruct V'; try discriminate.
    + assert (E' : JArr elems = JArr elems0)
        by (apply (json_at_functional h _ _ [] [] (Heap.HRef l) H H')).
      now injection E' as ->.
    + simpl in H'. rewrite E in H'. discriminate.
  - destruct v; try discriminate. simpl in H.
    destruct (nth_error h l) as [[[|] hprops|]|] eqn:E; try discriminate.
    destruct V'; try discriminate.
    + simpl in H'. rewrite E in H'. discriminate.
    + simpl in H'. rewrite E in H'.
      f_equal. apply (all2b_functional _ _ _ _ hprops) with (2 := H) (3 := H').
      eapply Forall_impl; [|exact IH]. intros [k x] Hx [k' x'] [k0 y] Hy Hy'. simpl in *.
      apply andb_true_iff in Hy, Hy'. destruct Hy as [Hk Hy], Hy' as [Hk' Hy'].
      apply String.eqb_eq in Hk, Hk'. subst. f_equal. now apply (Hx x' y).
Qed.

Lemma entry_at_functional h e e' v :
  entry_at h e v = true -> entry_at h e' v = true -> e = e'.
Proof.
  unfold entry_at. intros H H'. destruct v; try discriminate.
  destruct (nth_error h l) as [c|]; [|discriminate]. break_match H.
  repeat (apply andb_true_iff in H; destruct H as [H ?]).
  repeat (apply andb_true_iff in H'; destruct H' as [H' ?]).
  destruct e as [t v s'], e' as [t' v' s'']. simpl in *.
  repeat match goal with
         | Hs : String.eqb _ _ = true |- _ => apply String.eqb_eq in Hs
         | Hb : Bool.eqb _ _ = true |- _ => apply Bool.eqb_prop in Hb
         end.
  subst. f_equal. eapply value_at_functional; eassumption.
Qed.

Lemma fields_at_functional h F F' v :
  fields_at h F v = true -> fields_at h F' v = true -> F = F'.
Proof.
  intros H H'. destruct F as [es|e], F' as [es'|e']; simpl in *.
  - destruct v; try discriminate.
    destruct (nth_error h l) as [[|refs]|]; try discriminate. f_equal.
    apply (all2b_functional _ _ _ _ refs) with (2 := H) (3 := H').
    apply Forall_forall. intros e _ e' r. apply entry_at_functional.
  - exfalso. unfold entry_at in H'. destruct v; try discriminate.
    destruct (nth_error h l) as [[|refs]|]; discriminate.
  - exfalso. unfold entry_at in H. destruct v; try discriminate.
    destruct (nth_error h l) as [[|refs]|]; discriminate.
  - f_equal. eapply entry_at_functional; eassumption.
Qed.

Lemma group_at_functional h g g' v :
  group_at h g v = true -> group_at h g' v = true -> g = g'.
Proof.
  unfold group_at. intros H H'. destruct v; try discriminate.
  destruct g as [[c|] label [F|]], g' as [[c'|] label' [F'|]]; simpl in *; try discriminate.
  destruct (nth_error h l) as [cl|]; [|discriminate]. break_match H.
  repeat (apply andb_true_iff in H; destruct H as [H ?]).
  repeat (apply andb_true_iff in H'; destruct H' as [H' ?]).
  repeat match goal with
         | Hs : String.eqb _ _ = true |- _ => apply String.eqb_eq in Hs
         end.
  subst. f_equal. f_equal. eapply fields_at_functional; eassumption.
Qed.

(** A message object of the store holds one payload only. *)
Lemma payload_at_functional h p p' v :
  payload_at h p v = true -> payload_at h p' v = true -> p = p'.
Proof.
  unfold payload_at. intros H H'. destruct v; try discriminate.
  destruct (nth_error h l) as [c|]; [|discriminate]. break_match H.
  apply andb_true_iff in H, H'. destruct H as [_ H], H' as [_ H'].
  destruct (nth_error h l0) as [[|refs]|]; try discriminate.
  destruct p as [gs], p' as [gs']. simpl in *. f_equal.
  apply (all2b_functional _ _ _ _ refs) with (2 := H) (3 := H').
  apply Forall_forall. intros g _ g' r. apply group_at_functional.
Qed.

End Store.

(** ** Determinism and the frame of the formatter *)

(** C8: two runs of the formatter on the same record give structurally
    identical payloads, wherever the record and the results sit in the
    store; either both runs throw or both return a message object
    holding the payload of the pure formatter.  In particular, a second
    run on the store left by the first returns that payload again, and
    the first result still holds it. *)
Theorem formatter_deterministic h1 d1 h2 d2 R type token :
  Rep.record_at h1 R d1 = true ->
  Rep.record_at h2 R d2 = true ->
  match Heap.responseFormatter d1 type token h1, Heap.responseFormatter d2 type token h2 with
  | Ok (v1, g1), Ok (v2, g2) =>
      exists p, Bot.responseFormatter R type token = Ok p
                /\ Rep.payload_at g1 p v1 = true /\ Rep.payload_at g2 p v2 = true
  | Throw e1, Throw e2 => e1 = e2
  | _, _ => False
  end
  /\ forall v1 g1,
       Heap.responseFormatter d1 type token h1 = Ok (v1, g1) ->
       exists v2 g2 p,
         Heap.responseFormatter d1 type token g1 = Ok (v2, g2)
         /\ Rep.payload_at g1 p v1 = true
         /\ Rep.payload_at g2 p v2 = true
         /\ Rep.payload_at g2 p v1 = true.
Proof.
  intros H1 H2.
  pose proof (formatter_refines h1 R d1 type token H1) as R1.
  pose proof (formatter_refines h2 R d2 type token H2) as R2.
  destruct (Bot.responseFormatter R type token) as [p|e] eqn:Ep.
  - destruct R1 as (v1 & g1 & E1 & He1 & P1). destruct R2 as (v2 & g2 & E2 & He2 & P2).
    rewrite E1, E2. split; [exists p; auto|].
    intros v g [= <- <-].
    assert (H1' : Rep.record_at g1 R d1 = true).
    { now apply (value_at_extends h1 g1 He1). }
    pose proof (formatter_refines g1 R d1 type token H1') as R3. rewrite Ep in R3.
    destruct R3 as (v3 & g3 & E3 & He3 & P3).
    exists v3, g3, p. repeat split; try assumption.
    now apply (payload_at_extends g1 g3).
  - rewrite R1, R2. split; [reflexivity|]. intros v g. discriminate.
Qed.

Lemma formatter_deterministic_witness :
  match
    Heap.responseFormatter 0 "gateway" "T1"
      [ Heap.CObject Heap.ProtoObject
          [("token", Heap.HStr "T1"); ("details", Heap.HRef 1); ("tags", Heap.HRef 2)];
        Heap.CObject Heap.ProtoObject [("name", Heap.HStr "x")];
        Heap.CArray [Heap.HNum 1; Heap.HNull] ],
    Heap.responseFormatter 3 "gateway" "T1"
      [ Heap.CArray [Heap.HNum 1; Heap.HNull];
        Heap.CArray [];
        Heap.CObject Heap.ProtoObject [("name", Heap.HStr "x")];
        Heap.CObject Heap.ProtoObject
          [("token", Heap.HStr "T1"); ("details", Heap.HRef 2); ("tags", Heap.HRef 0)] ]
  with
  | Ok (v1, g1), Ok (v2, g2) =>
      exists p,
        Bot.responseFormatter
          [("token", VStr "T1"); ("details", VObj [("name", VStr "x")]);
           ("tags", VArr [JNum 1; JNull])] "gateway" "T1" = Ok p
        /\ Rep.payload_at g1 p v1 = true /\ Rep.payload_at g2 p v2 = true
  | Throw e1, Throw e2 => e1 = e2
  | _, _ => False
  end
  /\ forall v1 g1,
       Heap.responseFormatter 0 "gateway" "T1"
         [ Heap.CObject Heap.ProtoObject
             [("token", Heap.HStr "T1"); ("details", Heap.HRef 1); ("tags", Heap.HRef 2)];
           Heap.CObject Heap.ProtoObject [("name", Heap.HStr "x")];
           Heap.CArray [Heap.HNum 1; Heap.HNull] ] = Ok (v1, g1) ->
       exists v2 g2 p,
         Heap.responseFormatter 0 "gateway" "T1" g1 = Ok (v2, g2)
         /\ Rep.payload_at g1 p v1 = true
         /\ Rep.payload_at g2 p v2 = true
         /\ Rep.payload_at g2 p v1 = true.
Proof.
  apply (formatter_deterministic
           [ Heap.CObject Heap.ProtoObject
               [("token", Heap.HStr "T1"); ("details", Heap.HRef 1); ("tags", Heap.HRef 2)];
             Heap.CObject Heap.ProtoObject [("name", Heap.HStr "x")];
             Heap.CArray [Heap.HNum 1; Heap.HNull] ]
           0
           [ Heap.CArray [Heap.HNum 1; Heap.HNull];
             Heap.CArray [];
             Heap.CObject Heap.ProtoObject [("name", Heap.HStr "x")];
             Heap.CObject Heap.ProtoObject
               [("token", Heap.HStr "T1"); ("details", Heap.HRef 2); ("tags", Heap.HRef 0)] ]
           3
           [("token", VStr "T1"); ("details", VObj [("name", VStr "x")]);
            ("tags", VArr [JNum 1; JNull])]
           "gateway" "T1");
    reflexivity.
Defined.

(** C9: the formatter never writes to a cell that existed when it was
    called: whenever it returns, every cell of the initial store is
    unchanged, so the record (with its nested records and arrays) still
    sits at [data]; and it returns whenever the pure formatter does. *)
Theorem formatter_leaves_input h R data type token :
  Rep.record_at h R data = true ->
  (forall p, Bot.responseFormatter R type token = Ok p ->
             exists v h', Heap.responseFormatter data type token h = Ok (v, h'))
  /\ forall v h',
       Heap.responseFormatter data type token h = Ok (v, h') ->
       Rep.unchanged h h' /\ Rep.record_at h' R data = true.
Proof.
  intros Hrec. pose proof (formatter_refines h R data type token Hrec) as Href.
  destruct (Bot.responseFormatter R type token) as [p|e].
  - destruct Href as (v & h' & E & He & _). split; [intros; eauto|].
    intros v0 h0 Hrun. rewrite E in Hrun. injection Hrun as <- <-.
    split; [now destruct He | now apply (value_at_extends h h' He)].
  - split; [discriminate|]. intros v h' Hrun. rewrite Href in Hrun. discriminate.
Qed.

Lemma formatter_leaves_input_witness :
  (forall p,
     Bot.responseFormatter
       [("token", VStr "T1"); ("details", VObj [("name", VStr "x")]);
        ("tags", VArr [JNum 1; JNull])] "gateway" "T1" = Ok p ->
     exists v h',
       Heap.responseFormatter 0 "gateway" "T1"
         [ Heap.CObject Heap.ProtoObject
             [("token", Heap.HStr "T1"); ("details", Heap.HRef 1); ("tags", Heap.HRef 2)];
           Heap.CObject Heap.ProtoObject [("name", Heap.HStr "x")];
           Heap.CArray [Heap.HNum 1; Heap.HNull] ] = Ok (v, h'))
  /\ forall v h',
       Heap.responseFormatter 0 "gateway" "T1"
         [ Heap.CObject Heap.ProtoObject
             [("token", Heap.HStr "T1"); ("details", Heap.HRef 1); ("tags", Heap.HRef 2)];
           Heap.CObject Heap.ProtoObject [("name", Heap.HStr "x")];
           Heap.CArray [Heap.HNum 1; Heap.HNull] ] = Ok (v, h') ->
       Rep.unchanged
         [ Heap.CObject Heap.ProtoObject
             [("token", Heap.HStr "T1"); ("details", Heap.HRef 1); ("tags", Heap.HRef 2)];
           Heap.CObject Heap.ProtoObject [("name", Heap.HStr "x")];
           Heap.CArray [Heap.HNum 1; Heap.HNull] ] h'
       /\ Rep.record_at h'
            [("token", VStr "T1"); ("details", VObj [("name", VStr "x")]);
             ("tags", VArr [JNum 1; JNull])] 0 = true.
Proof.
  apply (formatter_leaves_input
           [ Heap.CObject Heap.ProtoObject
               [("token", Heap.HStr "T1"); ("details", Heap.HRef 1); ("tags", Heap.HRef 2)];
             Heap.CObject Heap.ProtoObject [("name", Heap.HStr "x")];
             Heap.CArray [Heap.HNum 1; Heap.HNull] ]
           [("token", VStr "T1"); ("details", VObj [("name", VStr "x")]);
            ("tags", VArr [JNum 1; JNull])]
           0 "gateway" "T1").
  reflexivity.
Defined.

(** ** Totality on the store *)





(** The store must hold JSON data: with an array that contains itself,
    or a BigInt in an array, [JSON.stringify] throws although no value
    is [undefined]. *)
Lemma formatter_throws_on_cycle :
  Heap.responseFormatter 0 "t" "k"
    [ Heap.CObject Heap.ProtoObject [("a", Heap.HRef 1)]; Heap.CArray [Heap.HRef 1] ]
  = Throw TypeError.
Proof. reflexivity. Qed.

Lemma formatter_throws_on_bigint :
  Heap.responseFormatter 0 "t" "k"
    [ Heap.CObject Heap.ProtoObject [("a", Heap.HRef 1)]; Heap.CArray [Heap.HBigInt 1] ]
  = Throw TypeError.
Proof. reflexivity. Qed.

(** * Further properties *)

(** ** When the formatter throws *)

(** X1: on a store that holds a record of JSON data, the formatter
    throws exactly when a top-level key of the record holds
    [undefined]; in every other case it returns. *)
Theorem formatter_throws_iff_undefined h R data type token :
  Rep.record_at h R data = true ->
  Heap.responseFormatter data type token h = Throw TypeError
  <-> exists k, In k (map fst R) /\ prop_get R k = VUndefined.
Proof.
  intros Hrec. pose proof (formatter_refines h R data type token Hrec) as Href.
  destruct (Bot.responseFormatter R type token) as [p|e] eqn:E.
  - destruct Href as (v & h' & Hrun & _). split.
    + intros Hthrow. rewrite Hrun in Hthrow. discriminate.
    + intros (k & Hin & Hu).
      rewrite (formatter_throws R type token k Hin Hu) in E. discriminate.
  - split.
    + intros _. exact (formatter_Throw_undefined R type token e E).
    + intros _. rewrite Href. now destruct e.
Qed.

Lemma formatter_throws_iff_undefined_witness :
  Heap.responseFormatter 0 "gateway" "T1"
    [ Heap.CObject Heap.ProtoObject [("token", Heap.HStr "T1"); ("state", Heap.HUndefined)] ]
  = Throw TypeError
  <-> exists k, In k (map fst [("token", VStr "T1"); ("state", VUndefined)])
                /\ prop_get [("token", VStr "T1"); ("state", VUndefined)] k = VUndefined.
Proof.
  apply (formatter_throws_iff_undefined
           [ Heap.CObject Heap.ProtoObject
               [("token", Heap.HStr "T1"); ("state", Heap.HUndefined)] ]
           [("token", VStr "T1"); ("state", VUndefined)] 0 "gateway" "T1").
  reflexivity.
Defined.



(** ** What every payload has *)

Lemma lookup_not_None_In {A : Type} key (o : list (string * A)) :
  lookup key o <> None -> exists v, In (key, v) o.
Proof.
  destruct (lookup key o) as [v|] eqn:E; [|congruence].
  intros _. exists v. now apply lookup_Some_In.
Qed.

(** X2: whatever the record, a payload that the formatter returns has
    a group with the label of the request and an array of fields; it
    is never empty. *)
Theorem main_group_always data type token p :
  Bot.responseFormatter data type token = Ok p ->
  exists fs, In (main_group type token fs) (attachments p).
Proof.
  unfold Bot.responseFormatter. intros H.
  destruct (for_each (Bot.classify data) (own_property_keys data)
              {| own := [("main", [])]; proto := None |}) as [m|e] eqn:E; [|discriminate].
  simpl in H. injection H as <-. cbn [attachments].
  assert (Hm : has_target "main" m).
  { eapply first_loop_target; [|exact E]. unfold has_target. simpl. discriminate. }
  unfold has_target in Hm. rewrite (proj2 (String.eqb_neq _ _)) in Hm by discriminate.
  destruct (lookup_not_None_In _ _ Hm) as (fs & Hin). exists fs.
  apply in_map_iff. exists ("main", FieldsArray fs). split; [reflexivity|].
  unfold Bot.enumerate. apply in_or_app. left.
  apply in_map_iff. exists ("main", fs). split; [reflexivity|].
  now apply (Permutation_in _ (Permutation_sym (own_property_order_perm (own m)))).
Qed.

Lemma main_group_always_witness :
  exists fs,
    In (main_group "gateway" "T1" fs)
       (attachments {| attachments := [main_group "gateway" "T1" [sub_entry [] "a"]] |}).
Proof.
  apply (main_group_always [("x", VNum 1); ("main", VObj [("a", VUndefined)])]).
  reflexivity.
Defined.

Lemma set_prop_Forall {A : Type} (P : string * A -> Prop) o key v :
  Forall P o -> P (key, v) -> Forall P (set_prop o key v).
Proof.
  intros HF Hv. induction HF as [|[k w] o Hw HF IH]; simpl.
  - now repeat constructor.
  - destruct (String.eqb_spec k key) as [->|Hne]; constructor; assumption.
Qed.

Lemma assign_empty_short m key : acc_short m -> acc_short (Bot.assign_empty m key).
Proof.
  intros [Ho Hp]. unfold Bot.assign_empty, acc_short.
  destruct (String.eqb key "__proto__"); cbn [own proto].
  - split; [exact Ho | constructor].
  - split; [|exact Hp]. apply set_prop_Forall; [exact Ho | constructor].
Qed.

Lemma push_short m key e m' :
  acc_short m -> short e = true -> Bot.push m key e = Ok m' -> acc_short m'.
Proof.
  intros [Ho Hp] He. unfold Bot.push.
  destruct (String.eqb key "__proto__").
  - destruct (proto m) as [arr|]; [|discriminate]. intros [= <-]. split; [exact Ho|].
    cbn [proto]. apply Forall_app. split; [exact Hp | now repeat constructor].
  - destruct (lookup key (own m)) as [arr|] eqn:E; [|discriminate]. intros [= <-].
    split; [|exact Hp]. cbn [own]. apply set_prop_Forall; [exact Ho|]. cbn [snd].
    apply Forall_app. split; [|now repeat constructor].
    apply lookup_Some_In in E. rewrite Forall_forall in Ho. exact (Ho _ E).
Qed.

Lemma push_all_short key (f : string -> FieldEntry) subKeys :
  (forall k, short (f k) = true) ->
  forall m m', acc_short m ->
    for_each (fun msg subKey => Bot.push msg key (f subKey)) subKeys m = Ok m' ->
    acc_short m'.
Proof.
  intros Hf. induction subKeys as [|sk sks IH]; intros m m' Hm; simpl.
  - now intros [= <-].
  - destruct (Bot.push m key (f sk)) as [m1|] eqn:E; simpl; [|discriminate].
    apply IH. now apply (push_short m key (f sk)).
Qed.

Lemma classify_short data m key m' :
  acc_short m -> Bot.classify data m key = Ok m' -> acc_short m'.
Proof.
  intros Hm. unfold Bot.classify.
  destruct (Bot.is_plain_object (prop_get data key)) as [[|]|]; simpl; try discriminate.
  - apply push_all_short; [reflexivity | now apply assign_empty_short].
  - destruct (Bot.is_null_or_array (prop_get data key)) as [b|]; simpl; [|discriminate].
    now apply push_short.
Qed.

Lemma first_loop_short data keys :
  forall m m', acc_short m -> for_each (Bot.classify data) keys m = Ok m' -> acc_short m'.
Proof.
  induction keys as [|k keys IH]; intros m m' Hm; simpl.
  - now intros [= <-].
  - destruct (Bot.classify data m k) as [m1|] eqn:E; simpl; [|discriminate].
    apply IH. now apply (classify_short data m k).
Qed.

Lemma indexed_In {A : Type} (l : list A) i k x : In (k, x) (indexed i l) -> In x l.
Proof.
  revert i. induction l as [|y l IH]; intros i; simpl; [contradiction|].
  intros [[= _ <-]|Hin]; [now left | right; now apply (IH (S i))].
Qed.

(** X3: whatever the record, every group of a returned payload has the
    fixed colour and a ['fields'] key, and every entry under it is
    marked short. *)
Theorem groups_are_uniform data type token p :
  Bot.responseFormatter data type token = Ok p ->
  Forall (fun g => color g = Some "#36a64f"
                   /\ exists F, fields g = Some F /\ all_short F)
         (attachments p).
Proof.
  unfold Bot.responseFormatter. intros H.
  destruct (for_each (Bot.classify data) (own_property_keys data)
              {| own := [("main", [])]; proto := None |}) as [m|e] eqn:E; [|discriminate].
  simpl in H. injection H as <-. cbn [attachments].
  assert (Hs : acc_short m).
  { apply (first_loop_short data _ _ m) in E; [exact E|].
    split; [repeat constructor | exact I]. }
  destruct Hs as [Ho Hp]. apply Forall_forall. intros g Hin.
  apply in_map_iff in Hin. destruct Hin as ([k F] & <- & Hin). cbn [color fields snd].
  split; [reflexivity|]. exists F. split; [reflexivity|].
  unfold Bot.enumerate in Hin. apply in_app_or in Hin. destruct Hin as [Hin|Hin].
  - apply in_map_iff in Hin. destruct Hin as ([k' es] & [= _ <-] & Hin).
    apply (Permutation_in _ (own_property_order_perm (own m))) in Hin.
    rewrite Forall_forall in Ho. exact (Ho _ Hin).
  - destruct (proto m) as [arr|]; [|contradiction].
    apply in_map_iff in Hin. destruct Hin as ([k' e] & [= _ <-] & Hin).
    apply filter_In in Hin. destruct Hin as [Hin _]. apply indexed_In in Hin.
    rewrite Forall_forall in Hp. exact (Hp _ Hin).
Qed.

Lemma groups_are_uniform_witness :
  Forall (fun g => color g = Some "#36a64f"
                   /\ exists F, fields g = Some F /\ all_short F)
         (attachments
            {| attachments :=
                 [ main_group "t" "k" [];
                   {| color := Some "#36a64f"; pretext := "0";
                      fields := Some (FieldsEntry (sub_entry [("q", VNull)] "q")) |} ] |}).
Proof.
  apply (groups_are_uniform [("__proto__", VObj [("q", VNull)])] "t" "k").
  reflexivity.
Defined.

(** ** How many groups *)

Lemma filter_length_perm {A : Type} (f : A -> bool) l l' :
  Permutation l l' -> List.length (filter f l) = List.length (filter f l').
Proof.
  induction 1 as [| x l l' _ IH | x y l | l l' l'' _ IH1 _ IH2]; simpl.
  - reflexivity.
  - destruct (f x); simpl; now rewrite IH.
  - destruct (f x), (f y); reflexivity.
  - now rewrite IH1.
Qed.

Lemma filter_keys_length (f : Value -> bool) data :
  NoDup (map fst data) ->
  List.length (filter (fun k => f (prop_get data k)) (map fst data))
  = List.length (filter (fun q => f (snd q)) data).
Proof.
  intros Hnd.
  assert (H : forall l, (forall q, In q l -> In q data) ->
              List.length (filter (fun k => f (prop_get data k)) (map fst l))
              = List.length (filter (fun q => f (snd q)) l)).
  { induction l as [|[k v] l IH]; intros Hl; simpl; [reflexivity|].
    assert (Hv : prop_get data k = v).
    { unfold prop_get. now rewrite (lookup_In k data v Hnd (Hl _ (or_introl eq_refl))). }
    rewrite Hv. assert (IH' := IH (fun q Hq => Hl q (or_intror Hq))).
    destruct (f v); simpl; now rewrite IH'. }
  apply H. auto.
Qed.

(** X4: on a regular record the payload has one group for each nested
    record and one more, the main group, whose entries are as many as
    the other keys. *)
Theorem payload_sizes data type token :
  regular data ->
  exists p before fs after,
    Bot.responseFormatter data type token = Ok p
    /\ attachments p = before ++ main_group type token fs :: after
    /\ List.length (before ++ after)
       = List.length (filter (fun q => is_group (snd q)) data)
    /\ List.length fs
       = List.length (filter (fun q => negb (is_group (snd q))) data).
Proof.
  intros Hreg. pose proof Hreg as [Hnd _ _].
  exists {| attachments :=
              map named_group (index_groups data)
              ++ main_group type token (main_fields data (own_property_keys data))
              :: map named_group (named_groups data) |},
         (map named_group (index_groups data)),
         (main_fields data (own_property_keys data)),
         (map named_group (named_groups data)).
  split; [apply (formatter_regular _ _ _ Hreg)|]. split; [reflexivity|]. split.
  - rewrite <- map_app, length_map.
    change (index_groups data ++ named_groups data)
      with (own_property_order (groups data (own_property_keys data))).
    rewrite (Permutation_length
               (own_property_order_perm (groups data (own_property_keys data)))).
    unfold groups. rewrite length_map.
    rewrite (filter_length_perm _ _ _ (own_property_keys_perm data)).
    now apply filter_keys_length.
  - unfold main_fields. rewrite length_map.
    rewrite (filter_length_perm _ _ _ (own_property_keys_perm data)).
    now apply (filter_keys_length (fun v => negb (is_group v))).
Qed.

Lemma payload_sizes_witness :
  exists p before fs after,
    Bot.responseFormatter
      [("token", VStr "T1"); ("3", VObj []); ("errors", VObj [("a", VNull)])]
      "gateway" "T1" = Ok p
    /\ attachments p = before ++ main_group "gateway" "T1" fs :: after
    /\ List.length (before ++ after)
       = List.length (filter (fun q => is_group (snd q))
                        [("token", VStr "T1"); ("3", VObj []);
                         ("errors", VObj [("a", VNull)])])
    /\ List.length fs
       = List.length (filter (fun q => negb (is_group (snd q)))
                        [("token", VStr "T1"); ("3", VObj []);
                         ("errors", VObj [("a", VNull)])]).
Proof.
  apply payload_sizes. constructor.
  - repeat constructor; simpl; intuition discriminate.
  - simpl. intros k v [H|[H|[H|[]]]]; injection H as <- <-; reflexivity.
  - simpl. intros k v [H|[H|[H|[]]]]; injection H as <- <-; intros Hg;
      try discriminate; split; discriminate.
Defined.

(** ** The reply to a command *)

(** X5: when the response sits in a store as a record of JSON data
    and none of its top-level values is [undefined], the bot spawns a
    worker with the token and the channel of the configuration and
    sends the message object that the formatter built through this
    very worker, whatever worker it held before; nothing else is
    sent. *)
Theorem reply_sent h R data this :
  Rep.record_at h R (StoreCaller.message data) = true ->
  (forall k, In k (map fst R) -> prop_get R k <> VUndefined) ->
  exists v h' p,
    Bot.responseFormatter R (Caller.param (StoreCaller.params data) 0)
      (Caller.param (StoreCaller.params data) 1) = Ok p
    /\ Rep.payload_at h' p v = true
    /\ StoreCaller.replyPrivateDelayed data this h
       = (Ok h',
          {| StoreCaller.slack := Some (List.length (StoreCaller.log this));
             StoreCaller.log :=
               StoreCaller.log this
               ++ [StoreCaller.Spawned
                     {| Caller.token := prop_get (StoreCaller.config data) "token";
                        Caller.channel := prop_get (StoreCaller.config data) "channel_id" |};
                   StoreCaller.Replied (List.length (StoreCaller.log this))
                     (StoreCaller.config data) v] |}).
Proof.
  intros Hrec Hd.
  destruct (formatter_returns R (Caller.param (StoreCaller.params data) 0)
              (Caller.param (StoreCaller.params data) 1) Hd) as (p & Hp).
  pose proof (formatter_refines h R (StoreCaller.message data)
                (Caller.param (StoreCaller.params data) 0)
                (Caller.param (StoreCaller.params data) 1) Hrec) as Href.
  rewrite Hp in Href. destruct Href as (v & h' & Hrun & _ & Hat).
  exists v, h', p. split; [exact Hp|]. split; [exact Hat|].
  unfold StoreCaller.replyPrivateDelayed. rewrite Hrun. unfold StoreCaller.init.
  cbn [StoreCaller.slack StoreCaller.log]. now rewrite <- app_assoc.
Qed.

Lemma reply_sent_witness :
  exists v h' p,
    Bot.responseFormatter [("token", VStr "T1")] "gateway" "T1" = Ok p
    /\ Rep.payload_at h' p v = true
    /\ StoreCaller.replyPrivateDelayed
         {| StoreCaller.config := [("token", VStr "xoxb"); ("channel_id", VStr "C1")];
            StoreCaller.message := 0;
            StoreCaller.params := ["gateway"; "T1"] |}
         {| StoreCaller.slack := Some 0;
            StoreCaller.log :=
              [StoreCaller.Spawned {| Caller.token := VStr "old";
                                      Caller.channel := VStr "C0" |}] |}
         [ Heap.CObject Heap.ProtoObject [("token", Heap.HStr "T1")] ]
       = (Ok h',
          {| StoreCaller.slack := Some 1;
             StoreCaller.log :=
               [StoreCaller.Spawned {| Caller.token := VStr "old";
                                       Caller.channel := VStr "C0" |}]
               ++ [StoreCaller.Spawned {| Caller.token := VStr "xoxb";
                                          Caller.channel := VStr "C1" |};
                   StoreCaller.Replied 1
                     [("token", VStr "xoxb"); ("channel_id", VStr "C1")] v] |}).
Proof.
  apply (reply_sent
           [ Heap.CObject Heap.ProtoObject [("token", Heap.HStr "T1")] ]
           [("token", VStr "T1")]
           {| StoreCaller.config := [("token", VStr "xoxb"); ("channel_id", VStr "C1")];
              StoreCaller.message := 0;
              StoreCaller.params := ["gateway"; "T1"] |}
           {| StoreCaller.slack := Some 0;
              StoreCaller.log :=
                [StoreCaller.Spawned {| Caller.token := VStr "old";
                                        Caller.channel := VStr "C0" |}] |}).
  - reflexivity.
  - intros k [<-|[]] H; vm_compute in H; discriminate.
Defined.



(** X6: when a top-level value of the response is [undefined], the
    call throws a TypeError after it has spawned the new worker: the
    worker replaces the one the bot held, and no reply is sent. *)
Theorem reply_fails_after_spawn data this key :
  In key (map fst (Caller.message data)) ->
  prop_get (Caller.message data) key = VUndefined ->
  Caller.replyPrivateDelayed data this
  = (Throw TypeError,
     {| Caller.slack := Some (List.length (Caller.log this));
        Caller.log :=
          Caller.log this
          ++ [Caller.Spawned
                {| Caller.token := prop_get (Caller.config data) "token";
                   Caller.channel := prop_get (Caller.config data) "channel_id" |}] |}).
Proof.
  intros Hin Hu. unfold Caller.replyPrivateDelayed.
  now rewrite (formatter_throws (Caller.message data) _ _ key Hin Hu).
Qed.

Lemma reply_fails_after_spawn_witness :
  Caller.replyPrivateDelayed
    {| Caller.config := [("token", VStr "xoxb")];
       Caller.message := [("token", VStr "T1"); ("state", VUndefined)];
       Caller.params := [] |}
    {| Caller.slack := None; Caller.log := [] |}
  = (Throw TypeError,
     {| Caller.slack := Some 0;
        Caller.log :=
          [] ++ [Caller.Spawned {| Caller.token := VStr "xoxb";
                                   Caller.channel := VUndefined |}] |}).
Proof.
  apply (reply_fails_after_spawn
           {| Caller.config := [("token", VStr "xoxb")];
              Caller.message := [("token", VStr "T1"); ("state", VUndefined)];
              Caller.params := [] |}
           {| Caller.slack := None; Caller.log := [] |} "state").
  - simpl. auto.
  - reflexivity.
Defined.

(** ** Requests for payment methods *)

Section RequestProperties.

Variable CreditCard : Type.
Variable toObject : CreditCard -> Record.
Variable Body : Type.
Variable preparePost : string -> Record -> Body.
Variable ToString : Value -> result string.

Abbreviation createCreditCard :=
  (Requests.createCreditCard CreditCard toObject Body preparePost).
Abbreviation updatePaymentMethod := (Requests.updatePaymentMethod Body preparePost ToString).
Abbreviation migratePaymentMethod := (Requests.migratePaymentMethod Body preparePost).
Abbreviation storePaymentMethod := (Requests.storePaymentMethod Body preparePost ToString).
Abbreviation retainPaymentMethod := (Requests.retainPaymentMethod Body ToString).
Abbreviation redactPaymentMethod := (Requests.redactPaymentMethod Body preparePost ToString).
Abbreviation showPaymentMethod := (Requests.showPaymentMethod Body ToString).
Abbreviation getPaymentMethodTransactions :=
  (Requests.getPaymentMethodTransactions Body ToString).
Abbreviation updateCreditCard :=
  (Requests.updateCreditCard CreditCard toObject Body preparePost ToString).
Abbreviation recacheVerificationValue :=
  (Requests.recacheVerificationValue Body preparePost ToString).

Lemma truthy_string s : s <> EmptyString -> PaymentMethods.truthy (VStr s) = true.
Proof.
  intros Hs. unfold PaymentMethods.truthy.
  now rewrite (proj2 (String.eqb_neq s EmptyString) Hs).
Qed.

Lemma token_of_element props s :
  lookup "token" props = Some (VStr s) -> Requests.token_of (VObj props) = Ok (VStr s).
Proof. intros H. unfold Requests.token_of, prop_get. now rewrite H. Qed.

Lemma token_or_self_element props s :
  lookup "token" props = Some (VStr s) -> s <> EmptyString ->
  Requests.token_or_self (VObj props) = Ok (VStr s).
Proof.
  intros H Hs. unfold Requests.token_or_self. rewrite (token_of_element props s H).
  cbn [bind]. now rewrite (truthy_string s Hs).
Qed.

Lemma token_or_self_string s : Requests.token_or_self (VStr s) = Ok (VStr s).
Proof. reflexivity. Qed.

Lemma gateway_token_element props s :
  lookup "token" props = Some (VStr s) -> s <> EmptyString ->
  Requests.gateway_token (VObj props) = Ok (VStr s).
Proof.
  intros H Hs. unfold Requests.gateway_token. cbn [PaymentMethods.truthy].
  rewrite (token_of_element props s H). cbn [bind]. now rewrite (truthy_string s Hs).
Qed.

Lemma gateway_token_string s : Requests.gateway_token (VStr s) = Ok (VStr s).
Proof.
  unfold Requests.gateway_token. destruct (PaymentMethods.truthy (VStr s)); reflexivity.
Qed.

(** X7: a payment method may be given as its token or as an element
    that carries the token: every function that takes one makes the
    same request for both, and [updatePaymentMethod] leaves the same
    globals. *)
Theorem payment_method_element_or_token props s cb gateway value postData card data g :
  lookup "token" props = Some (VStr s) -> s <> EmptyString ->
  retainPaymentMethod (VObj props) cb = retainPaymentMethod (VStr s) cb
  /\ showPaymentMethod (VObj props) cb = showPaymentMethod (VStr s) cb
  /\ getPaymentMethodTransactions (VObj props) cb
     = getPaymentMethodTransactions (VStr s) cb
  /\ redactPaymentMethod (VObj props) gateway cb = redactPaymentMethod (VStr s) gateway cb
  /\ recacheVerificationValue (VObj props) value cb
     = recacheVerificationValue (VStr s) value cb
  /\ updateCreditCard (VObj props) card data cb = updateCreditCard (VStr s) card data cb
  /\ updatePaymentMethod (VObj props) postData cb g
     = updatePaymentMethod (VStr s) postData cb g.
Proof.
  intros H Hs.
  unfold Requests.retainPaymentMethod, Requests.showPaymentMethod,
    Requests.getPaymentMethodTransactions, Requests.redactPaymentMethod,
    Requests.recacheVerificationValue, Requests.updateCreditCard,
    Requests.updatePaymentMethod.
  rewrite (token_or_self_element props s H Hs), token_or_self_string.
  repeat (split; [reflexivity|]). reflexivity.
Qed.

(** X8: a gateway may be given as its token or as an element that
    carries the token: [storePaymentMethod] and [redactPaymentMethod]
    make the same request for both. *)
Theorem gateway_element_or_token props s paymentMethod data cb g :
  lookup "token" props = Some (VStr s) -> s <> EmptyString ->
  storePaymentMethod (VObj props) paymentMethod data cb g
  = storePaymentMethod (VStr s) paymentMethod data cb g
  /\ redactPaymentMethod paymentMethod (VObj props) cb
     = redactPaymentMethod paymentMethod (VStr s) cb.
Proof.
  intros H Hs. split.
  - unfold Requests.storePaymentMethod.
    now rewrite (token_or_self_element props s H Hs), token_or_self_string.
  - unfold Requests.redactPaymentMethod.
    now rewrite (gateway_token_element props s H Hs), gateway_token_string.
Qed.

(** X9: [storePaymentMethod] puts its argument [paymentMethod] into
    the body as it was given, an element included; the token it took
    from the argument only reaches the global [paymentMethodToken]. *)
Theorem store_sends_argument paymentGateway paymentMethod data cb g c g' :
  storePaymentMethod paymentGateway paymentMethod data cb g = (Ok c, g') ->
  exists postData,
    Requests.body Body (Requests.request Body c) = Some (preparePost "transaction" postData)
    /\ prop_get postData "paymentMethodToken" = paymentMethod
    /\ Requests.token_or_self paymentMethod = Ok (Requests.paymentMethodToken g').
Proof.
  unfold Requests.storePaymentMethod.
  destruct (Requests.optional_argument data cb) as [data' cb'].
  destruct (Requests.token_or_self paymentGateway) as [gt|]; [|discriminate].
  destruct (Requests.token_or_self paymentMethod) as [mt|]; [|discriminate].
  cbn [Requests.paymentGatewayToken Requests.paymentMethodToken].
  destruct (Requests.concat ToString "/gateways/" gt "/store.xml") as [u|];
    cbn [bind]; [|discriminate].
  intros [= <- <-]. cbn [Requests.body Requests.request Requests.paymentMethodToken].
  eexists. split; [reflexivity|]. split; [|reflexivity].
  destruct (PaymentMethods.truthy data'); reflexivity.
Qed.

(** X10: the callback may take the place of the optional argument: a
    function given there, with no callback after it, is the callback
    of a call without the optional argument. *)
Theorem callback_as_last_argument f cb card paymentGateway paymentMethod g :
  PaymentMethods.truthy cb = false ->
  createCreditCard card (VFunc f) cb = createCreditCard card VNull (VFunc f)
  /\ storePaymentMethod paymentGateway paymentMethod (VFunc f) cb g
     = storePaymentMethod paymentGateway paymentMethod VNull (VFunc f) g
  /\ updateCreditCard paymentMethod card (VFunc f) cb
     = updateCreditCard paymentMethod card VNull (VFunc f)
  /\ redactPaymentMethod paymentMethod (VFunc f) cb
     = redactPaymentMethod paymentMethod VNull (VFunc f).
Proof.
  intros Hcb.
  unfold Requests.createCreditCard, Requests.storePaymentMethod, Requests.updateCreditCard,
    Requests.redactPaymentMethod, Requests.gateway_token, Requests.optional_argument.
  cbn [Requests.is_function Requests.token_of PaymentMethods.truthy bind andb negb].
  rewrite Hcb. cbn [negb]. repeat (split; [reflexivity|]). reflexivity.
Qed.

(** X11: without a payment method ([undefined] or [null]) every
    function that takes one throws a TypeError when it reads the
    token, before any request; [updatePaymentMethod] then leaves the
    globals as they were. *)
Theorem missing_payment_method paymentMethod cb gateway value postData card data g :
  paymentMethod = VUndefined \/ paymentMethod = VNull ->
  retainPaymentMethod paymentMethod cb = Throw TypeError
  /\ showPaymentMethod paymentMethod cb = Throw TypeError
  /\ getPaymentMethodTransactions paymentMethod cb = Throw TypeError
  /\ redactPaymentMethod paymentMethod gateway cb = Throw TypeError
  /\ recacheVerificationValue paymentMethod value cb = Throw TypeError
  /\ updateCreditCard paymentMethod card data cb = Throw TypeError
  /\ updatePaymentMethod paymentMethod postData cb g = (Throw TypeError, g).
Proof.
  intros [-> | ->]; repeat (split; [reflexivity|]); reflexivity.
Qed.

(** X12: [storePaymentMethod] without a payment method throws a
    TypeError, but only after it has overwritten the global
    [paymentGatewayToken] with the token of the gateway. *)
Theorem store_fails_half_way paymentGateway paymentMethod data cb g t :
  Requests.token_or_self paymentGateway = Ok t ->
  paymentMethod = VUndefined \/ paymentMethod = VNull ->
  storePaymentMethod paymentGateway paymentMethod data cb g
  = (Throw TypeError,
     {| Requests.paymentMethodToken := Requests.paymentMethodToken g;
        Requests.paymentGatewayToken := t |}).
Proof.
  intros Hg Hpm. unfold Requests.storePaymentMethod.
  destruct (Requests.optional_argument data cb) as [data' cb']. rewrite Hg.
  destruct Hpm as [-> | ->]; reflexivity.
Qed.

(** X13: the globals are written and never read back before they are
    written: the outcome of [updatePaymentMethod] and of
    [storePaymentMethod] does not depend on what earlier calls left in
    them, and [updatePaymentMethod] never touches
    [paymentGatewayToken]. *)
Theorem globals_do_not_leak paymentGateway paymentMethod postData data cb g1 g2 :
  fst (updatePaymentMethod paymentMethod postData cb g1)
  = fst (updatePaymentMethod paymentMethod postData cb g2)
  /\ fst (storePaymentMethod paymentGateway paymentMethod data cb g1)
     = fst (storePaymentMethod paymentGateway paymentMethod data cb g2)
  /\ Requests.paymentGatewayToken (snd (updatePaymentMethod paymentMethod postData cb g1))
     = Requests.paymentGatewayToken g1.
Proof.
  unfold Requests.updatePaymentMethod, Requests.storePaymentMethod.
  destruct (Requests.optional_argument data cb) as [data' cb'].
  destruct (Requests.token_or_self paymentMethod) as [mt|];
    destruct (Requests.token_or_self paymentGateway) as [gt|];
    repeat (split; [reflexivity|]); reflexivity.
Qed.

(** X14: [migratePaymentMethod] forwards the three fields it names and
    nothing else of its argument. *)
Theorem migrate_forwards_three_fields data1 data2 cb :
  prop_get data1 "paymentMethodType" = prop_get data2 "paymentMethodType" ->
  prop_get data1 "reference" = prop_get data2 "reference" ->
  prop_get data1 "gatewayType" = prop_get data2 "gatewayType" ->
  migratePaymentMethod data1 cb = migratePaymentMethod data2 cb.
Proof.
  intros H1 H2 H3. unfold Requests.migratePaymentMethod. now rewrite H1, H2, H3.
Qed.

(** X15: [updateCreditCard] accepts additional data and never sends
    it: the request is the same whatever is given for it. *)
Theorem update_card_drops_additional_data paymentMethod card data1 data2 cb c :
  updateCreditCard paymentMethod card data1 cb = Ok c ->
  exists c', updateCreditCard paymentMethod card data2 cb = Ok c'
             /\ Requests.request Body c' = Requests.request Body c.
Proof.
  unfold Requests.updateCreditCard.
  destruct (Requests.token_or_self paymentMethod) as [t|]; cbn [bind]; [|discriminate].
  destruct (Requests.optional_argument data1 cb) as [d1 cb1].
  destruct (Requests.optional_argument data2 cb) as [d2 cb2].
  destruct (Requests.concat ToString "payment_methods/" t ".xml") as [u|]; cbn [bind];
    [|discriminate].
  intros [= <-]. eexists. split; reflexivity.
Qed.

(** X16: with the token of the payment method as a string,
    [updateCreditCard] with all its arguments hands on the request of
    the card update: the same URL, method and body. *)
Theorem update_card_request s card data cb :
  ToString (VStr s) = Ok s ->
  exists cb',
    updateCreditCard (VStr s) card data cb
    = Ok {| Requests.request :=
              {| Requests.url :=
                   PaymentMethods.url Body
                     (PaymentMethods.updateCreditCard CreditCard toObject Body preparePost
                        s card);
                 Requests.method :=
                   Some (PaymentMethods.method Body
                           (PaymentMethods.updateCreditCard CreditCard toObject Body
                              preparePost s card));
                 Requests.body :=
                   Some (PaymentMethods.body Body
                           (PaymentMethods.updateCreditCard CreditCard toObject Body
                              preparePost s card)) |};
            Requests.callback := cb' |}.
Proof.
  intros Hs. unfold Requests.updateCreditCard. rewrite token_or_self_string. cbn [bind].
  destruct (Requests.optional_argument data cb) as [d cb'].
  unfold Requests.concat. rewrite Hs. cbn [bind]. exists cb'. reflexivity.
Qed.

(** X20: additional data that is falsy ([undefined], [null], [0], the
    empty string, [false]) is not sent: [createCreditCard] and
    [storePaymentMethod] make the call they make without it. *)
Theorem falsy_additional_data_is_dropped data card paymentGateway paymentMethod cb g :
  PaymentMethods.truthy data = false ->
  createCreditCard card data cb = createCreditCard card VNull cb
  /\ storePaymentMethod paymentGateway paymentMethod data cb g
     = storePaymentMethod paymentGateway paymentMethod VNull cb g.
Proof.
  intros Hd.
  assert (Hf : Requests.is_function data = false).
  { destruct data; try reflexivity. discriminate. }
  unfold Requests.createCreditCard, Requests.storePaymentMethod, Requests.optional_argument.
  rewrite Hf. cbn [Requests.is_function andb PaymentMethods.truthy]. rewrite Hd.
  split; reflexivity.
Qed.

(** X21: [redactPaymentMethod] sends a body exactly to notify a
    gateway: none when the gateway argument is falsy, and the token of
    the gateway under [removeFromGateway] when one is given. *)
Theorem redact_notifies_gateway paymentMethod gateway cb c :
  redactPaymentMethod paymentMethod gateway cb = Ok c ->
  (PaymentMethods.truthy gateway = false ->
   Requests.body Body (Requests.request Body c) = None)
  /\ (forall s, Requests.gateway_token gateway = Ok (VStr s) -> s <> EmptyString ->
                Requests.body Body (Requests.request Body c)
                = Some (preparePost "transaction" [("removeFromGateway", VStr s)])).
Proof.
  unfold Requests.redactPaymentMethod.
  destruct (Requests.token_or_self paymentMethod) as [t|]; cbn [bind]; [|discriminate].
  intros H. split.
  - intros Hg. revert H. unfold Requests.gateway_token. rewrite Hg. cbn [bind].
    assert (Hf : Requests.is_function gateway = false).
    { destruct gateway; try reflexivity. discriminate. }
    unfold Requests.optional_argument. rewrite Hf. cbn [andb].
    destruct (Requests.concat ToString "payment_methods/" t "/redact.xml") as [u|];
      cbn [bind]; [|discriminate].
    intros [= <-]. cbn [Requests.body Requests.request]. now rewrite Hg.
  - intros s Hs Hne. revert H. rewrite Hs. cbn [bind].
    unfold Requests.optional_argument. cbn [Requests.is_function andb].
    destruct (Requests.concat ToString "payment_methods/" t "/redact.xml") as [u|];
      cbn [bind]; [|discriminate].
    intros [= <-]. cbn [Requests.body Requests.request].
    now rewrite (proj2 (String.eqb_neq s EmptyString) Hne).
Qed.

End RequestProperties.

(** ** Examples of the requests *)

Lemma payment_method_element_or_token_witness :
  Requests.retainPaymentMethod (string * Record) Requests.primitive_text
    (VObj [("token", VStr "PM1"); ("storage_state", VStr "cached")]) VUndefined
  = Requests.retainPaymentMethod (string * Record) Requests.primitive_text
      (VStr "PM1") VUndefined
  /\ Requests.showPaymentMethod (string * Record) Requests.primitive_text
       (VObj [("token", VStr "PM1"); ("storage_state", VStr "cached")]) VUndefined
     = Requests.showPaymentMethod (string * Record) Requests.primitive_text
         (VStr "PM1") VUndefined
  /\ Requests.getPaymentMethodTransactions (string * Record) Requests.primitive_text
       (VObj [("token", VStr "PM1"); ("storage_state", VStr "cached")]) VUndefined
     = Requests.getPaymentMethodTransactions (string * Record) Requests.primitive_text
         (VStr "PM1") VUndefined
  /\ Requests.redactPaymentMethod (string * Record) pair Requests.primitive_text
       (VObj [("token", VStr "PM1"); ("storage_state", VStr "cached")]) VUndefined VUndefined
     = Requests.redactPaymentMethod (string * Record) pair Requests.primitive_text
         (VStr "PM1") VUndefined VUndefined
  /\ Requests.recacheVerificationValue (string * Record) pair Requests.primitive_text
       (VObj [("token", VStr "PM1"); ("storage_state", VStr "cached")]) (VStr "123") VUndefined
     = Requests.recacheVerificationValue (string * Record) pair Requests.primitive_text
         (VStr "PM1") (VStr "123") VUndefined
  /\ Requests.updateCreditCard unit (fun _ => []) (string * Record) pair Requests.primitive_text
       (VObj [("token", VStr "PM1"); ("storage_state", VStr "cached")])
       (PaymentMethods.Plain unit [("month", VNum 1)]) VUndefined VUndefined
     = Requests.updateCreditCard unit (fun _ => []) (string * Record) pair Requests.primitive_text
         (VStr "PM1") (PaymentMethods.Plain unit [("month", VNum 1)]) VUndefined VUndefined
  /\ Requests.updatePaymentMethod (string * Record) pair Requests.primitive_text
       (VObj [("token", VStr "PM1"); ("storage_state", VStr "cached")])
       [("email", VStr "a@b.c")] VUndefined
       {| Requests.paymentMethodToken := VUndefined; Requests.paymentGatewayToken := VUndefined |}
     = Requests.updatePaymentMethod (string * Record) pair Requests.primitive_text
         (VStr "PM1") [("email", VStr "a@b.c")] VUndefined
         {| Requests.paymentMethodToken := VUndefined; Requests.paymentGatewayToken := VUndefined |}.
Proof.
  apply (payment_method_element_or_token unit (fun _ => []) (string * Record) pair Requests.primitive_text
           [("token", VStr "PM1"); ("storage_state", VStr "cached")] "PM1").
  - reflexivity.
  - discriminate.
Defined.

Lemma gateway_element_or_token_witness :
  Requests.storePaymentMethod (string * Record) pair Requests.primitive_text
    (VObj [("token", VStr "GW1"); ("gateway_type", VStr "test")]) (VStr "PM1") VUndefined
    VUndefined
    {| Requests.paymentMethodToken := VUndefined; Requests.paymentGatewayToken := VUndefined |}
  = Requests.storePaymentMethod (string * Record) pair Requests.primitive_text
      (VStr "GW1") (VStr "PM1") VUndefined VUndefined
      {| Requests.paymentMethodToken := VUndefined; Requests.paymentGatewayToken := VUndefined |}
  /\ Requests.redactPaymentMethod (string * Record) pair Requests.primitive_text
       (VStr "PM1") (VObj [("token", VStr "GW1"); ("gateway_type", VStr "test")]) VUndefined
     = Requests.redactPaymentMethod (string * Record) pair Requests.primitive_text
         (VStr "PM1") (VStr "GW1") VUndefined.
Proof.
  apply (gateway_element_or_token (string * Record) pair Requests.primitive_text
           [("token", VStr "GW1"); ("gateway_type", VStr "test")] "GW1").
  - reflexivity.
  - discriminate.
Defined.

Lemma store_sends_argument_witness :
  exists postData,
    Requests.body (string * Record)
      (Requests.request (string * Record)
         {| Requests.request :=
              {| Requests.url := "/gateways/GW1/store.xml";
                 Requests.method := Some "post";
                 Requests.body :=
                   Some ("transaction",
                         [("paymentMethodToken",
                           VObj [("token", VStr "PM1"); ("storage_state", VStr "cached")])])
              |};
            Requests.callback := VUndefined |})
    = Some ("transaction", postData)
    /\ prop_get postData "paymentMethodToken"
       = VObj [("token", VStr "PM1"); ("storage_state", VStr "cached")]
    /\ Requests.token_or_self
         (VObj [("token", VStr "PM1"); ("storage_state", VStr "cached")])
       = Ok (Requests.paymentMethodToken
               {| Requests.paymentMethodToken := VStr "PM1";
                  Requests.paymentGatewayToken := VStr "GW1" |}).
Proof.
  apply (store_sends_argument (string * Record) pair Requests.primitive_text (VStr "GW1")
           (VObj [("token", VStr "PM1"); ("storage_state", VStr "cached")])
           VUndefined VUndefined
           {| Requests.paymentMethodToken := VUndefined;
              Requests.paymentGatewayToken := VUndefined |}).
  reflexivity.
Defined.

Lemma callback_as_last_argument_witness :
  Requests.createCreditCard unit (fun _ => []) (string * Record) pair
    (PaymentMethods.Plain unit [("month", VNum 1)]) (VFunc "done") VUndefined
  = Requests.createCreditCard unit (fun _ => []) (string * Record) pair
      (PaymentMethods.Plain unit [("month", VNum 1)]) VNull (VFunc "done")
  /\ Requests.storePaymentMethod (string * Record) pair Requests.primitive_text
       (VStr "GW1") (VStr "PM1") (VFunc "done") VUndefined
       {| Requests.paymentMethodToken := VUndefined; Requests.paymentGatewayToken := VUndefined |}
     = Requests.storePaymentMethod (string * Record) pair Requests.primitive_text
         (VStr "GW1") (VStr "PM1") VNull (VFunc "done")
         {| Requests.paymentMethodToken := VUndefined; Requests.paymentGatewayToken := VUndefined |}
  /\ Requests.updateCreditCard unit (fun _ => []) (string * Record) pair Requests.primitive_text
       (VStr "PM1") (PaymentMethods.Plain unit [("month", VNum 1)]) (VFunc "done") VUndefined
     = Requests.updateCreditCard unit (fun _ => []) (string * Record) pair Requests.primitive_text
         (VStr "PM1") (PaymentMethods.Plain unit [("month", VNum 1)]) VNull (VFunc "done")
  /\ Requests.redactPaymentMethod (string * Record) pair Requests.primitive_text
       (VStr "PM1") (VFunc "done") VUndefined
     = Requests.redactPaymentMethod (string * Record) pair Requests.primitive_text
         (VStr "PM1") VNull (VFunc "done").
Proof.
  apply (callback_as_last_argument unit (fun _ => []) (string * Record) pair Requests.primitive_text). reflexivity.
Defined.

Lemma missing_payment_method_witness :
  Requests.retainPaymentMethod (string * Record) Requests.primitive_text
    VUndefined VUndefined
  = Throw TypeError
  /\ Requests.showPaymentMethod (string * Record) Requests.primitive_text
       VUndefined VUndefined
     = Throw TypeError
  /\ Requests.getPaymentMethodTransactions (string * Record) Requests.primitive_text
       VUndefined VUndefined
     = Throw TypeError
  /\ Requests.redactPaymentMethod (string * Record) pair Requests.primitive_text
       VUndefined (VStr "GW1") VUndefined
     = Throw TypeError
  /\ Requests.recacheVerificationValue (string * Record) pair Requests.primitive_text
       VUndefined (VStr "123") VUndefined
     = Throw TypeError
  /\ Requests.updateCreditCard unit (fun _ => []) (string * Record) pair Requests.primitive_text
       VUndefined (PaymentMethods.Plain unit [("month", VNum 1)]) VUndefined VUndefined
     = Throw TypeError
  /\ Requests.updatePaymentMethod (string * Record) pair Requests.primitive_text
       VUndefined [] VUndefined
       {| Requests.paymentMethodToken := VUndefined; Requests.paymentGatewayToken := VUndefined |}
     = (Throw TypeError,
        {| Requests.paymentMethodToken := VUndefined;
           Requests.paymentGatewayToken := VUndefined |}).
Proof.
  apply (missing_payment_method unit (fun _ => []) (string * Record) pair Requests.primitive_text). now left.
Defined.

Lemma store_fails_half_way_witness :
  Requests.storePaymentMethod (string * Record) pair Requests.primitive_text
    (VObj [("token", VStr "GW1"); ("gateway_type", VStr "test")]) VNull VUndefined VUndefined
    {| Requests.paymentMethodToken := VUndefined; Requests.paymentGatewayToken := VUndefined |}
  = (Throw TypeError,
     {| Requests.paymentMethodToken :=
          Requests.paymentMethodToken
            {| Requests.paymentMethodToken := VUndefined;
               Requests.paymentGatewayToken := VUndefined |};
        Requests.paymentGatewayToken := VStr "GW1" |}).
Proof.
  apply (store_fails_half_way (string * Record) pair Requests.primitive_text).
  - reflexivity.
  - now right.
Defined.

Lemma migrate_forwards_three_fields_witness :
  Requests.migratePaymentMethod (string * Record) pair
    [("reference", VStr "r1"); ("number", VStr "4111111111111111")] VUndefined
  = Requests.migratePaymentMethod (string * Record) pair
      [("reference", VStr "r1")] VUndefined.
Proof.
  apply (migrate_forwards_three_fields (string * Record) pair); reflexivity.
Defined.

Lemma update_card_drops_additional_data_witness :
  exists c',
    Requests.updateCreditCard unit (fun _ => []) (string * Record) pair Requests.primitive_text
      (VStr "PM1") (PaymentMethods.Plain unit [("month", VNum 1)]) VNull VUndefined
    = Ok c'
    /\ Requests.request (string * Record) c'
       = Requests.request (string * Record)
           {| Requests.request :=
                {| Requests.url := "payment_methods/PM1.xml";
                   Requests.method := Some "put";
                   Requests.body :=
                     Some ("payment_method", [("creditCard", VObj [("month", VNum 1)])]) |};
              Requests.callback := VUndefined |}.
Proof.
  apply (update_card_drops_additional_data unit (fun _ => []) (string * Record) pair Requests.primitive_text
           (VStr "PM1") (PaymentMethods.Plain unit [("month", VNum 1)]) (VObj [("note", VStr "n")])).
  reflexivity.
Defined.

Lemma update_card_request_witness :
  exists cb',
    Requests.updateCreditCard unit (fun _ => []) (string * Record) pair Requests.primitive_text
      (VStr "PM1") (PaymentMethods.Plain unit [("month", VNum 1)]) VUndefined (VFunc "done")
    = Ok {| Requests.request :=
              {| Requests.url :=
                   PaymentMethods.url (string * Record)
                     (PaymentMethods.updateCreditCard unit (fun _ => []) (string * Record) pair
                        "PM1" (PaymentMethods.Plain unit [("month", VNum 1)]));
                 Requests.method :=
                   Some (PaymentMethods.method (string * Record)
                           (PaymentMethods.updateCreditCard unit (fun _ => []) (string * Record) pair
                              "PM1" (PaymentMethods.Plain unit [("month", VNum 1)])));
                 Requests.body :=
                   Some (PaymentMethods.body (string * Record)
                           (PaymentMethods.updateCreditCard unit (fun _ => []) (string * Record) pair
                              "PM1" (PaymentMethods.Plain unit [("month", VNum 1)]))) |};
            Requests.callback := cb' |}.
Proof.
  apply (update_card_request unit (fun _ => []) (string * Record) pair Requests.primitive_text). reflexivity.
Defined.

Lemma falsy_additional_data_is_dropped_witness :
  Requests.createCreditCard unit (fun _ => []) (string * Record) pair
    (PaymentMethods.Plain unit [("month", VNum 1)]) (VStr EmptyString) (VFunc "done")
  = Requests.createCreditCard unit (fun _ => []) (string * Record) pair
      (PaymentMethods.Plain unit [("month", VNum 1)]) VNull (VFunc "done")
  /\ Requests.storePaymentMethod (string * Record) pair Requests.primitive_text
       (VStr "GW1") (VStr "PM1") (VStr EmptyString) (VFunc "done")
       {| Requests.paymentMethodToken := VUndefined; Requests.paymentGatewayToken := VUndefined |}
     = Requests.storePaymentMethod (string * Record) pair Requests.primitive_text
         (VStr "GW1") (VStr "PM1") VNull (VFunc "done")
         {| Requests.paymentMethodToken := VUndefined; Requests.paymentGatewayToken := VUndefined |}.
Proof.
  apply (falsy_additional_data_is_dropped unit (fun _ => []) (string * Record) pair Requests.primitive_text). reflexivity.
Defined.

Lemma redact_notifies_gateway_witness :
  (PaymentMethods.truthy (VObj [("token", VStr "GW1")]) = false ->
   Requests.body (string * Record)
     (Requests.request (string * Record)
        {| Requests.request :=
             {| Requests.url := "payment_methods/PM1/redact.xml";
                Requests.method := Some "put";
                Requests.body :=
                  Some ("transaction", [("removeFromGateway", VStr "GW1")]) |};
           Requests.callback := VUndefined |}) = None)
  /\ (forall s,
        Requests.gateway_token (VObj [("token", VStr "GW1")]) = Ok (VStr s) ->
        s <> EmptyString ->
        Requests.body (string * Record)
          (Requests.request (string * Record)
             {| Requests.request :=
                  {| Requests.url := "payment_methods/PM1/redact.xml";
                     Requests.method := Some "put";
                     Requests.body :=
                       Some ("transaction", [("removeFromGateway", VStr "GW1")]) |};
                Requests.callback := VUndefined |})
        = Some ("transaction", [("removeFromGateway", VStr s)])).
Proof.
  apply (redact_notifies_gateway (string * Record) pair Requests.primitive_text
           (VStr "PM1") (VObj [("token", VStr "GW1")]) VUndefined).
  reflexivity.
Defined.

(** ** The card that is sent *)

Lemma delete_if_truthy_falsy creditCard key :
  PaymentMethods.truthy (prop_get (PaymentMethods.delete_if_truthy creditCard key) key)
  = false.
Proof.
  unfold PaymentMethods.delete_if_truthy.
  destruct (PaymentMethods.truthy (prop_get creditCard key)) eqn:E; [|exact E].
  unfold prop_get. now rewrite lookup_delete_same.
Qed.

Lemma delete_if_truthy_other creditCard key key' :
  key <> key' ->
  lookup key (PaymentMethods.delete_if_truthy creditCard key') = lookup key creditCard.
Proof.
  intros Hne. unfold PaymentMethods.delete_if_truthy.
  destruct (PaymentMethods.truthy (prop_get creditCard key')); [|reflexivity].
  now apply lookup_delete_other.
Qed.

Lemma delete_if_truthy_id creditCard key :
  PaymentMethods.truthy (prop_get creditCard key) = false ->
  PaymentMethods.delete_if_truthy creditCard key = creditCard.
Proof. intros H. unfold PaymentMethods.delete_if_truthy. now rewrite H. Qed.

(** X17: whatever the card, the object that [updateCreditCard] sends
    holds no truthy [number] and no truthy [verificationValue], and a
    second update of the same object deletes nothing more. *)
Theorem stripped_holds_no_truthy_secret creditCard :
  PaymentMethods.truthy (prop_get (PaymentMethods.stripped creditCard) "number") = false
  /\ PaymentMethods.truthy
       (prop_get (PaymentMethods.stripped creditCard) "verificationValue") = false
  /\ PaymentMethods.stripped (PaymentMethods.stripped creditCard)
     = PaymentMethods.stripped creditCard.
Proof.
  assert (Hn : PaymentMethods.truthy
                 (prop_get (PaymentMethods.stripped creditCard) "number") = false).
  { apply delete_if_truthy_falsy. }
  assert (Hv : PaymentMethods.truthy
                 (prop_get (PaymentMethods.stripped creditCard) "verificationValue") = false).
  { unfold PaymentMethods.stripped, prop_get.
    rewrite delete_if_truthy_other by discriminate. apply delete_if_truthy_falsy. }
  split; [exact Hn|]. split; [exact Hv|].
  unfold PaymentMethods.stripped at 1.
  rewrite (delete_if_truthy_id _ "verificationValue" Hv).
  now apply delete_if_truthy_id.
Qed.

(** X18: the two deletions of [updateCreditCard] touch no other field
    of the card. *)
Theorem stripped_keeps_other_fields creditCard key :
  key <> "number" -> key <> "verificationValue" ->
  lookup key (PaymentMethods.stripped creditCard) = lookup key creditCard.
Proof.
  intros Hn Hv. unfold PaymentMethods.stripped.
  rewrite (delete_if_truthy_other _ key "number" Hn).
  now apply delete_if_truthy_other.
Qed.

Lemma stripped_keeps_other_fields_witness :
  lookup "month"
    (PaymentMethods.stripped [("number", VStr "4111111111111111"); ("month", VNum 1)])
  = lookup "month" [("number", VStr "4111111111111111"); ("month", VNum 1)].
Proof.
  apply stripped_keeps_other_fields; discriminate.
Defined.

(** ** The payload is built from new cells *)

Section Built.

Import Rep Sim.

(** The store formatter ends in the invariant of its second loop. *)
Lemma formatter_emits h R data type token p :
  record_at h R data = true ->
  Bot.responseFormatter R type token = Ok p ->
  exists m ms atts acc h',
    Heap.responseFormatter data type token h = Ok (Heap.HRef ms, h')
    /\ emit_sim h h' m ms atts acc (attachments p).
Proof.
  intros Hrec. unfold Bot.responseFormatter, Heap.responseFormatter.
  rewrite (mbind_Ok (Heap.alloc _) _ h _ _ eq_refl).
  rewrite (mbind_Ok (Heap.alloc _) _ _ _ _ eq_refl).
  pose proof (init_sim h) as Hinit.
  pose proof Hinit as (_ & He1 & _).
  rewrite (mbind_Ok _ _ _ _ _ (for_in_object h _ R data Hrec He1)).
  pose proof (first_loop_sim h _ R data (own_property_keys R) Hrec _ _ Hinit) as Hloop.
  destruct (for_each (Bot.classify R) (own_property_keys R)
              {| own := [("main", [])]; proto := None |}) as [acc|e]; cbn [bind];
    [|discriminate].
  intros [= <-]. cbn [attachments].
  destruct Hloop as (h2 & Hloop & Hsim).
  rewrite (mbind_Ok _ _ _ _ _ Hloop).
  rewrite (mbind_Ok (Heap.alloc _) _ h2 _ _ eq_refl).
  rewrite (mbind_Ok (Heap.alloc _) _ _ _ _ eq_refl).
  pose proof Hsim as (Hm & He2 & pr & hprops & Em & Hown & Hpr & _).
  assert (Hsim4 : acc_sim h
            ((h2 ++ [Heap.CArray []])
             ++ [Heap.CObject Heap.ProtoObject
                   [("attachments", Heap.HRef (List.length h2))]])
            (List.length (h ++ [Heap.CArray []])) acc).
  { now do 2 apply acc_sim_alloc. }
  assert (Hemit : emit_sim h
            ((h2 ++ [Heap.CArray []])
             ++ [Heap.CObject Heap.ProtoObject
                   [("attachments", Heap.HRef (List.length h2))]])
            (List.length (h ++ [Heap.CArray []]))
            (List.length (h2 ++ [Heap.CArray []])) (List.length h2) acc []).
  { split; [exact Hsim4|]. pose proof (nth_error_lt _ _ _ Em) as Hmlt.
    split; [rewrite (length_app h2); cbn [List.length]; lia|].
    split; [destruct He2; lia|]. split; [|split].
    - intros pr' hprops' E' Hin.
      rewrite (alloc_Some _ _ _ _ (alloc_Some _ _ _ _ Em)) in E'.
      injection E' as <- <-.
      apply (tracked_lt _ _ _ _ _ _ _ Hown Hpr) in Hin. lia.
    - apply alloc_new.
    - exists []. split; [|constructor].
      rewrite alloc_old by (rewrite length_app; cbn [List.length]; lia). apply alloc_new. }
  rewrite (mbind_Ok _ _ _ _ _ (for_in_message _ _ _ _ Hsim4)).
  destruct (emit_all h _ _ _ acc type token (Bot.enumerate acc) (fun x Hx => Hx) _ []
              Hemit) as (h5 & Hloop5 & Hsim5).
  rewrite (mbind_Ok _ _ _ _ _ Hloop5).
  exists (List.length (h ++ [Heap.CArray []])), (List.length (h2 ++ [Heap.CArray []])),
         (List.length h2), acc, h5.
  split; [reflexivity | exact Hsim5].
Qed.

Lemma Forall2_In_r {A B : Type} (P : A -> B -> Prop) xs ys y :
  Forall2 P xs ys -> In y ys -> exists x, In x xs /\ P x y.
Proof.
  induction 1 as [|x y' xs ys Hxy _ IH]; [contradiction|].
  intros [<-|Hin].
  - exists x. split; [now left | exact Hxy].
  - destruct (IH Hin) as (x' & Hx' & HP). exists x'. split; [now right | exact HP].
Qed.

Lemma entry_sim_new h0 h m e r :
  List.length h0 <= m -> entry_sim h0 h m e r -> Fresh.new_ref (List.length h0) r = true.
Proof.
  intros Hm (l & hv & -> & Hl & _). cbn [Fresh.new_ref]. apply Nat.leb_le. lia.
Qed.

Lemma fields_sim_new h0 h m atts F f :
  List.length h0 <= m -> fields_sim h0 h m atts F f ->
  Fresh.new_fields (List.length h0) h f = true.
Proof.
  intros Hm. destruct F as [es|e]; cbn [fields_sim].
  - intros (a & -> & _ & Ha & refs & E & HF). cbn [Fresh.new_fields]. rewrite E.
    apply andb_true_iff. split; [now apply Nat.leb_le|].
    apply forallb_forall. intros r Hin.
    destruct (Forall2_In_r _ _ _ _ HF Hin) as (e & _ & He).
    now apply (entry_sim_new h0 h m e).
  - intros (l & hv & -> & Hl & E & _). cbn [Fresh.new_fields]. rewrite E.
    unfold entry_cell. apply andb_true_iff. split; [apply Nat.leb_le; lia | reflexivity].
Qed.

Lemma group_sim_new h0 h m atts g r :
  List.length h0 <= m -> group_sim h0 h m atts g r ->
  Fresh.new_group (List.length h0) h r = true.
Proof.
  intros Hm (l & c & F & f & -> & Hl & _ & _ & E & Hf). cbn [Fresh.new_group].
  rewrite E. unfold group_cell. apply andb_true_iff.
  split; [apply Nat.leb_le; lia | now apply (fields_sim_new h0 h m atts F)].
Qed.

Lemma emit_sim_built h0 h m ms atts acc done :
  emit_sim h0 h m ms atts acc done ->
  Fresh.built_after (List.length h0) h (Heap.HRef ms) = true.
Proof.
  intros ((Hm & _) & Hms & Hatts & _ & Ems & grefs & Eatts & HG).
  cbn [Fresh.built_after]. rewrite Ems, Eatts.
  apply andb_true_iff. split; [apply Nat.leb_le; lia|].
  apply andb_true_iff. split; [now apply Nat.leb_le|].
  apply forallb_forall. intros r Hin.
  destruct (Forall2_In_r _ _ _ _ HG Hin) as (g & _ & Hg).
  now apply (group_sim_new h0 h m atts g).
Qed.

(** X19: on a store that holds the record, the message object that
    the formatter returns, its array of attachments, every group,
    every array of fields and every entry sit in cells that the call
    created; the payload shares no object with the record above the
    values of its entries. *)
Theorem payload_is_new h R data type token v h' :
  record_at h R data = true ->
  Heap.responseFormatter data type token h = Ok (v, h') ->
  Fresh.built_after (List.length h) h' v = true.
Proof.
  intros Hrec Hrun.
  pose proof (formatter_refines h R data type token Hrec) as Href.
  pose proof (formatter_emits h R data type token) as Hemit.
  destruct (Bot.responseFormatter R type token) as [p|e].
  - destruct (Hemit p Hrec eq_refl) as (m & ms & atts & acc & h5 & E & Hsim).
    rewrite E in Hrun. injection Hrun as <- <-.
    now apply (emit_sim_built h h5 m ms atts acc (attachments p)).
  - rewrite Href in Hrun. discriminate.
Qed.

End Built.

Lemma payload_is_new_witness :
  Fresh.built_after
    (List.length
       [ Heap.CObject Heap.ProtoObject [("token", Heap.HStr "T1"); ("details", Heap.HRef 1)];
         Heap.CObject Heap.ProtoObject [("name", Heap.HStr "x")] ])
    [ Heap.CObject Heap.ProtoObject [("token", Heap.HStr "T1"); ("details", Heap.HRef 1)];
      Heap.CObject Heap.ProtoObject [("name", Heap.HStr "x")];
      Heap.CArray [Heap.HRef 4];
      Heap.CObject Heap.ProtoObject [("main", Heap.HRef 2); ("details", Heap.HRef 5)];
      Heap.CObject Heap.ProtoObject
        [("title", Heap.HStr "token"); ("value", Heap.HStr "T1");
         ("short", Heap.HBool true)];
      Heap.CArray [Heap.HRef 6];
      Heap.CObject Heap.ProtoObject
        [("title", Heap.HStr "name"); ("value", Heap.HStr "x"); ("short", Heap.HBool true)];
      Heap.CArray [Heap.HRef 9; Heap.HRef 10];
      Heap.CObject Heap.ProtoObject [("attachments", Heap.HRef 7)];
      Heap.CObject Heap.ProtoObject
        [("color", Heap.HStr "#36a64f");
         ("pretext", Heap.HStr "Spreedly response for gateway with token T1");
         ("fields", Heap.HRef 2)];
      Heap.CObject Heap.ProtoObject
        [("color", Heap.HStr "#36a64f"); ("pretext", Heap.HStr "details");
         ("fields", Heap.HRef 5)] ]
    (Heap.HRef 8) = true.
Proof.
  apply (payload_is_new
           [ Heap.CObject Heap.ProtoObject
               [("token", Heap.HStr "T1"); ("details", Heap.HRef 1)];
             Heap.CObject Heap.ProtoObject [("name", Heap.HStr "x")] ]
           [("token", VStr "T1"); ("details", VObj [("name", VStr "x")])]
           0 "gateway" "T1").
  - reflexivity.
  - reflexivity.
Defined.
